(** * Privacy loss distributions: a shallow embedding of [dp_accounting]

    The development follows the two Python modules

    - [common.py]: the monotone function inverter, the dictionary/list
      codec with tail truncation and the FFT based convolutions;
    - [privacy_loss_distribution.py]: the [PrivacyLossDistribution] class,
      its constructors, its two divergence queries and composition.

    The monotone function inverter runs on binary64 floats ([PrimFloat]):
    whether its bisection ends depends on the spacing of the doubles.

    Everywhere else Python floats are real numbers ([R]) and arithmetic is
    exact, except where a result leaves the range of a double and the code
    then behaves differently in kind: [math.exp] raises [OverflowError] at
    [float_max] and gives the float zero at [float_tiny]; the masses and
    probabilities that the constructors and [get_epsilon_for_delta] compute
    by a product or a quotient are zero when they underflow; the quotient
    under a logarithm is infinite when it overflows; and [math.log] is [ln]
    on the positive reals and raises elsewhere.
    Rounding inside the range (the round-off of sums, products and of the
    FFT) is not modelled, nor is the reduced precision of subnormal
    doubles; integers, bucket values and the quotients by the
    discretization interval are taken to have finite doubles.  Where a
    property depends on it, its statement says so ([finite_values],
    [normal_terms] and the bounds by [float_max] and [float_tiny]).
    Python dictionaries keyed by integers are finite maps [gmap Z R];
    exceptions are the [Raise] results of a small error monad. *)

From Stdlib Require Import Reals Lra Lia ZArith PrimFloat.
From stdpp Require Import gmap list fin_maps sorting.

Local Open Scope Z_scope.

(** ** Python results: a value or an exception *)

Inductive py_error : Type :=
  | ValueError
  | ZeroDivisionError
  | OverflowError.

Inductive result (A : Type) : Type :=
  | Ok (a : A)
  | Raise (e : py_error).

Arguments Ok {A} a.
Arguments Raise {A} e.

#[global] Instance result_ret : MRet result := λ A a, Ok a.
#[global] Instance result_bind : MBind result := λ A B k r,
  match r with
  | Ok a => k a
  | Raise e => Raise e
  end.

(** ** Real numbers as floats: decidable comparisons *)

#[global] Instance Rlt_decision : RelDecision Rlt := Rlt_dec.
#[global] Instance Rle_decision : RelDecision Rle := Rle_dec.
#[global] Instance Rgt_decision : RelDecision Rgt := Rgt_dec.
#[global] Instance Rge_decision : RelDecision Rge := Rge_dec.
#[global] Instance Req_decision : EqDecision R := Req_dec_T.

(** ** Real numbers as floats: the range of binary64 *)

(** A real of magnitude [float_max] or more has no finite double: it is
    half-way between the largest double and [2 ^ 1024], or beyond.  A real
    of magnitude [float_tiny] or less, half the smallest positive double,
    rounds to the float zero. *)
Definition float_max : R := ((2 - / 2 ^ 53) * 2 ^ 1023)%R.

Definition float_tiny : R := (/ 2 ^ 1075)%R.

(** The smallest positive normal double: from here on a double carries its
    full precision, below it is rounded to a multiple of [2 ^ -1074]. *)
Definition float_normal : R := (/ 2 ^ 1022)%R.

(** A result that may underflow to the float zero. *)
Definition underflow (x : R) : R :=
  if decide (Rabs x <= float_tiny)%R then 0%R else x.

(** [math.exp]: [OverflowError] when the result has no finite double, zero
    when it underflows. *)
Definition py_exp (x : R) : result R :=
  if decide (float_max <= exp x)%R then Raise OverflowError
  else Ok (underflow (exp x)).

(** Sum of a list of reals, in list order. *)
Fixpoint Rsum (l : list R) : R :=
  match l with
  | [] => 0%R
  | x :: l' => (x + Rsum l')%R
  end.

(** ** [common.py]: the dictionary/list codec *)

(** The keys of a dictionary, in iteration order. *)
Definition keys (d : gmap Z R) : list Z := (map_to_list d).*1.

(** [min(d)] and [max(d)] over the keys; both raise [ValueError] on the
    empty dictionary. *)
Definition py_min (d : gmap Z R) : result Z :=
  match keys d with
  | [] => Raise ValueError
  | k :: ks => Ok (foldl Z.min k ks)
  end.

Definition py_max (d : gmap Z R) : result Z :=
  match keys d with
  | [] => Raise ValueError
  | k :: ks => Ok (foldl Z.max k ks)
  end.

(** [d.get(i, 0)]. *)
Definition get0 (d : gmap Z R) (i : Z) : R := default 0%R (d !! i).

(** [dictionary_to_list]: the offset (smallest key) and the dense list of
    the values between the smallest and the largest key. *)
Definition dictionary_to_list (input_dictionary : gmap Z R)
  : result (Z * list R) :=
  offset ← py_min input_dictionary;
  max_val ← py_max input_dictionary;
  Ok (offset, get0 input_dictionary <$> seqZ offset (max_val + 1 - offset)).

(** First loop of [list_to_dictionary].  [rest] is
    [input_list[lower_truncation_index:]]; the loop stops at the first index
    whose running mass exceeds [half], or at [len(input_list)]. *)
Fixpoint lower_truncation_loop (half : R) (rest : list R)
    (lower_truncation_index : Z) (lower_truncation_mass : R) : Z :=
  match rest with
  | [] => lower_truncation_index
  | x :: rest' =>
      let mass := (lower_truncation_mass + x)%R in
      if decide (mass > half)%R then lower_truncation_index
      else lower_truncation_loop half rest' (lower_truncation_index + 1) mass
  end.

(** Second loop.  [rest_rev] is [input_list[:upper_truncation_index + 1]]
    read from its last element downwards; the loop stops at the first index
    whose running mass exceeds [half], or at [-1]. *)
Fixpoint upper_truncation_loop (half : R) (rest_rev : list R)
    (upper_truncation_index : Z) (upper_truncation_mass : R) : Z :=
  match rest_rev with
  | [] => upper_truncation_index
  | x :: rest' =>
      let mass := (upper_truncation_mass + x)%R in
      if decide (mass > half)%R then upper_truncation_index
      else upper_truncation_loop half rest' (upper_truncation_index - 1) mass
  end.

Definition lower_truncation_index (input_list : list R)
    (tail_mass_truncation : R) : Z :=
  lower_truncation_loop (tail_mass_truncation / 2) input_list 0 0.

Definition upper_truncation_index (input_list : list R)
    (tail_mass_truncation : R) : Z :=
  upper_truncation_loop (tail_mass_truncation / 2) (reverse input_list)
    (Z.of_nat (length input_list) - 1) 0.

(** [input_list[i]] for an index of [range(lower, upper + 1)]; these
    indices lie in [0 .. len - 1] (lemma [truncation_indices_in_range]). *)
Definition item (input_list : list R) (i : Z) : R :=
  default 0%R (input_list !! Z.to_nat i).

(** One iteration of the third loop. *)
Definition retain (input_list : list R) (offset : Z)
    (result_dictionary : gmap Z R) (i : Z) : gmap Z R :=
  if decide (item input_list i > 0)%R
  then <[i + offset := item input_list i]> result_dictionary
  else result_dictionary.

Definition list_to_dictionary (input_list : list R) (offset : Z)
    (tail_mass_truncation : R) : gmap Z R :=
  let lower := lower_truncation_index input_list tail_mass_truncation in
  let upper := upper_truncation_index input_list tail_mass_truncation in
  foldl (retain input_list offset) ∅ (seqZ lower (upper + 1 - lower)).

(** ** [common.py]: convolutions *)

(** Entrywise sum of two lists, the shorter one padded with zeros. *)
Fixpoint padd (a b : list R) : list R :=
  match a, b with
  | [], _ => b
  | _, [] => a
  | x :: a', y :: b' => (x + y)%R :: padd a' b'
  end.

(** [scipy.signal.fftconvolve(list1, list2)] in exact arithmetic: the full
    linear convolution, of length [len1 + len2 - 1]; entry [k] is the sum of
    [list1[i] * list2[j]] over [i + j = k]. *)
Fixpoint fftconvolve (list1 list2 : list R) : list R :=
  match list1, list2 with
  | [], _ | _, [] => []
  | x :: list1', _ => padd (Rmult x <$> list2) (0%R :: fftconvolve list1' list2)
  end.

Definition convolve_dictionary (dictionary1 dictionary2 : gmap Z R)
    (tail_mass_truncation : R) : result (gmap Z R) :=
  '(min1, list1) ← dictionary_to_list dictionary1;
  '(min2, list2) ← dictionary_to_list dictionary2;
  Ok (list_to_dictionary (fftconvolve list1 list2) (min1 + min2)
        tail_mass_truncation).

(** [scipy.fft.next_fast_len(target)] for a positive target: the smallest
    integer not below [target] whose prime factors are among 2, 3, 5, 7
    and 11.  [strip p m] divides [m] by [p] as long as it can. *)
Fixpoint strip (fuel : nat) (p m : Z) : Z :=
  match fuel with
  | O => m
  | S fuel' => if decide (m `mod` p = 0) then strip fuel' p (m `div` p) else m
  end.

Definition smooth11 (m : Z) : bool :=
  let f := Z.to_nat m in
  bool_decide (strip f 2 (strip f 3 (strip f 5 (strip f 7 (strip f 11 m)))) = 1).

Fixpoint next_smooth (fuel : nat) (m : Z) : Z :=
  match fuel with
  | O => m
  | S fuel' => if smooth11 m then m else next_smooth fuel' (m + 1)
  end.

Definition next_fast_len (target : Z) : Z :=
  next_smooth (Z.to_nat target) target.

(** Cyclic convolution of two lists of length [n]: the linear convolution
    with index [n + k] folded back onto index [k]. *)
Definition cyclic_convolve (n : nat) (a b : list R) : list R :=
  let c := fftconvolve a b in
  resize n 0%R (padd (take n c) (drop n c)).

(** [numpy.real(fft.ifft(fft.fft(input_list, fast_len) ** num_times))] in
    exact arithmetic.  [fft.fft(x, n)] crops or zero-pads [x] to length [n]
    before transforming; by the convolution theorem the inverse transform
    of the [num_times]-th elementwise power of the transform is the
    [num_times]-fold cyclic convolution, of period [n], of that list. *)
Fixpoint cyclic_power (n : nat) (x : list R) (num_times : nat) : list R :=
  match num_times with
  | O => resize n 0%R [1%R]
  | S O => x
  | S k => cyclic_convolve n x (cyclic_power n x k)
  end.

Definition ifft_fft_power (fast_len : nat) (input_list : list R)
    (num_times : nat) : list R :=
  cyclic_power fast_len (resize fast_len 0%R input_list) num_times.

(** [self_convolve].  [next_fast_len] rejects a negative target and
    [fft.fft] a transform length of zero, both with [ValueError]. *)
Definition self_convolve (input_list : list R) (num_times : Z)
  : result (list R) :=
  let output_len := num_times * Z.of_nat (length input_list) - 1 in
  if decide (output_len < 1) then Raise ValueError
  else
    let fast_len := next_fast_len output_len in
    Ok (take (Z.to_nat output_len)
          (ifft_fft_power (Z.to_nat fast_len) input_list (Z.to_nat num_times))).

Definition self_convolve_dictionary (input_dictionary : gmap Z R)
    (num_times : Z) : result (gmap Z R) :=
  '(min_val, input_list) ← dictionary_to_list input_dictionary;
  convolved ← self_convolve input_list num_times;
  Ok (list_to_dictionary convolved (min_val * num_times) 0).

(** ** [common.py]: the monotone function inverter *)

(** The inverter is modelled on binary64 floats, with the comparisons and
    the arithmetic of the hardware: [func] maps floats to floats, the
    bounds may be infinite. *)
Record BinarySearchParameters : Type := {
  lower_bound : float;
  upper_bound : float;
  initial_guess : option float;
  tolerance : float;
  discrete : bool
}.

(** The default [tolerance], [1e-7]: the double nearest to it. *)
Definition default_tolerance : float := 0x1.ad7f29abcaf48p-24%float.

(** The predicate [check] selected by [increasing]. *)
Definition check (increasing : bool) (func_value target_value : float)
  : bool :=
  if increasing then PrimFloat.leb func_value target_value
  else PrimFloat.ltb target_value func_value.

(** [min(a, b)] on floats: [b] when [b < a], else [a]. *)
Definition float_min (a b : float) : float :=
  if PrimFloat.ltb b a then b else a.

(** [math.floor] on a finite float, as a float.  Below [2 ^ 52] in
    magnitude, adding and subtracting [2 ^ 52] rounds to an integer, which
    is lowered by one when it lies above [x]; from [2 ^ 52] on every double
    is an integer. *)
Definition float_floor (x : float) : float :=
  let two52 := 0x1p52%float in
  if PrimFloat.ltb (PrimFloat.abs x) two52 then
    let r := if PrimFloat.ltb x 0%float
             then PrimFloat.add (PrimFloat.sub x two52) two52
             else PrimFloat.sub (PrimFloat.add x two52) two52 in
    if PrimFloat.ltb x r then PrimFloat.sub r 1%float else r
  else x.

(** [x // 2] on floats: the floor of the quotient, and [nan] when [x] is
    infinite or [nan]. *)
Definition floor_divide_2 (x : float) : float :=
  if PrimFloat.ltb (PrimFloat.abs x) PrimFloat.infinity
  then float_floor (PrimFloat.div x 2%float)
  else PrimFloat.nan.

(** The doubling loop on the initial guess; returns the final
    [(lower_x, initial_guess_x)], or [None] when [fuel] iterations were not
    enough. *)
Fixpoint guess_loop (fuel : nat) (func : float → float) (value : float)
    (increasing : bool) (upper_x lower_x initial_guess_x : float)
  : option (float * float) :=
  match fuel with
  | O => None
  | S fuel' =>
      if PrimFloat.ltb initial_guess_x upper_x
         && check increasing (func initial_guess_x) value
      then guess_loop fuel' func value increasing upper_x
             initial_guess_x (PrimFloat.mul initial_guess_x 2%float)
      else Some (lower_x, initial_guess_x)
  end.

(** [(upper_x + lower_x) // 2] or [(upper_x + lower_x) / 2]. *)
Definition mid_point (is_discrete : bool) (lower_x upper_x : float) : float :=
  if is_discrete then floor_divide_2 (PrimFloat.add upper_x lower_x)
  else PrimFloat.div (PrimFloat.add upper_x lower_x) 2%float.

(** The bisection loop; returns the final [(lower_x, upper_x)]. *)
Fixpoint bisect_loop (fuel : nat) (func : float → float) (value : float)
    (increasing is_discrete : bool) (tol lower_x upper_x : float)
  : option (float * float) :=
  match fuel with
  | O => None
  | S fuel' =>
      if PrimFloat.ltb tol (PrimFloat.sub upper_x lower_x) then
        let mid_x := mid_point is_discrete lower_x upper_x in
        if check increasing (func mid_x) value
        then bisect_loop fuel' func value increasing is_discrete tol
               mid_x upper_x
        else bisect_loop fuel' func value increasing is_discrete tol
               lower_x mid_x
      else Some (lower_x, upper_x)
  end.

(** The test made before the search: [func] exceeds [value] at the bound
    where it is smallest, unless that bound is infinite. *)
Definition bound_test (func : float → float) (value : float)
    (search_parameters : BinarySearchParameters) (increasing : bool) : bool :=
  if increasing
  then negb (PrimFloat.eqb (lower_bound search_parameters)
               PrimFloat.neg_infinity)
       && PrimFloat.ltb value (func (lower_bound search_parameters))
  else negb (PrimFloat.eqb (upper_bound search_parameters)
               PrimFloat.infinity)
       && PrimFloat.ltb value (func (upper_bound search_parameters)).

(** [inverse_monotone_function].  The outer [option] is [None] when a loop
    needs more than [fuel] iterations; the inner one is Python's
    [Optional[float]]. *)
Definition inverse_monotone_function (fuel : nat) (func : float → float)
    (value : float) (search_parameters : BinarySearchParameters)
    (increasing : bool) : option (option float) :=
  let lower_x := lower_bound search_parameters in
  let upper_x := upper_bound search_parameters in
  if bound_test func value search_parameters increasing
  then Some None
  else
    '(lower_x, upper_x) ←
      match initial_guess search_parameters with
      | None => Some (lower_x, upper_x)
      | Some initial_guess_x =>
          '(lower_x, initial_guess_x) ←
            guess_loop fuel func value increasing upper_x lower_x
              initial_guess_x;
          Some (lower_x, float_min upper_x initial_guess_x)
      end;
    let tol := if discrete search_parameters then 1%float
               else tolerance search_parameters in
    '(lower_x, upper_x) ←
      bisect_loop fuel func value increasing (discrete search_parameters)
        tol lower_x upper_x;
    Some (Some (if increasing then lower_x else upper_x)).

(** ** [common.py]: differential privacy parameters *)

Record DifferentialPrivacyParameters : Type := {
  epsilon : R;
  delta : R
}.


(** ** [privacy_loss_distribution.py] *)

Record PrivacyLossDistribution : Type := {
  rounded_probability_mass_function : gmap Z R;
  value_discretization_interval : R;
  infinity_mass : R;
  pessimistic_estimate : bool
}.

(** Floats that may be infinite: the privacy losses returned by
    [get_epsilon_for_delta], and the logarithm of a quotient that
    overflowed. *)
Inductive efloat : Type :=
  | Finite (x : R)
  | Inf.

(** Float division: [ZeroDivisionError] on a zero divisor. *)
Definition py_div (x y : R) : result R :=
  if decide (y = 0%R) then Raise ZeroDivisionError else Ok (x / y)%R.

(** [math.log]: [ValueError] outside the positive reals. *)
Definition py_log (x : R) : result R :=
  if decide (0 < x)%R then Ok (ln x) else Raise ValueError.

(** [math.log(x / y)]: the quotient is infinite when it overflows, and
    [math.log(math.inf)] is [math.inf]; it is zero when it underflows, and
    [math.log(0.0)] raises [ValueError]. *)
Definition log_quotient (x y : R) : result efloat :=
  ratio ← py_div x y;
  if decide (float_max <= ratio)%R then Ok Inf
  else eps ← py_log (underflow ratio); Ok (Finite eps).

(** [math.ceil] or [math.floor], as selected by [pessimistic_estimate]. *)
Definition round_fn (pessimistic : bool) (x : R) : Z :=
  if pessimistic then Zceil x else Zfloor x.

(** [round_fn(x / y)] on a float that may be infinite: the quotient of an
    infinite float stays infinite, and [math.ceil] and [math.floor] raise
    [OverflowError] on it. *)
Definition round_quotient (pessimistic : bool) (x : efloat) (y : R)
  : result Z :=
  match x with
  | Finite x => q ← py_div x y; Ok (round_fn pessimistic q)
  | Inf => if decide (y = 0%R) then Raise ZeroDivisionError
           else Raise OverflowError
  end.

(** [d[k] += v] on a [defaultdict(lambda: 0)]. *)
Definition add_mass (k : Z) (v : R) (d : gmap Z R) : gmap Z R :=
  <[k := (get0 d k + v)%R]> d.

Definition identity (interval : R) : PrivacyLossDistribution :=
  {| rounded_probability_mass_function := {[0 := 1%R]};
     value_discretization_interval := interval;
     infinity_mass := 0;
     pessimistic_estimate := true |}.

(** *** [from_two_probability_mass_functions] *)

(** A log-probability is a float that may be [-math.inf], which is [None]
    here; [math.exp(-math.inf)] is [0], and so is [math.exp] of a
    log-probability so low that the result underflows.  Log-probabilities
    are at most [0], where [math.exp] does not overflow. *)
Definition exp_log (l : option R) : R :=
  match l with
  | Some x => underflow (exp x)
  | None => 0%R
  end.

(** [a > b] on floats that may be [-math.inf]. *)
Definition log_gt (a b : option R) : bool :=
  match a, b with
  | Some x, Some y => bool_decide (x > y)%R
  | Some _, None => true
  | None, _ => false
  end.

(** A dictionary keyed by floats, in insertion order:
    [d[k] = d.get(k, 0) + v]. *)
Fixpoint float_dict_add (k v : R) (d : list (R * R)) : list (R * R) :=
  match d with
  | [] => [(k, v)]
  | (k', v') :: d' =>
      if decide (k' = k) then (k', (v' + v)%R) :: d'
      else (k', v') :: float_dict_add k v d'
  end.

Section two_probability_mass_functions.
Context {K : Type} `{Countable K}.

(** [d.get(outcome, -math.inf)]. *)
Definition log_get (d : gmap K (option R)) (outcome : K) : option R :=
  default None (d !! outcome).

(** First loop: outcomes of the upper distribution that the lower one
    never produces. *)
Definition infinity_mass_step (log_lower log_upper : gmap K (option R))
    (infinity_mass : R) (outcome : K) : R :=
  match log_get log_lower outcome with
  | None => (infinity_mass + exp_log (log_get log_upper outcome))%R
  | Some _ => infinity_mass
  end.

(** Second loop, on the pair [(probability_mass_function,
    infinity_mass)]. *)
Definition loss_step (log_lower log_upper : gmap K (option R))
    (pessimistic : bool) (log_mass_truncation_bound : option R)
    (st : list (R * R) * R) (outcome : K) : list (R * R) * R :=
  let '(probability_mass_function, infinity_mass) := st in
  let below_bound :=
    if pessimistic then
      (probability_mass_function,
       (infinity_mass + exp_log (log_get log_upper outcome))%R)
    else st in
  match log_get log_lower outcome with
  | None => st
  | Some lower =>
      if log_gt (log_get log_upper outcome) log_mass_truncation_bound then
        match log_get log_upper outcome with
        | Some upper =>
            let privacy_loss_value := (upper - lower)%R in
            (float_dict_add privacy_loss_value (exp_log (Some upper))
               probability_mass_function, infinity_mass)
        | None => below_bound
        end
      else below_bound
  end.

(** Third loop: rounding the losses to bucket indices. *)
Definition round_step (pessimistic : bool) (interval : R)
    (acc : result (gmap Z R)) (entry : R * R) : result (gmap Z R) :=
  rounded ← acc;
  q ← py_div entry.1 interval;
  Ok (add_mass (round_fn pessimistic q) entry.2 rounded).

Definition from_two_probability_mass_functions
    (log_probability_mass_function_lower
       log_probability_mass_function_upper : gmap K (option R))
    (pessimistic : bool) (interval : R)
    (log_mass_truncation_bound : option R)
  : result PrivacyLossDistribution :=
  let lower := log_probability_mass_function_lower in
  let upper := log_probability_mass_function_upper in
  let infinity_mass :=
    foldl (infinity_mass_step lower upper) 0%R (map_to_list upper).*1 in
  let '(probability_mass_function, infinity_mass) :=
    foldl (loss_step lower upper pessimistic log_mass_truncation_bound)
      ([], infinity_mass) (map_to_list lower).*1 in
  rounded ←
    foldl (round_step pessimistic interval) (Ok ∅)
      probability_mass_function;
  Ok {| rounded_probability_mass_function := rounded;
        value_discretization_interval := interval;
        infinity_mass := infinity_mass;
        pessimistic_estimate := pessimistic |}.
End two_probability_mass_functions.

(** *** [from_randomized_response] *)

Definition from_randomized_response (noise_parameter : R) (num_buckets : Z)
    (pessimistic : bool) (interval : R) : result PrivacyLossDistribution :=
  if decide (noise_parameter <= 0 ∨ noise_parameter >= 1)%R
  then Raise ValueError
  else if decide (num_buckets <= 1) then Raise ValueError
  else
    let probability_output_equal_input :=
      ((1 - noise_parameter)
       + underflow (noise_parameter / IZR num_buckets))%R in
    let probability_output_not_input :=
      underflow (noise_parameter / IZR num_buckets) in
    loss ← log_quotient probability_output_equal_input
             probability_output_not_input;
    rounded_value ← round_quotient pessimistic loss interval;
    let rounded := add_mass rounded_value
                     probability_output_equal_input ∅ in
    loss ← log_quotient probability_output_not_input
             probability_output_equal_input;
    rounded_value ← round_quotient pessimistic loss interval;
    let rounded := add_mass rounded_value
                     probability_output_not_input rounded in
    let rounded :=
      add_mass 0
        (probability_output_not_input * (IZR num_buckets - 2))%R rounded in
    Ok {| rounded_probability_mass_function := rounded;
          value_discretization_interval := interval;
          infinity_mass := 0;
          pessimistic_estimate := pessimistic |}.

(** *** [from_privacy_parameters] *)

(** The dictionary display evaluates the first key, the first value, the
    second key and the second value, in this order.  A mass is a quotient
    that is zero when it underflows. *)
Definition from_privacy_parameters
    (privacy_parameters : DifferentialPrivacyParameters) (interval : R)
  : result PrivacyLossDistribution :=
  let dlt := delta privacy_parameters in
  let eps := epsilon privacy_parameters in
  q_upper ← py_div eps interval;
  exp_neg ← py_exp (- eps);
  mass_upper ← py_div (1 - dlt) (1 + exp_neg);
  q_lower ← py_div (- eps) interval;
  exp_pos ← py_exp eps;
  mass_lower ← py_div (1 - dlt) (1 + exp_pos);
  Ok {| rounded_probability_mass_function :=
          <[Zceil q_lower := underflow mass_lower]>
            (<[Zceil q_upper := underflow mass_upper]> ∅);
        value_discretization_interval := interval;
        infinity_mass := dlt;
        pessimistic_estimate := true |}.

(** *** Queries *)

(** One iteration of the loop of [get_delta_for_epsilon]. *)
Definition delta_step (self : PrivacyLossDistribution) (eps : R)
    (divergence : R) (i : Z) : R :=
  let val := (IZR i * value_discretization_interval self)%R in
  let mass := get0 (rounded_probability_mass_function self) i in
  if bool_decide (val > eps)%R && bool_decide (mass > 0)%R
  then (divergence + (1 - exp (eps - val)) * mass)%R
  else divergence.

Definition get_delta_for_epsilon (self : PrivacyLossDistribution) (eps : R)
  : R :=
  foldl (delta_step self eps) (infinity_mass self)
    (keys (rounded_probability_mass_function self)).

(** [sorted(d.keys(), reverse=True)]. *)
Definition sorted_reverse (d : gmap Z R) : list Z :=
  reverse (merge_sort Z.le (keys d)).

(** How the sweep of [get_epsilon_for_delta] ends: by [return] inside the
    loop, by leaving the loop ([break] or exhaustion) with the two running
    masses, or by an exception. *)
Inductive sweep : Type :=
  | Returned (val : R)
  | Exited (mass_upper mass_lower : R)
  | Raised (e : py_error).

(** The test of the [break]; [and] is lazy, so the logarithm is only taken
    of a quotient of positive numbers. *)
Definition break_test (dlt mass_upper mass_lower val : R) : result bool :=
  if bool_decide (mass_upper > dlt)%R && bool_decide (mass_lower > 0)%R
  then
    eps ← log_quotient (mass_upper - dlt) mass_lower;
    Ok match eps with
       | Finite eps => bool_decide (eps >= val)%R
       | Inf => true
       end
  else Ok false.

Fixpoint epsilon_sweep (self : PrivacyLossDistribution) (dlt : R)
    (sorted_keys : list Z) (mass_upper mass_lower : R) : sweep :=
  match sorted_keys with
  | [] => Exited mass_upper mass_lower
  | i :: rest =>
      let val := (IZR i * value_discretization_interval self)%R in
      match break_test dlt mass_upper mass_lower val with
      | Raise e => Raised e
      | Ok true => Exited mass_upper mass_lower
      | Ok false =>
          let mass := get0 (rounded_probability_mass_function self) i in
          let mass_upper := (mass_upper + mass)%R in
          match py_exp (- val) with
          | Raise e => Raised e
          | Ok exp_val =>
              let mass_lower :=
                (mass_lower + underflow (exp_val * mass))%R in
              if bool_decide (mass_upper >= dlt)%R
                 && bool_decide (mass_lower = 0)%R
              then Returned (Rmax 0 val)
              else epsilon_sweep self dlt rest mass_upper mass_lower
          end
      end
  end.

Definition get_epsilon_for_delta (self : PrivacyLossDistribution) (dlt : R)
  : result efloat :=
  if decide (infinity_mass self > dlt)%R then Ok Inf
  else
    match epsilon_sweep self dlt
            (sorted_reverse (rounded_probability_mass_function self))
            (infinity_mass self) 0 with
    | Returned val => Ok (Finite val)
    | Exited mass_upper mass_lower =>
        if decide (mass_upper <= mass_lower + dlt)%R then Ok (Finite 0)
        else log_quotient (mass_upper - dlt) mass_lower
    | Raised e => Raise e
    end.

(** *** Composition *)

Definition compose (self other : PrivacyLossDistribution)
    (tail_mass_truncation : R) : result PrivacyLossDistribution :=
  if decide (value_discretization_interval self
             ≠ value_discretization_interval other)
  then Raise ValueError
  else if decide (pessimistic_estimate self ≠ pessimistic_estimate other)
  then Raise ValueError
  else
    new_rounded_probability_mass_function ←
      convolve_dictionary (rounded_probability_mass_function self)
        (rounded_probability_mass_function other) tail_mass_truncation;
    let new_infinity_mass :=
      (infinity_mass self + infinity_mass other
       - infinity_mass self * infinity_mass other)%R in
    let new_infinity_mass :=
      if pessimistic_estimate self
      then (new_infinity_mass + tail_mass_truncation)%R
      else new_infinity_mass in
    Ok {| rounded_probability_mass_function :=
            new_rounded_probability_mass_function;
          value_discretization_interval := value_discretization_interval self;
          infinity_mass := new_infinity_mass;
          pessimistic_estimate := pessimistic_estimate self |}.

(** The default [tail_mass_truncation] of [compose]. *)
Definition default_tail_mass_truncation : R := (/ 10 ^ 15)%R.

Definition self_compose (self : PrivacyLossDistribution) (num_times : Z)
  : result PrivacyLossDistribution :=
  new_rounded_probability_mass_function ←
    self_convolve_dictionary (rounded_probability_mass_function self)
      num_times;
  Ok {| rounded_probability_mass_function :=
          new_rounded_probability_mass_function;
        value_discretization_interval := value_discretization_interval self;
        infinity_mass :=
          (1 - (1 - infinity_mass self) ^ Z.to_nat num_times)%R;
        pessimistic_estimate := pessimistic_estimate self |}.

(** ** Specification-side definitions *)


(** The infinity mass of a composition as the specification words it:
    [m1 + m2 - m1 * m2], plus the truncation budget when pessimistic. *)
Definition composed_infinity_mass (p q : PrivacyLossDistribution) (t : R) : R :=
  let m := (infinity_mass p + infinity_mass q
            - infinity_mass p * infinity_mass q)%R in
  if pessimistic_estimate p then (m + t)%R else m.

(** A distribution whose mass function is empty: all its mass is at
    infinity. *)
Definition all_infinite : PrivacyLossDistribution :=
  {| rounded_probability_mass_function := ∅;
     value_discretization_interval := 1;
     infinity_mass := 1;
     pessimistic_estimate := true |}.

(** The invariant of the data model: every stored mass is strictly
    positive; and its weakening to nonnegative masses. *)
Definition positive_masses (d : gmap Z R) : Prop :=
  ∀ k v, d !! k = Some v → (0 < v)%R.

Definition nonnegative_masses (d : gmap Z R) : Prop :=
  ∀ k v, d !! k = Some v → (0 <= v)%R.

(** The search parameters of the repository's tests: the default
    tolerance. *)
Definition test_parameters (lower_x upper_x : float)
    (initial_guess_x : option float) (is_discrete : bool)
  : BinarySearchParameters :=
  {| lower_bound := lower_x;
     upper_bound := upper_x;
     initial_guess := initial_guess_x;
     tolerance := default_tolerance;
     discrete := is_discrete |}.

(** [assertAlmostEqual]: equal when rounded to seven decimal places, which
    a difference of at most [1e-7 / 2] ensures. *)
Definition almost_equal (expected x : float) : bool :=
  PrimFloat.leb (PrimFloat.abs (PrimFloat.sub expected x))
    (PrimFloat.div default_tolerance 2%float).

(** Two adjacent doubles just below three billion.  They are
    [2 ^ -21], about [4.77e-7], apart, and the double nearest to their
    midpoint is the upper one. *)
Definition stalled_lower : float := 0x1.65a0bbfffffffp+31%float.

Definition stalled_upper : float := 3000000000%float.

(** What the search has established about the bound it returns, for any
    [func]: the bound is the one the parameters gave, or [func] was
    evaluated there and [check] decided for that side. *)
Definition tested (func : float → float) (value : float)
    (search_parameters : BinarySearchParameters) (increasing : bool)
    (x : float) : Prop :=
  if increasing
  then x = lower_bound search_parameters
       ∨ PrimFloat.leb (func x) value = true
  else x = upper_bound search_parameters
       ∨ PrimFloat.ltb value (func x) = false.

(** The [num_times]-fold self-convolution of a list, by repeated linear
    convolution; [coef l i] is entry [i] of [l], zero beyond its end. *)
Fixpoint self_convolution (input_list : list R) (num_times : nat) : list R :=
  match num_times with
  | O => [1%R]
  | S O => input_list
  | S k => fftconvolve input_list (self_convolution input_list k)
  end.

Definition coef (l : list R) (i : nat) : R := default 0%R (l !! i).

(** Entry [i] of a linear convolution, as a sum over the index pairs
    [(j, i - j)]. *)
Definition convolution_sum (a b : list R) (i : nat) : R :=
  Rsum ((λ j, coef a j * coef b (i - j))%R <$> seq 0 (S i)).

(** ** Masses and sums used to state further properties *)

(** The total mass stored in a dictionary. *)
Definition total_mass (d : gmap Z R) : R := Rsum (map_to_list d).*2.

(** Entry [key] of the convolution of two dictionaries, as the docstring
    of [convolve_dictionary] words it: the sum, over [key1 + key2 = key], of
    [dictionary1[key1] * dictionary2[key2]]. *)
Definition convolution_entry (dictionary1 dictionary2 : gmap Z R)
    (key : Z) : R :=
  Rsum ((λ p : Z * R, p.2 * get0 dictionary2 (key - p.1))%R
        <$> map_to_list dictionary1).

(** The probability mass a distribution accounts for. *)
Definition accounted_mass (p : PrivacyLossDistribution) : R :=
  (total_mass (rounded_probability_mass_function p) + infinity_mass p)%R.

(** The privacy loss that bucket [i] stands for, and the share of that
    bucket in the hockey-stick divergence at [eps]. *)
Definition bucket_value (p : PrivacyLossDistribution) (i : Z) : R :=
  (IZR i * value_discretization_interval p)%R.

(** Every bucket value has a finite double. *)
Definition finite_values (p : PrivacyLossDistribution) : Prop :=
  ∀ i, is_Some (rounded_probability_mass_function p !! i) →
       (Rabs (bucket_value p i) < float_max)%R.


Definition hockey_term (p : PrivacyLossDistribution) (eps : R) (i : Z) : R :=
  if decide (bucket_value p i > eps)%R
  then (get0 (rounded_probability_mass_function p) i
        * (1 - exp (eps - bucket_value p i)))%R
  else 0%R.

(** The two running sums of [get_epsilon_for_delta] over the keys swept so
    far, and what the sweep maintains: at the value of every swept bucket
    the hockey-stick sum of the swept buckets is within [dlt], and
    [mass_upper] is within [dlt] as long as [mass_lower] is zero. *)
Definition upper_sum (p : PrivacyLossDistribution) (ks : list Z) : R :=
  Rsum (get0 (rounded_probability_mass_function p) <$> ks).

(** What bucket [i] adds to [mass_lower]. *)
Definition lower_term (p : PrivacyLossDistribution) (i : Z) : R :=
  underflow (underflow (exp (- bucket_value p i))
             * get0 (rounded_probability_mass_function p) i).

Definition lower_sum (p : PrivacyLossDistribution) (ks : list Z) : R :=
  Rsum (lower_term p <$> ks).

Definition swept (p : PrivacyLossDistribution) (dlt : R) (pre : list Z)
    (mass_upper mass_lower : R) : Prop :=
  mass_upper = (infinity_mass p + upper_sum p pre)%R
  ∧ mass_lower = lower_sum p pre
  ∧ (∀ a, a ∈ pre →
          (infinity_mass p
           + Rsum (hockey_term p (bucket_value p a) <$> pre) <= dlt)%R)
  ∧ (mass_lower = 0%R → (mass_upper <= dlt)%R).

(** Entry [key] of the [num_times]-fold convolution of a dictionary with
    itself, as the docstring of [self_convolve_dictionary] words it: the
    sum, over the keys adding up to [key], of the products of their
    values. *)
Fixpoint convolution_power (input_dictionary : gmap Z R) (num_times : nat)
    (key : Z) : R :=
  match num_times with
  | O => if decide (key = 0) then 1%R else 0%R
  | S k =>
      Rsum ((λ p : Z * R,
               p.2 * convolution_power input_dictionary k (key - p.1))%R
            <$> map_to_list input_dictionary)
  end.


(** A list of nonnegative entries whose first and last entries are
    positive: the shape of the dense list of a dictionary of positive
    masses. *)
Definition positive_ends (l : list R) : Prop :=
  Forall (λ y, 0 <= y)%R l
  ∧ (0 < coef l 0)%R ∧ (0 < coef l (length l - 1))%R.

(** * Properties *)

(** ** The range of doubles *)

Lemma float_tiny_pos : (0 < float_tiny)%R.
Proof. unfold float_tiny. lra. Qed.

Lemma float_tiny_lt_1 : (float_tiny < 1)%R.
Proof. unfold float_tiny. lra. Qed.

Lemma float_max_gt_1 : (1 < float_max)%R.
Proof. unfold float_max. lra. Qed.

Lemma float_tiny_normal : (float_tiny < float_normal)%R.
Proof. unfold float_tiny, float_normal. lra. Qed.

Lemma float_range : (float_tiny * float_max < 1)%R.
Proof. unfold float_tiny, float_max. lra. Qed.

Lemma underflow_bounds (x : R) : (0 <= x)%R → (0 <= underflow x <= x)%R.
Proof. intros Hx. unfold underflow. destruct (decide _); lra. Qed.

Lemma underflow_id (x : R) : (float_tiny < x)%R → underflow x = x.
Proof.
  intros Hx. pose proof float_tiny_pos. unfold underflow.
  rewrite decide_False; [done|]. rewrite Rabs_right; lra.
Qed.

Lemma underflow_zero (x : R) :
  (0 <= x)%R → underflow x = 0%R → (x <= float_tiny)%R.
Proof.
  intros Hx. pose proof float_tiny_pos. unfold underflow.
  destruct (decide _) as [Habs|]; [|lra]. rewrite Rabs_right in Habs; lra.
Qed.


Lemma py_exp_ok (x : R) :
  (float_tiny < exp x < float_max)%R → py_exp x = Ok (exp x).
Proof.
  intros [Hlo Hhi]. unfold py_exp. rewrite decide_False by lra.
  by rewrite underflow_id.
Qed.

Lemma py_exp_bounds (x e : R) : py_exp x = Ok e → (0 <= e <= exp x)%R.
Proof.
  unfold py_exp. destruct (decide _); [done|]. intros [= <-].
  apply underflow_bounds. left. apply exp_pos.
Qed.

(** Where [exp eps] has a finite double, [exp (- eps)] does not
    underflow. *)
Lemma exp_opp_range (eps : R) :
  (exp eps < float_max)%R → (float_tiny < exp (- eps))%R.
Proof.
  intros Hmax. pose proof (exp_pos eps) as Hpos.
  pose proof float_range as Hrange. pose proof float_tiny_pos as Htiny.
  rewrite exp_Ropp.
  apply (Rmult_lt_reg_r (exp eps)); [done|]. rewrite Rinv_l by lra. nra.
Qed.

(** The logarithm of a quotient above one is infinite or nonnegative. *)
Lemma log_quotient_above_1 (x y : R) :
  (0 < y)%R → (y < x)%R →
  (1 < x / y)%R
  ∧ (log_quotient x y = Ok Inf ∧ (float_max <= x / y)%R
     ∨ log_quotient x y = Ok (Finite (ln (x / y))) ∧ (0 < ln (x / y))%R).
Proof.
  intros Hy Hxy.
  assert (1 < x / y)%R as Hratio.
  { assert (0 < (x - y) / y)%R by (apply Rdiv_lt_0_compat; lra).
    replace (x / y)%R with (1 + (x - y) / y)%R by (field; lra). lra. }
  split; [done|]. unfold log_quotient, py_div.
  rewrite decide_False by lra. cbn.
  destruct (decide (float_max <= x / y)%R) as [Hinf|Hfin]; [by left|].
  right. pose proof float_tiny_lt_1.
  rewrite underflow_id by lra. unfold py_log. rewrite decide_True by lra.
  split; [done|]. rewrite <- ln_1. apply ln_increasing; lra.
Qed.

(** Case analysis on the float comparisons met when a loop is run on
    concrete numbers. *)
Ltac float_cases :=
  repeat match goal with
    | |- context [decide ?P] => destruct (decide P); try lra; try lia
    | |- context [bool_decide ?P] =>
        destruct (bool_decide_reflect P); try lra; try lia
    end.

(** ** Sums of lists *)

Lemma Rsum_app (l1 l2 : list R) : Rsum (l1 ++ l2) = (Rsum l1 + Rsum l2)%R.
Proof. induction l1 as [|x l1 IH]; simpl; [lra | rewrite IH; lra]. Qed.

Lemma Rsum_reverse (l : list R) : Rsum (reverse l) = Rsum l.
Proof.
  induction l as [|x l IH]; [done|].
  rewrite reverse_cons, Rsum_app, IH. simpl. lra.
Qed.

Lemma Rsum_nonneg (l : list R) : Forall (λ x, 0 <= x)%R l → (0 <= Rsum l)%R.
Proof. induction 1; simpl; lra. Qed.

(** ** The truncation loops of [list_to_dictionary] *)

(** The first loop consumes [n] entries whose running mass stays within
    [half]; the entry it stops at, if any, takes the mass beyond [half]. *)
Lemma lower_truncation_loop_spec (half : R) (rest : list R) (idx : Z) (m : R) :
  (m <= half)%R →
  ∃ n : nat,
    lower_truncation_loop half rest idx m = idx + Z.of_nat n
    ∧ (n ≤ length rest)%nat
    ∧ (m + Rsum (take n rest) <= half)%R
    ∧ ((n < length rest)%nat → (m + Rsum (take (S n) rest) > half)%R).
Proof.
  revert idx m. induction rest as [|x rest IH]; intros idx m Hm; simpl.
  - exists 0%nat. simpl. repeat split; [lia | lia | lra | lia].
  - destruct (decide (m + x > half)%R) as [Hgt|Hle].
    + exists 0%nat. simpl. repeat split; [lia | lia | lra | intros _; lra].
    + destruct (IH (idx + 1) (m + x)%R) as (n & Hn & Hlen & Hsum & Hnext);
        [lra|].
      exists (S n). rewrite Hn. repeat split; [lia | lia | simpl; lra |].
      intros Hlt. simpl in *. specialize (Hnext ltac:(lia)). lra.
Qed.

Lemma upper_truncation_loop_spec (half : R) (rest : list R) (idx : Z) (m : R) :
  (m <= half)%R →
  ∃ n : nat,
    upper_truncation_loop half rest idx m = idx - Z.of_nat n
    ∧ (n ≤ length rest)%nat
    ∧ (m + Rsum (take n rest) <= half)%R
    ∧ ((n < length rest)%nat → (m + Rsum (take (S n) rest) > half)%R).
Proof.
  revert idx m. induction rest as [|x rest IH]; intros idx m Hm; simpl.
  - exists 0%nat. simpl. repeat split; [lia | lia | lra | lia].
  - destruct (decide (m + x > half)%R) as [Hgt|Hle].
    + exists 0%nat. simpl. repeat split; [lia | lia | lra | intros _; lra].
    + destruct (IH (idx - 1) (m + x)%R) as (n & Hn & Hlen & Hsum & Hnext);
        [lra|].
      exists (S n). rewrite Hn. repeat split; [lia | lia | simpl; lra |].
      intros Hlt. simpl in *. specialize (Hnext ltac:(lia)). lra.
Qed.

Lemma lower_truncation_index_spec (l : list R) (t : R) :
  (0 <= t)%R →
  let lo := lower_truncation_index l t in
  0 ≤ lo ≤ Z.of_nat (length l)
  ∧ (Rsum (take (Z.to_nat lo) l) <= t / 2)%R
  ∧ (lo < Z.of_nat (length l) → (Rsum (take (Z.to_nat lo + 1) l) > t / 2)%R).
Proof.
  intros Ht lo. subst lo. unfold lower_truncation_index.
  destruct (lower_truncation_loop_spec (t / 2) l 0 0%R) as (n & -> & Hn & Hs & Hx);
    [lra|].
  rewrite Z.add_0_l, Nat2Z.id. repeat split; [lia | lia | lra |].
  intros Hlt. replace (n + 1)%nat with (S n) by lia.
  specialize (Hx ltac:(lia)). lra.
Qed.

Lemma upper_truncation_index_spec (l : list R) (t : R) :
  (0 <= t)%R →
  let hi := upper_truncation_index l t in
  -1 ≤ hi ≤ Z.of_nat (length l) - 1
  ∧ (Rsum (drop (Z.to_nat (hi + 1)) l) <= t / 2)%R
  ∧ (0 ≤ hi → (Rsum (drop (Z.to_nat hi) l) > t / 2)%R).
Proof.
  intros Ht hi. subst hi. unfold upper_truncation_index.
  destruct (upper_truncation_loop_spec (t / 2) (reverse l)
              (Z.of_nat (length l) - 1) 0%R) as (n & -> & Hn & Hs & Hx); [lra|].
  rewrite length_reverse in Hn, Hx.
  rewrite !take_reverse, !Rsum_reverse in *.
  repeat split; [lia | lia | |].
  - replace (Z.to_nat (Z.of_nat (length l) - 1 - Z.of_nat n + 1))
      with (length l - n)%nat by lia. lra.
  - intros Hhi. specialize (Hx ltac:(lia)).
    replace (Z.to_nat (Z.of_nat (length l) - 1 - Z.of_nat n))
      with (length l - S n)%nat by lia. lra.
Qed.

(** The indices read by the third loop exist in the list. *)
Lemma truncation_indices_in_range (l : list R) (t : R) (i : Z) :
  (0 <= t)%R →
  lower_truncation_index l t ≤ i ≤ upper_truncation_index l t →
  is_Some (l !! Z.to_nat i).
Proof.
  intros Ht Hi.
  destruct (lower_truncation_index_spec l t Ht) as ([? ?] & _).
  destruct (upper_truncation_index_spec l t Ht) as ([? ?] & _).
  apply lookup_lt_is_Some. lia.
Qed.

(** The third loop: what it leaves at each key. *)
Lemma foldl_retain_lookup (l : list R) (offset : Z) (indices : list Z)
    (d : gmap Z R) (k : Z) :
  foldl (retain l offset) d indices !! k =
    if decide (k - offset ∈ indices ∧ (item l (k - offset) > 0)%R)
    then Some (item l (k - offset)) else d !! k.
Proof.
  revert d. induction indices as [|i indices IH]; intros d; cbn [foldl].
  - rewrite decide_False; [done|]. intros [Hd _]. by apply elem_of_nil in Hd.
  - rewrite IH. unfold retain.
    destruct (decide (k - offset ∈ indices ∧ (item l (k - offset) > 0)%R))
      as [[Hin Hpos]|Hnot].
    + rewrite decide_True; [done|]. split; [by right | done].
    + destruct (decide (i = k - offset)) as [->|Hne].
      * destruct (decide (item l (k - offset) > 0)%R) as [Hpos|Hnpos].
        -- rewrite decide_True by (split; [by left | done]).
           replace (k - offset + offset) with k by lia.
           by rewrite lookup_insert_eq.
        -- rewrite decide_False; [done|]. intros [_ ?]. done.
      * rewrite (decide_False (P := _ ∈ i :: indices ∧ _)).
        2:{ intros [Hin Hpos]. apply elem_of_cons in Hin as [?|?]; [done|].
            apply Hnot. done. }
        case_decide; [|done]. rewrite lookup_insert_ne; [done | lia].
Qed.

Lemma list_to_dictionary_lookup (l : list R) (offset : Z) (t : R) (k : Z) :
  list_to_dictionary l offset t !! k =
    if decide ((lower_truncation_index l t ≤ k - offset
                ≤ upper_truncation_index l t)
               ∧ (item l (k - offset) > 0)%R)
    then Some (item l (k - offset)) else None.
Proof.
  unfold list_to_dictionary. rewrite foldl_retain_lookup, lookup_empty.
  apply decide_ext. rewrite elem_of_seqZ. intuition lia.
Qed.

Lemma list_to_dictionary_example :
  list_to_dictionary [0.2; 0.5; 0.3]%R 1 0.6%R = {[2 := 0.5%R]}.
Proof.
  unfold list_to_dictionary.
  assert (lower_truncation_index [0.2; 0.5; 0.3]%R 0.6%R = 1) as ->.
  { unfold lower_truncation_index. cbn [lower_truncation_loop]. float_cases. }
  assert (upper_truncation_index [0.2; 0.5; 0.3]%R 0.6%R = 1) as ->.
  { unfold upper_truncation_index.
    change (reverse [0.2; 0.5; 0.3]%R) with [0.3; 0.5; 0.2]%R.
    cbn [upper_truncation_loop length]. float_cases. }
  change (seqZ 1 (1 + 1 - 1)) with [1]. cbn [foldl].
  unfold retain, item. change (Z.to_nat 1) with 1%nat. cbn [lookup list_lookup].
  cbv [default from_option Datatypes.id]. float_cases. by rewrite insert_empty.
Qed.

(** C7: for nonnegative masses and a truncation budget [t >= 0],
    [list_to_dictionary] keeps exactly the positive entries between its two
    truncation indices; the entries below the lower index have total mass at
    most [t / 2], and so have the entries above the upper index.  On
    [[0.2; 0.5; 0.3]] with offset [1] and truncation [0.6] the result is
    [{2: 0.5}]. *)
Theorem list_to_dictionary_truncation (input_list : list R) (offset : Z)
    (tail_mass_truncation : R) :
  Forall (λ x, 0 <= x)%R input_list →
  (0 <= tail_mass_truncation)%R →
  let lower := lower_truncation_index input_list tail_mass_truncation in
  let upper := upper_truncation_index input_list tail_mass_truncation in
  (0 ≤ lower ≤ Z.of_nat (length input_list)
   ∧ -1 ≤ upper ≤ Z.of_nat (length input_list) - 1)
  ∧ (0 <= Rsum (take (Z.to_nat lower) input_list)
       <= tail_mass_truncation / 2)%R
  ∧ (0 <= Rsum (drop (Z.to_nat (upper + 1)) input_list)
       <= tail_mass_truncation / 2)%R
  ∧ (∀ i : Z,
       list_to_dictionary input_list offset tail_mass_truncation
         !! (i + offset) =
       if decide (lower ≤ i ≤ upper ∧ (item input_list i > 0)%R)
       then Some (item input_list i) else None)
  ∧ list_to_dictionary [0.2; 0.5; 0.3]%R 1 0.6%R = {[2 := 0.5%R]}.
Proof.
  intros Hnonneg Ht lower upper.
  destruct (lower_truncation_index_spec input_list _ Ht) as (Hlo & Hlow & _).
  destruct (upper_truncation_index_spec input_list _ Ht) as (Hhi & Hhigh & _).
  split; [done|]. split; [|split; [|split]].
  - split; [|done]. apply Rsum_nonneg, Forall_take, Hnonneg.
  - split; [|done]. apply Rsum_nonneg, Forall_drop, Hnonneg.
  - intros i. rewrite list_to_dictionary_lookup.
    replace (i + offset - offset) with i by lia. done.
  - apply list_to_dictionary_example.
Qed.

Lemma list_to_dictionary_truncation_witness :
  Forall (λ x, 0 <= x)%R [0.4; 0.5; 0.1]%R
  ∧ (0 <= 0.3)%R
  ∧ (0 <= Rsum (take (Z.to_nat (lower_truncation_index [0.4; 0.5; 0.1]%R 0.3%R))
            [0.4; 0.5; 0.1]%R) <= 0.3 / 2)%R
  ∧ (0 <= Rsum (drop (Z.to_nat (upper_truncation_index [0.4; 0.5; 0.1]%R 0.3%R + 1))
            [0.4; 0.5; 0.1]%R) <= 0.3 / 2)%R.
Proof.
  assert (Forall (λ x, 0 <= x)%R [0.4; 0.5; 0.1]%R) as Hnonneg
    by (repeat constructor; lra).
  assert (0 <= 0.3)%R as Ht by lra.
  pose proof (list_to_dictionary_truncation [0.4; 0.5; 0.1]%R 1 0.3%R
                Hnonneg Ht) as (_ & Hlow & Hhigh & _).
  repeat split; solve [exact Hnonneg | lra | apply Hlow | apply Hhigh].
Defined.

(** ** Smallest and largest key *)

Lemma elem_of_keys (d : gmap Z R) (k : Z) : k ∈ keys d ↔ is_Some (d !! k).
Proof.
  unfold keys. rewrite list_elem_of_fmap. split.
  - intros ([k' v] & -> & Hin). apply elem_of_map_to_list in Hin. by exists v.
  - intros [v Hv]. exists (k, v). split; [done|]. by apply elem_of_map_to_list.
Qed.

Lemma keys_nil (d : gmap Z R) : keys d = [] ↔ d = ∅.
Proof.
  unfold keys. rewrite <- map_to_list_empty_iff.
  destruct (map_to_list d); simpl; split; congruence.
Qed.

Lemma foldl_min_spec (k : Z) (ks : list Z) :
  foldl Z.min k ks ∈ k :: ks ∧ ∀ x, x ∈ k :: ks → foldl Z.min k ks ≤ x.
Proof.
  revert k. induction ks as [|y ks IH]; intros k; cbn [foldl].
  - split; [by left|]. intros x Hx. apply list_elem_of_singleton in Hx. lia.
  - destruct (IH (Z.min k y)) as [Hin Hle]. split.
    + apply elem_of_cons in Hin as [Heq|Hin].
      * rewrite Heq. destruct (Z.min_spec k y) as [[_ ->]|[_ ->]];
          [by left | right; by left].
      * right; by right.
    + intros x Hx. apply elem_of_cons in Hx as [->|Hx].
      * specialize (Hle (Z.min k y) ltac:(by left)). lia.
      * apply elem_of_cons in Hx as [->|Hx].
        -- specialize (Hle (Z.min k y) ltac:(by left)). lia.
        -- apply Hle. by right.
Qed.

Lemma foldl_max_spec (k : Z) (ks : list Z) :
  foldl Z.max k ks ∈ k :: ks ∧ ∀ x, x ∈ k :: ks → x ≤ foldl Z.max k ks.
Proof.
  revert k. induction ks as [|y ks IH]; intros k; cbn [foldl].
  - split; [by left|]. intros x Hx. apply list_elem_of_singleton in Hx. lia.
  - destruct (IH (Z.max k y)) as [Hin Hle]. split.
    + apply elem_of_cons in Hin as [Heq|Hin].
      * rewrite Heq. destruct (Z.max_spec k y) as [[_ ->]|[_ ->]];
          [right; by left | by left].
      * right; by right.
    + intros x Hx. apply elem_of_cons in Hx as [->|Hx].
      * specialize (Hle (Z.max k y) ltac:(by left)). lia.
      * apply elem_of_cons in Hx as [->|Hx].
        -- specialize (Hle (Z.max k y) ltac:(by left)). lia.
        -- apply Hle. by right.
Qed.

Lemma py_min_empty : py_min ∅ = Raise ValueError.
Proof. unfold py_min. by rewrite (proj2 (keys_nil ∅)). Qed.

Lemma py_min_spec (d : gmap Z R) :
  d ≠ ∅ →
  ∃ lo, py_min d = Ok lo ∧ is_Some (d !! lo)
        ∧ ∀ k, is_Some (d !! k) → lo ≤ k.
Proof.
  intros Hne. unfold py_min.
  destruct (keys d) as [|k ks] eqn:Hk; [by apply keys_nil in Hk|].
  destruct (foldl_min_spec k ks) as [Hin Hle].
  exists (foldl Z.min k ks). rewrite <- Hk in Hin, Hle.
  split; [done|]. split; [by apply elem_of_keys|].
  intros x Hx. by apply Hle, elem_of_keys.
Qed.

Lemma py_max_spec (d : gmap Z R) :
  d ≠ ∅ →
  ∃ hi, py_max d = Ok hi ∧ is_Some (d !! hi)
        ∧ ∀ k, is_Some (d !! k) → k ≤ hi.
Proof.
  intros Hne. unfold py_max.
  destruct (keys d) as [|k ks] eqn:Hk; [by apply keys_nil in Hk|].
  destruct (foldl_max_spec k ks) as [Hin Hle].
  exists (foldl Z.max k ks). rewrite <- Hk in Hin, Hle.
  split; [done|]. split; [by apply elem_of_keys|].
  intros x Hx. by apply Hle, elem_of_keys.
Qed.

Lemma dictionary_to_list_empty : dictionary_to_list ∅ = Raise ValueError.
Proof. unfold dictionary_to_list. by rewrite py_min_empty. Qed.

(** On a nonempty dictionary [dictionary_to_list] returns the smallest key
    and the dense list up to the largest key. *)
Lemma dictionary_to_list_spec (d : gmap Z R) :
  d ≠ ∅ →
  ∃ lo hi,
    py_min d = Ok lo ∧ py_max d = Ok hi ∧ lo ≤ hi
    ∧ is_Some (d !! lo) ∧ is_Some (d !! hi)
    ∧ (∀ k, is_Some (d !! k) → lo ≤ k ≤ hi)
    ∧ dictionary_to_list d
      = Ok (lo, get0 d <$> seqZ lo (hi + 1 - lo)).
Proof.
  intros Hne.
  destruct (py_min_spec d Hne) as (lo & Hlo & Hlo_in & Hlo_le).
  destruct (py_max_spec d Hne) as (hi & Hhi & Hhi_in & Hhi_le).
  exists lo, hi. unfold dictionary_to_list. rewrite Hlo, Hhi.
  repeat split; try done; auto.
Qed.

(** ** Unpacking a list whose end entries exceed half the budget *)

Lemma lower_truncation_index_head (x : R) (l : list R) (t : R) :
  (x > t / 2)%R → lower_truncation_index (x :: l) t = 0.
Proof.
  intros Hx. unfold lower_truncation_index. cbn [lower_truncation_loop].
  rewrite decide_True; [done | lra].
Qed.

Lemma upper_truncation_index_last (l : list R) (y : R) (t : R) :
  (y > t / 2)%R → upper_truncation_index (l ++ [y]) t = Z.of_nat (length l).
Proof.
  intros Hy. unfold upper_truncation_index.
  rewrite reverse_snoc, length_app. cbn [upper_truncation_loop length].
  rewrite decide_True; [lia | lra].
Qed.

Lemma item_dense (d : gmap Z R) (lo n i : Z) :
  0 ≤ i < n → item (get0 d <$> seqZ lo n) i = get0 d (lo + i).
Proof.
  intros Hi. unfold item.
  rewrite list_lookup_fmap, lookup_seqZ_lt by lia. simpl. f_equal. lia.
Qed.

(** Unpacking the dense list of a dictionary of positive masses gives the
    dictionary back, as long as neither end mass fits in half the budget. *)
Lemma unpack_dense (d : gmap Z R) (lo hi : Z) (t : R) :
  lo ≤ hi →
  (∀ k, is_Some (d !! k) → lo ≤ k ≤ hi) →
  (∀ k v, d !! k = Some v → (0 < v)%R) →
  (get0 d lo > t / 2)%R → (get0 d hi > t / 2)%R →
  list_to_dictionary (get0 d <$> seqZ lo (hi + 1 - lo)) lo t = d.
Proof.
  intros Hle Hdom Hpos Hlo Hhi.
  set (l := get0 d <$> seqZ lo (hi + 1 - lo)).
  assert (lower_truncation_index l t = 0) as Hlower.
  { subst l. rewrite seqZ_cons by lia. rewrite fmap_cons.
    by apply lower_truncation_index_head. }
  assert (upper_truncation_index l t = hi - lo) as Hupper.
  { subst l. replace (hi + 1 - lo) with (Z.of_nat (S (Z.to_nat (hi - lo)))) by lia.
    rewrite seqZ_S, fmap_app. cbn [fmap list_fmap].
    rewrite upper_truncation_index_last.
    - rewrite length_fmap, length_seqZ. lia.
    - replace (lo + Z.of_nat (Z.to_nat (hi - lo))) with hi by lia. done. }
  apply map_eq. intros k.
  rewrite list_to_dictionary_lookup, Hlower, Hupper.
  destruct (decide (0 ≤ k - lo ≤ hi - lo)) as [Hin|Hout].
  - assert (item l (k - lo) = get0 d k) as Hitem.
    { subst l. rewrite item_dense by lia. f_equal. lia. }
    rewrite Hitem. unfold get0. destruct (d !! k) as [v|] eqn:Hk; simpl.
    + rewrite decide_True; [done|]. split; [done|]. apply Hpos in Hk. lra.
    + rewrite decide_False; [done|]. intros [_ ?]. lra.
  - rewrite decide_False by (intros [? _]; done).
    destruct (d !! k) as [v|] eqn:Hk; [|done].
    specialize (Hdom k ltac:(by eexists)). lia.
Qed.

(** C9: packing a nonempty dictionary of strictly positive masses with
    [dictionary_to_list] and unpacking the result with [list_to_dictionary]
    at [tail_mass_truncation = 0] gives the dictionary back. *)
Theorem codec_round_trip (d : gmap Z R) :
  d ≠ ∅ →
  (∀ k v, d !! k = Some v → (0 < v)%R) →
  ∃ offset result_list,
    dictionary_to_list d = Ok (offset, result_list)
    ∧ list_to_dictionary result_list offset 0 = d.
Proof.
  intros Hne Hpos.
  destruct (dictionary_to_list_spec d Hne)
    as (lo & hi & _ & _ & Hle & [vlo Hlo] & [vhi Hhi] & Hdom & Hpack).
  exists lo, (get0 d <$> seqZ lo (hi + 1 - lo)). split; [done|].
  apply unpack_dense; try done.
  - unfold get0. rewrite Hlo. simpl. apply Hpos in Hlo. lra.
  - unfold get0. rewrite Hhi. simpl. apply Hpos in Hhi. lra.
Qed.

Lemma codec_round_trip_witness :
  ({[1 := 2%R; 3 := 4%R]} : gmap Z R) ≠ ∅
  ∧ (∀ k v, ({[1 := 2%R; 3 := 4%R]} : gmap Z R) !! k = Some v → (0 < v)%R)
  ∧ ∃ offset result_list,
      dictionary_to_list {[1 := 2%R; 3 := 4%R]} = Ok (offset, result_list)
      ∧ list_to_dictionary result_list offset 0 = {[1 := 2%R; 3 := 4%R]}.
Proof.
  assert (({[1 := 2%R; 3 := 4%R]} : gmap Z R) ≠ ∅) as Hne.
  { apply insert_non_empty. }
  assert (∀ k v, ({[1 := 2%R; 3 := 4%R]} : gmap Z R) !! k = Some v
                 → (0 < v)%R) as Hpos.
  { intros k v Hk. apply lookup_insert_Some in Hk as [[_ <-]|[_ Hk]]; [lra|].
    apply lookup_singleton_Some in Hk as [_ <-]. lra. }
  split; [exact Hne|]. split; [exact Hpos|].
  exact (codec_round_trip _ Hne Hpos).
Defined.

(** ** [get_delta_for_epsilon] *)




Lemma identity_masses_nonneg (interval : R) (i : Z) (m : R) :
  rounded_probability_mass_function (identity interval) !! i = Some m →
  (0 <= m)%R.
Proof.
  simpl. intros Hi. apply lookup_singleton_Some in Hi as [_ <-]. lra.
Qed.


(** ** [get_epsilon_for_delta] *)

Lemma get0_nonneg (d : gmap Z R) (i : Z) :
  (∀ k m, d !! k = Some m → (0 <= m)%R) → (0 <= get0 d i)%R.
Proof.
  intros Hd. unfold get0. destruct (d !! i) as [m|] eqn:Hi; simpl;
    [by eapply Hd | lra].
Qed.

(** The exceptions of the [break] test: its division never fails. *)
Lemma break_test_raises (dlt mass_upper mass_lower val : R) (e : py_error) :
  break_test dlt mass_upper mass_lower val = Raise e → e = ValueError.
Proof.
  unfold break_test.
  destruct (bool_decide_reflect (mass_upper > dlt)%R); cbn [andb]; [|done].
  destruct (bool_decide_reflect (mass_lower > 0)%R); [|done].
  unfold log_quotient, py_div. rewrite decide_False by lra. cbn.
  destruct (decide (float_max <= _)%R); [done|].
  unfold py_log. destruct (decide (0 < _)%R); [done|]. cbn. congruence.
Qed.

(** Invariant of the sweep: [mass_lower] is nonnegative, and as long as it
    is zero [mass_upper] has not exceeded [dlt]. *)
Lemma epsilon_sweep_spec (self : PrivacyLossDistribution) (dlt : R)
    (sorted_keys : list Z) (mass_upper mass_lower : R) :
  (∀ k m, rounded_probability_mass_function self !! k = Some m → (0 <= m)%R) →
  (0 <= mass_lower)%R →
  (mass_lower = 0%R → (mass_upper <= dlt)%R) →
  match epsilon_sweep self dlt sorted_keys mass_upper mass_lower with
  | Returned val => (0 <= val)%R
  | Exited mass_upper' mass_lower' =>
      (0 <= mass_lower')%R ∧ (mass_lower' = 0%R → (mass_upper' <= dlt)%R)
  | Raised e => e = ValueError ∨ e = OverflowError
  end.
Proof.
  intros Hmass. revert mass_upper mass_lower.
  induction sorted_keys as [|i rest IH]; intros mu ml Hml Hinv;
    cbn [epsilon_sweep]; [done|].
  set (val := (IZR i * value_discretization_interval self)%R).
  destruct (break_test dlt mu ml val) as [[|]|e] eqn:Htest;
    [done| |left; by eapply break_test_raises].
  set (m := get0 (rounded_probability_mass_function self) i).
  assert (0 <= m)%R as Hm by (by apply get0_nonneg).
  destruct (py_exp (- val)) as [exp_val|e] eqn:Hexp.
  2:{ right. unfold py_exp in Hexp. destruct (decide _); congruence. }
  apply py_exp_bounds in Hexp as [Hexp _].
  pose proof (underflow_bounds (exp_val * m) (Rmult_le_pos _ _ Hexp Hm))
    as [Hterm _].
  destruct (bool_decide_reflect (mu + m >= dlt)%R) as [Hge|Hlt]; cbn [andb].
  - destruct (bool_decide_reflect (ml + underflow (exp_val * m) = 0)%R)
      as [Hz|Hnz].
    + apply Rmax_l.
    + apply IH; [lra | intros Hz; done].
  - apply IH; [lra | intros _; lra].
Qed.

Lemma exp_INR (n : nat) : exp (INR n) = (exp 1 ^ n)%R.
Proof.
  induction n as [|n IH]; [cbn [INR pow]; apply exp_0|].
  rewrite S_INR, exp_plus, IH. cbn [pow]. ring.
Qed.

(** [math.exp(1100)] has no finite double. *)
Lemma exp_1100_overflows : (float_max <= exp 1100)%R.
Proof.
  assert (2 <= exp 1)%R as H2 by (pose proof (exp_ineq1 1); lra).
  change 1100%R with (IZR (Z.of_nat 1100)).
  rewrite <- INR_IZR_INZ, exp_INR.
  apply Rle_trans with (2 ^ 1100)%R; [unfold float_max; lra|].
  apply pow_incr. lra.
Qed.

(** A distribution with a bucket at the privacy loss [-1100]: it meets
    every hypothesis of C10, and [get_epsilon_for_delta] raises
    [OverflowError] on it, from [math.exp(1100)]. *)
Lemma get_epsilon_for_delta_counterexample :
  let p := {| rounded_probability_mass_function := {[(-1100) := 1%R]};
              value_discretization_interval := 1;
              infinity_mass := 0;
              pessimistic_estimate := true |} in
  (∀ i m, rounded_probability_mass_function p !! i = Some m → (0 <= m)%R)
  ∧ (0 <= infinity_mass p)%R
  ∧ (0 <= 0.5 <= 1)%R
  ∧ finite_values p
  ∧ get_epsilon_for_delta p 0.5 = Raise OverflowError.
Proof.
  intros p. split.
  { intros i m Hi. simpl in Hi. apply lookup_singleton_Some in Hi as [_ <-].
    lra. }
  split; [simpl; lra|]. split; [lra|]. split.
  { intros i [m Hi]. simpl in Hi.
    apply lookup_singleton_Some in Hi as [<- _].
    unfold bucket_value. simpl value_discretization_interval.
    rewrite Rmult_1_r, Rabs_left by lra. unfold float_max. lra. }
  unfold get_epsilon_for_delta. rewrite decide_False by (simpl; lra).
  unfold sorted_reverse, keys. simpl rounded_probability_mass_function.
  rewrite map_to_list_singleton.
  change (reverse (merge_sort Z.le [(-1100, 1%R)].*1)) with [-1100].
  cbn [epsilon_sweep]. unfold break_test.
  rewrite (bool_decide_eq_false_2 (infinity_mass p > 0.5)%R) by (simpl; lra).
  cbn [andb]. simpl value_discretization_interval.
  replace (- (-1100 * 1))%R with 1100%R by lra.
  unfold py_exp. rewrite decide_True by apply exp_1100_overflows. done.
Qed.

(** C10 (amended): when the stored masses and [infinity_mass] are
    nonnegative, [dlt] lies in [[0, 1]] and every bucket value has a finite
    double, [get_epsilon_for_delta dlt] never returns a negative value: a
    result is positive infinity or a nonnegative real.  It may raise
    instead, [OverflowError] from [math.exp] or [ValueError] from the
    logarithm of a quotient that underflowed, but its divisions never
    fail. *)
Theorem get_epsilon_for_delta_nonneg (self : PrivacyLossDistribution)
    (dlt : R) :
  (∀ i m, rounded_probability_mass_function self !! i = Some m → (0 <= m)%R) →
  (0 <= infinity_mass self)%R →
  (0 <= dlt <= 1)%R →
  finite_values self →
  match get_epsilon_for_delta self dlt with
  | Ok (Finite eps) => (0 <= eps)%R
  | Ok Inf => True
  | Raise e => e = ValueError ∨ e = OverflowError
  end.
Proof.
  intros Hmass Hinf Hdlt _. unfold get_epsilon_for_delta.
  destruct (decide (infinity_mass self > dlt)%R) as [Hgt|Hle]; [done|].
  pose proof (epsilon_sweep_spec self dlt
                (sorted_reverse (rounded_probability_mass_function self))
                (infinity_mass self) 0 Hmass ltac:(lra) ltac:(intros _; lra))
    as Hsweep.
  destruct (epsilon_sweep _ _ _ _ _) as [val|mu ml|e]; [done| |done].
  destruct Hsweep as [Hml Hinv].
  destruct (decide (mu <= ml + dlt)%R) as [Hzero|Hpos]; [lra|].
  assert (0 < ml)%R as Hml_pos.
  { destruct (decide (ml = 0%R)) as [Hz|Hnz]; [|lra].
    specialize (Hinv Hz). lra. }
  destruct (log_quotient_above_1 (mu - dlt) ml Hml_pos ltac:(lra))
    as (_ & [[-> _]|[-> Hln]]); [done | lra].
Qed.

Lemma identity_finite_values (interval : R) : finite_values (identity interval).
Proof.
  intros i [m Hi]. simpl in Hi. apply lookup_singleton_Some in Hi as [<- _].
  unfold bucket_value. rewrite Rmult_0_l, Rabs_R0.
  pose proof float_max_gt_1. lra.
Qed.

Lemma get_epsilon_for_delta_nonneg_witness :
  (∀ i m, rounded_probability_mass_function (identity 1) !! i = Some m
          → (0 <= m)%R)
  ∧ (0 <= infinity_mass (identity 1))%R
  ∧ (0 <= 0.5 <= 1)%R
  ∧ finite_values (identity 1)
  ∧ match get_epsilon_for_delta (identity 1) 0.5 with
    | Ok (Finite eps) => (0 <= eps)%R
    | Ok Inf => True
    | Raise e => e = ValueError ∨ e = OverflowError
    end.
Proof.
  assert (0 <= infinity_mass (identity 1))%R as Hinf by (simpl; lra).
  assert (0 <= 0.5 <= 1)%R as Hdlt by lra.
  split; [exact (identity_masses_nonneg 1)|].
  split; [exact Hinf|]. split; [exact Hdlt|].
  split; [exact (identity_finite_values 1)|].
  exact (get_epsilon_for_delta_nonneg (identity 1) 0.5
           (identity_masses_nonneg 1) Hinf Hdlt (identity_finite_values 1)).
Defined.

(** ** Composition *)

Lemma dictionary_to_list_singleton (k : Z) (v : R) :
  dictionary_to_list {[k := v]} = Ok (k, [v]).
Proof.
  unfold dictionary_to_list, py_min, py_max, keys.
  rewrite map_to_list_singleton. cbn.
  replace (k + 1 - k) with 1 by lia. cbn.
  rewrite seqZ_cons, seqZ_nil by lia. cbn [fmap list_fmap].
  unfold get0. by rewrite lookup_singleton_eq.
Qed.

Lemma fftconvolve_one (l : list R) : fftconvolve l [1%R] = l.
Proof.
  induction l as [|x l IH]; [done|].
  cbn [fftconvolve fmap list_fmap padd]. rewrite IH.
  f_equal. lra.
Qed.

Lemma convolve_dictionary_ok (d1 d2 : gmap Z R) (t : R) :
  d1 ≠ ∅ → d2 ≠ ∅ → ∃ d, convolve_dictionary d1 d2 t = Ok d.
Proof.
  intros H1 H2. unfold convolve_dictionary.
  destruct (dictionary_to_list_spec d1 H1) as (lo1 & hi1 & _ & _ & _ & _ & _ & _ & ->).
  destruct (dictionary_to_list_spec d2 H2) as (lo2 & hi2 & _ & _ & _ & _ & _ & _ & ->).
  cbn. eauto.
Qed.

Lemma convolve_dictionary_empty_l (d2 : gmap Z R) (t : R) :
  convolve_dictionary ∅ d2 t = Raise ValueError.
Proof. unfold convolve_dictionary. by rewrite dictionary_to_list_empty. Qed.

Lemma compose_ok (p q : PrivacyLossDistribution) (t : R) :
  rounded_probability_mass_function p ≠ ∅ →
  rounded_probability_mass_function q ≠ ∅ →
  value_discretization_interval p = value_discretization_interval q →
  pessimistic_estimate p = pessimistic_estimate q →
  ∃ d,
    convolve_dictionary (rounded_probability_mass_function p)
      (rounded_probability_mass_function q) t = Ok d
    ∧ compose p q t =
      Ok {| rounded_probability_mass_function := d;
            value_discretization_interval := value_discretization_interval p;
            infinity_mass := composed_infinity_mass p q t;
            pessimistic_estimate := pessimistic_estimate p |}.
Proof.
  intros Hp Hq Hint Hpess.
  destruct (convolve_dictionary_ok _ _ t Hp Hq) as [d Hd]. exists d.
  split; [done|]. unfold compose.
  rewrite decide_False by (intros Hne; by apply Hne).
  rewrite decide_False by (intros Hne; by apply Hne).
  rewrite Hd. cbn. unfold composed_infinity_mass.
  by destruct (pessimistic_estimate p).
Qed.

Lemma compose_mismatch (p q : PrivacyLossDistribution) (t : R) :
  value_discretization_interval p ≠ value_discretization_interval q
  ∨ pessimistic_estimate p ≠ pessimistic_estimate q →
  compose p q t = Raise ValueError.
Proof.
  intros Hdiff. unfold compose.
  destruct (decide (value_discretization_interval p
                    ≠ value_discretization_interval q)) as [|Hint]; [done|].
  destruct (decide (pessimistic_estimate p ≠ pessimistic_estimate q));
    [done|].
  destruct Hdiff; done.
Qed.

Lemma compose_all_infinite (q : PrivacyLossDistribution) (t : R) :
  compose all_infinite q t = Raise ValueError.
Proof.
  unfold compose. cbn [all_infinite rounded_probability_mass_function].
  rewrite convolve_dictionary_empty_l.
  destruct (decide _); [done|]. destruct (decide _); done.
Qed.

(** [all_infinite] is what [from_two_probability_mass_functions] returns
    for two distributions with disjoint supports. *)
Lemma all_infinite_constructed :
  from_two_probability_mass_functions (K := Z)
    {[0 := Some 0%R]} {[1 := Some 0%R]} true 1 None = Ok all_infinite.
Proof.
  unfold from_two_probability_mass_functions.
  rewrite !map_to_list_singleton. cbn [fmap list_fmap foldl fst].
  unfold infinity_mass_step, loss_step, log_get.
  rewrite (lookup_singleton_ne 0 1) by done.
  rewrite !lookup_singleton_eq.
  rewrite (lookup_singleton_ne 1 0) by done. cbn.
  unfold all_infinite. do 2 f_equal.
  rewrite exp_0, underflow_id by apply float_tiny_lt_1. lra.
Qed.

Lemma identity_non_empty (interval : R) :
  rounded_probability_mass_function (identity interval) ≠ ∅.
Proof. simpl. apply insert_non_empty. Qed.

(** C2, as stated, fails: two distributions that share the interval and the
    estimate type, the first one built from two distributions with disjoint
    supports, so that its mass function is empty; [compose] raises from
    [min] of the empty dictionary and returns no distribution. *)
Lemma compose_infinity_mass_counterexample :
  from_two_probability_mass_functions (K := Z)
    {[0 := Some 0%R]} {[1 := Some 0%R]} true 1 None = Ok all_infinite
  ∧ value_discretization_interval all_infinite
    = value_discretization_interval (identity 1)
  ∧ pessimistic_estimate all_infinite = pessimistic_estimate (identity 1)
  ∧ ¬ ∃ r, compose all_infinite (identity 1) 0 = Ok r.
Proof.
  split; [apply all_infinite_constructed|]. split; [done|]. split; [done|].
  intros [r Hr]. by rewrite compose_all_infinite in Hr.
Qed.

(** C2 (amended): for two distributions with nonempty mass functions that
    share [value_discretization_interval] and [pessimistic_estimate],
    [compose] returns a distribution whose [infinity_mass] is
    [m1 + m2 - m1 * m2] when the estimate is optimistic and that quantity
    plus [tail_mass_truncation] when it is pessimistic. *)
Theorem compose_infinity_mass (p q : PrivacyLossDistribution) (t : R) :
  rounded_probability_mass_function p ≠ ∅ →
  rounded_probability_mass_function q ≠ ∅ →
  value_discretization_interval p = value_discretization_interval q →
  pessimistic_estimate p = pessimistic_estimate q →
  ∃ r, compose p q t = Ok r
       ∧ infinity_mass r =
         if pessimistic_estimate p
         then (infinity_mass p + infinity_mass q
               - infinity_mass p * infinity_mass q + t)%R
         else (infinity_mass p + infinity_mass q
               - infinity_mass p * infinity_mass q)%R.
Proof.
  intros Hp Hq Hint Hpess.
  destruct (compose_ok p q t Hp Hq Hint Hpess) as (d & _ & ->).
  eexists. split; [done|]. cbn. unfold composed_infinity_mass.
  by destruct (pessimistic_estimate p).
Qed.

Lemma compose_infinity_mass_witness :
  rounded_probability_mass_function (identity 1) ≠ ∅
  ∧ value_discretization_interval (identity 1)
    = value_discretization_interval (identity 1)
  ∧ pessimistic_estimate (identity 1) = pessimistic_estimate (identity 1)
  ∧ ∃ r, compose (identity 1) (identity 1) 0.5 = Ok r
         ∧ infinity_mass r = (0 + 0 - 0 * 0 + 0.5)%R.
Proof.
  split; [exact (identity_non_empty 1)|]. split; [reflexivity|].
  split; [reflexivity|].
  exact (compose_infinity_mass (identity 1) (identity 1) 0.5
           (identity_non_empty 1) (identity_non_empty 1) eq_refl eq_refl).
Defined.

(** C8, as stated, fails in the "only if" direction: the two distributions
    agree on interval and estimate type, and [compose] still raises
    [ValueError]. *)
Lemma compose_raises_counterexample :
  from_two_probability_mass_functions (K := Z)
    {[0 := Some 0%R]} {[1 := Some 0%R]} true 1 None = Ok all_infinite
  ∧ compose all_infinite (identity 1) 0 = Raise ValueError
  ∧ value_discretization_interval all_infinite
    = value_discretization_interval (identity 1)
  ∧ pessimistic_estimate all_infinite = pessimistic_estimate (identity 1).
Proof.
  split; [apply all_infinite_constructed|].
  split; [apply compose_all_infinite | done].
Qed.

(** C8 (amended): [compose] raises [ValueError] whenever the two
    distributions differ in [value_discretization_interval] or in
    [pessimistic_estimate]; when both mass functions are nonempty it raises
    only then, and otherwise returns a distribution. *)
Theorem compose_raises_iff (p q : PrivacyLossDistribution) (t : R) :
  rounded_probability_mass_function p ≠ ∅ →
  rounded_probability_mass_function q ≠ ∅ →
  let differ :=
    value_discretization_interval p ≠ value_discretization_interval q
    ∨ pessimistic_estimate p ≠ pessimistic_estimate q in
  (compose p q t = Raise ValueError ↔ differ)
  ∧ ((∃ r, compose p q t = Ok r) ↔ ¬ differ).
Proof.
  intros Hp Hq differ.
  destruct (decide (value_discretization_interval p
                    = value_discretization_interval q)) as [Hint|Hint].
  - destruct (decide (pessimistic_estimate p = pessimistic_estimate q))
      as [Hpess|Hpess].
    + destruct (compose_ok p q t Hp Hq Hint Hpess) as (d & _ & Hc).
      rewrite Hc. subst differ. split; split.
      * done.
      * intros [?|?]; done.
      * intros _ [?|?]; done.
      * eauto.
    + assert differ as Hd by (by right).
      rewrite (compose_mismatch p q t Hd). split; split; try done.
      intros [r Hr]; done.
  - assert differ as Hd by (by left).
    rewrite (compose_mismatch p q t Hd). split; split; try done.
    intros [r Hr]; done.
Qed.

Lemma compose_raises_iff_witness :
  rounded_probability_mass_function (identity 1) ≠ ∅
  ∧ rounded_probability_mass_function (identity 2) ≠ ∅
  ∧ (compose (identity 1) (identity 2) 0 = Raise ValueError
     ↔ value_discretization_interval (identity 1)
       ≠ value_discretization_interval (identity 2)
       ∨ pessimistic_estimate (identity 1)
         ≠ pessimistic_estimate (identity 2)).
Proof.
  split; [exact (identity_non_empty 1)|].
  split; [exact (identity_non_empty 2)|].
  exact (proj1 (compose_raises_iff (identity 1) (identity 2) 0
                  (identity_non_empty 1) (identity_non_empty 2))).
Defined.

(** C5, as stated, fails: composing the pessimistic [identity] with
    [identity] at the default truncation adds the truncation budget to
    [infinity_mass]. *)
Lemma compose_identity_counterexample :
  ∃ r, compose (identity 1) (identity 1) default_tail_mass_truncation = Ok r
       ∧ infinity_mass r ≠ infinity_mass (identity 1).
Proof.
  destruct (compose_ok (identity 1) (identity 1) default_tail_mass_truncation
              (identity_non_empty 1) (identity_non_empty 1) eq_refl eq_refl)
    as (d & _ & ->).
  eexists. split; [done|]. cbn. unfold default_tail_mass_truncation.
  assert (0 < / 10 ^ 15)%R; [|lra].
  apply Rinv_0_lt_compat, pow_lt. lra.
Qed.

(** C5 (amended): for a pessimistic distribution [p] whose mass function is
    nonempty with strictly positive masses, and a truncation [t] whose half
    is below the masses of the lowest and of the highest bucket of [p],
    composing [p] with [identity] of the same interval returns a
    distribution with the mass function and the interval of [p], and with
    [infinity_mass p + t] as infinity mass; with [t = 0] all three are those
    of [p]. *)
Theorem compose_identity (p : PrivacyLossDistribution) (t : R) (lo hi : Z) :
  pessimistic_estimate p = true →
  (∀ k v, rounded_probability_mass_function p !! k = Some v → (0 < v)%R) →
  py_min (rounded_probability_mass_function p) = Ok lo →
  py_max (rounded_probability_mass_function p) = Ok hi →
  (get0 (rounded_probability_mass_function p) lo > t / 2)%R →
  (get0 (rounded_probability_mass_function p) hi > t / 2)%R →
  ∃ r, compose p (identity (value_discretization_interval p)) t = Ok r
       ∧ rounded_probability_mass_function r
         = rounded_probability_mass_function p
       ∧ value_discretization_interval r = value_discretization_interval p
       ∧ infinity_mass r = (infinity_mass p + t)%R.
Proof.
  intros Hpess Hpos Hmin Hmax Hlo Hhi.
  assert (rounded_probability_mass_function p ≠ ∅) as Hne.
  { intros Hempty. rewrite Hempty, py_min_empty in Hmin. done. }
  destruct (compose_ok p (identity (value_discretization_interval p)) t Hne
              (identity_non_empty _) eq_refl Hpess) as (d & Hd & ->).
  eexists. split; [done|]. cbn.
  split; [|split; [done|]].
  - unfold convolve_dictionary in Hd.
    destruct (dictionary_to_list_spec _ Hne)
      as (lo' & hi' & Hmin' & Hmax' & Hle & _ & _ & Hdom & Hpack).
    rewrite Hmin in Hmin'. rewrite Hmax in Hmax'.
    injection Hmin' as <-. injection Hmax' as <-.
    rewrite Hpack in Hd. cbn in Hd.
    change (rounded_probability_mass_function (identity _))
      with ({[0 := 1%R]} : gmap Z R) in Hd.
    rewrite dictionary_to_list_singleton in Hd. cbn in Hd.
    rewrite fftconvolve_one, Z.add_0_r in Hd. injection Hd as <-.
    by apply unpack_dense.
  - unfold composed_infinity_mass. rewrite Hpess. cbn. lra.
Qed.

Lemma compose_identity_witness :
  ∃ r, compose (identity 1) (identity 1) 1 = Ok r
       ∧ rounded_probability_mass_function r = {[0 := 1%R]}
       ∧ value_discretization_interval r = 1%R
       ∧ infinity_mass r = (0 + 1)%R.
Proof.
  apply (compose_identity (identity 1) 1 0 0); cbn.
  - reflexivity.
  - intros k v Hk. apply lookup_singleton_Some in Hk as [_ <-]. lra.
  - unfold py_min, keys. by rewrite map_to_list_singleton.
  - unfold py_max, keys. by rewrite map_to_list_singleton.
  - unfold get0. rewrite lookup_singleton_eq. cbn. lra.
  - unfold get0. rewrite lookup_singleton_eq. cbn. lra.
Defined.

(** ** Stored masses *)

Lemma positive_nonnegative (d : gmap Z R) :
  positive_masses d → nonnegative_masses d.
Proof. intros Hd k v Hk. left. by eapply Hd. Qed.

Lemma positive_masses_empty : positive_masses ∅.
Proof. intros k v Hk. by rewrite lookup_empty in Hk. Qed.











Section two_probability_mass_functions_facts.
Context {K : Type} `{Countable K}.
Implicit Types lower upper : gmap K (option R).





End two_probability_mass_functions_facts.

(** The logarithm of a quotient within the range of doubles. *)
Lemma log_quotient_finite (x y : R) :
  (0 < y)%R → (float_tiny < x / y < float_max)%R →
  log_quotient x y = Ok (Finite (ln (x / y))).
Proof.
  intros Hy [Hlo Hhi]. pose proof float_tiny_pos.
  unfold log_quotient, py_div. rewrite decide_False by lra. cbn.
  rewrite decide_False by lra. rewrite underflow_id by done.
  unfold py_log. by rewrite decide_True by lra.
Qed.

Lemma log_quotient_zero (x : R) : log_quotient x 0 = Raise ZeroDivisionError.
Proof. unfold log_quotient, py_div. by rewrite decide_True. Qed.

Lemma log_quotient_overflow (x y : R) :
  y ≠ 0%R → (float_max <= x / y)%R → log_quotient x y = Ok Inf.
Proof.
  intros Hy Hmax. unfold log_quotient, py_div.
  rewrite decide_False by done. cbn. by rewrite decide_True.
Qed.

(** The two probabilities of the randomized response, and the quotient of
    the smaller by the larger, which never underflows. *)
Lemma randomized_response_probabilities (noise_parameter : R)
    (num_buckets : Z) :
  (0 < noise_parameter < 1)%R → 1 < num_buckets →
  (float_tiny < noise_parameter / IZR num_buckets)%R →
  let pn := (noise_parameter / IZR num_buckets)%R in
  let pe := (1 - noise_parameter + pn)%R in
  (0 < pn)%R ∧ (pn < pe <= 1)%R ∧ (1 < pe / pn)%R
  ∧ (float_tiny < pn / pe < float_max)%R.
Proof.
  intros Hp Hk Htiny pn pe. pose proof float_tiny_pos.
  pose proof float_max_gt_1.
  assert (2 <= IZR num_buckets)%R as Hk2 by (apply IZR_le; lia).
  assert (0 < pn)%R as Hpn by (unfold pn; lra).
  assert (pn <= noise_parameter / 2)%R as Hhalf.
  { unfold pn, Rdiv. apply Rmult_le_compat_l; [lra|].
    apply Rinv_le_contravar; lra. }
  assert (pn < pe <= 1)%R as Hpe by (unfold pe; lra).
  split; [done|]. split; [done|].
  assert (0 < (pe - pn) / pn)%R by (apply Rdiv_lt_0_compat; lra).
  split; [replace (pe / pn)%R with (1 + (pe - pn) / pn)%R by (field; lra);
          lra|].
  assert (pn / pe < 1)%R.
  { apply (Rmult_lt_reg_r pe); [lra|].
    unfold Rdiv. rewrite Rmult_assoc, Rinv_l by lra. lra. }
  split; [|lra].
  apply Rlt_le_trans with pn; [done|].
  apply (Rmult_le_reg_r pe); [lra|].
  unfold Rdiv. rewrite Rmult_assoc, Rinv_l by lra. nra.
Qed.

(** What [from_randomized_response] returns when its two probabilities and
    their quotient are within the range of doubles. *)
Lemma from_randomized_response_returns (noise_parameter : R)
    (num_buckets : Z) (pessimistic : bool) (interval : R) :
  (0 < noise_parameter < 1)%R → 1 < num_buckets → interval ≠ 0%R →
  (float_tiny < noise_parameter / IZR num_buckets)%R →
  let pn := (noise_parameter / IZR num_buckets)%R in
  let pe := (1 - noise_parameter + pn)%R in
  (pe / pn < float_max)%R →
  from_randomized_response noise_parameter num_buckets pessimistic interval
  = Ok {| rounded_probability_mass_function :=
            add_mass 0 (pn * (IZR num_buckets - 2))
              (add_mass (round_fn pessimistic (ln (pn / pe) / interval)) pn
                 (add_mass (round_fn pessimistic (ln (pe / pn) / interval))
                    pe ∅));
          value_discretization_interval := interval;
          infinity_mass := 0;
          pessimistic_estimate := pessimistic |}.
Proof.
  intros Hp Hk Hint Htiny pn pe Hmax.
  destruct (randomized_response_probabilities noise_parameter num_buckets
              Hp Hk Htiny) as (Hpn & Hpe & Hr1 & Hr2).
  fold pn in Hpn, Hpe, Hr1, Hr2. fold pe in Hpe, Hr1, Hr2.
  pose proof float_tiny_lt_1.
  unfold from_randomized_response.
  rewrite decide_False by lra. rewrite decide_False by lia.
  rewrite (underflow_id (noise_parameter / IZR num_buckets)) by done.
  fold pn. fold pe.
  rewrite (log_quotient_finite pe pn) by (done || lra). cbn.
  unfold py_div. rewrite decide_False by done. cbn.
  rewrite (log_quotient_finite pn pe) by (done || lra). cbn.
  unfold py_div. rewrite decide_False by done. done.
Qed.


Lemma insert_nonneg (k : Z) (v : R) (d : gmap Z R) :
  (0 <= v)%R → nonnegative_masses d → nonnegative_masses (<[k := v]> d).
Proof.
  intros Hv Hd j w. rewrite lookup_insert.
  destruct (decide (k = j)); [by intros [= <-] | apply Hd].
Qed.




(** What [from_privacy_parameters] returns when [math.exp(epsilon)] has a
    finite double. *)
Lemma from_privacy_parameters_returns (eps dlt interval : R) :
  (0 <= eps)%R → (exp eps < float_max)%R → interval ≠ 0%R →
  from_privacy_parameters {| epsilon := eps; delta := dlt |} interval
  = Ok {| rounded_probability_mass_function :=
            <[Zceil (- eps / interval)
                := underflow ((1 - dlt) / (1 + exp eps))]>
              (<[Zceil (eps / interval)
                   := underflow ((1 - dlt) / (1 + exp (- eps)))]> ∅);
          value_discretization_interval := interval;
          infinity_mass := dlt;
          pessimistic_estimate := true |}.
Proof.
  intros Heps Hmax Hint. unfold from_privacy_parameters. cbn [epsilon delta].
  pose proof (exp_pos eps). pose proof (exp_pos (- eps)).
  pose proof float_tiny_lt_1.
  assert (1 <= exp eps)%R as Hge.
  { rewrite <- exp_0. destruct Heps as [Hlt| <-]; [|lra].
    left. by apply exp_increasing. }
  rewrite (py_exp_ok (- eps)).
  2:{ split; [by apply exp_opp_range|].
      apply Rle_lt_trans with (exp eps); [|done].
      destruct Heps as [Hlt| <-]; [|rewrite Ropp_0; lra].
      left. apply exp_increasing. lra. }
  rewrite (py_exp_ok eps) by lra.
  unfold py_div. rewrite (decide_False (P := interval = 0%R)) by done. cbn.
  rewrite (decide_False (P := (1 + exp (- eps))%R = 0%R)) by lra. cbn.
  rewrite (decide_False (P := interval = 0%R)) by done. cbn.
  rewrite (decide_False (P := (1 + exp eps)%R = 0%R)) by lra. done.
Qed.





Lemma ln_3_ge_1 : (1 <= ln 3)%R.
Proof.
  rewrite <- (ln_exp 1) at 1.
  destruct exp_le_3 as [Hlt|Heq]; [|rewrite Heq; lra].
  left. apply ln_increasing; [apply exp_pos | done].
Qed.

(** With two buckets, bucket [0] is stored with mass zero. *)
Lemma from_randomized_response_two_buckets :
  ∃ pld,
    from_randomized_response (1 / 2) 2 true 1 = Ok pld
    ∧ rounded_probability_mass_function pld !! 0 = Some 0%R.
Proof.
  rewrite from_randomized_response_returns;
    [|lra | lia | lra | unfold float_tiny; lra | unfold float_max; lra].
  eexists. split; [done|]. cbn [rounded_probability_mass_function round_fn].
  replace (1 - 1 / 2 + 1 / 2 / 2)%R with (3 / 4)%R by lra.
  replace (1 / 2 / 2)%R with (1 / 4)%R by lra.
  replace (3 / 4 / (1 / 4))%R with 3%R by lra.
  replace (1 / 4 / (3 / 4))%R with (/ 3)%R by lra.
  pose proof ln_3_ge_1 as Hln.
  assert (Zceil (ln 3 / 1) ≠ 0) as Hc1.
  { intros Hc. pose proof (Zceil_bound (ln 3 / 1)) as [_ Hb].
    rewrite Hc in Hb. lra. }
  assert (Zceil (ln (/ 3) / 1) ≠ 0) as Hc2.
  { intros Hc. pose proof (Zceil_bound (ln (/ 3) / 1)) as [Hb _].
    rewrite Hc, ln_Rinv in Hb by lra. lra. }
  unfold add_mass at 1. rewrite lookup_insert_eq. f_equal.
  unfold get0, add_mass.
  rewrite lookup_insert_ne by done. rewrite lookup_insert_ne by done.
  rewrite lookup_empty. cbn. lra.
Qed.




(** ** Convolutions, entry by entry *)

Lemma coef_nil (i : nat) : coef [] i = 0%R.
Proof. by destruct i. Qed.

Lemma coef_ge (l : list R) (i : nat) : (length l ≤ i)%nat → coef l i = 0%R.
Proof. intros Hi. unfold coef. by rewrite lookup_ge_None_2. Qed.

Lemma coef_ext (a b : list R) :
  length a = length b → (∀ i, coef a i = coef b i) → a = b.
Proof.
  intros Hlen Hcoef. apply list_eq. intros i.
  destruct (decide (i < length a)%nat) as [Hi|Hi].
  - destruct (lookup_lt_is_Some_2 a i Hi) as [x Hx].
    destruct (lookup_lt_is_Some_2 b i ltac:(lia)) as [y Hy].
    specialize (Hcoef i). unfold coef in Hcoef. rewrite Hx, Hy in *.
    simpl in Hcoef. by subst.
  - rewrite !lookup_ge_None_2 by lia. done.
Qed.

Lemma coef_padd (a b : list R) (i : nat) :
  coef (padd a b) i = (coef a i + coef b i)%R.
Proof.
  revert b i. induction a as [|x a IH]; intros [|y b] i; cbn [padd];
    rewrite ?coef_nil; try lra.
  destruct i as [|i]; [done|]. exact (IH b i).
Qed.

Lemma length_padd (a b : list R) :
  length (padd a b) = (length a `max` length b)%nat.
Proof.
  revert b. induction a as [|x a IH]; intros [|y b]; cbn [padd length];
    try done. by rewrite IH.
Qed.

Lemma coef_scale (x : R) (b : list R) (i : nat) :
  coef (Rmult x <$> b) i = (x * coef b i)%R.
Proof.
  unfold coef. rewrite list_lookup_fmap.
  destruct (b !! i); simpl; lra.
Qed.

Lemma coef_fftconvolve_cons (x : R) (a b : list R) (i : nat) :
  b ≠ [] →
  coef (fftconvolve (x :: a) b) i =
    (x * coef b i + match i with O => 0 | S i' => coef (fftconvolve a b) i' end)%R.
Proof.
  intros Hb. destruct b as [|y b]; [done|]. cbn [fftconvolve].
  rewrite coef_padd, coef_scale. f_equal. by destruct i.
Qed.

Lemma length_fftconvolve (a b : list R) :
  a ≠ [] → b ≠ [] →
  length (fftconvolve a b) = (length a + length b - 1)%nat.
Proof.
  intros Ha Hb. induction a as [|x a IH]; [done|].
  destruct b as [|y b]; [done|]. cbn [fftconvolve].
  rewrite length_padd, length_fmap. cbn [length].
  destruct a as [|x' a]; [cbn; lia|].
  rewrite IH by done. cbn [length]. lia.
Qed.

Lemma Rsum_zero (l : list R) : Forall (λ x, x = 0%R) l → Rsum l = 0%R.
Proof. induction 1 as [|x l -> _ IH]; simpl; lra. Qed.

Lemma convolution_sum_nil (b : list R) (i : nat) : convolution_sum [] b i = 0%R.
Proof.
  unfold convolution_sum. apply Rsum_zero, Forall_fmap, Forall_forall.
  intros j _. simpl. rewrite coef_nil. lra.
Qed.

Lemma convolution_sum_cons (x : R) (a b : list R) (i : nat) :
  convolution_sum (x :: a) b i =
    (x * coef b i + match i with O => 0 | S i' => convolution_sum a b i' end)%R.
Proof.
  unfold convolution_sum. cbn [seq fmap list_fmap Rsum].
  rewrite Nat.sub_0_r. f_equal.
  destruct i as [|i]; [done|].
  rewrite <- fmap_S_seq, <- list_fmap_compose. done.
Qed.

Lemma coef_fftconvolve (a b : list R) (i : nat) :
  b ≠ [] → coef (fftconvolve a b) i = convolution_sum a b i.
Proof.
  intros Hb. revert i. induction a as [|x a IH]; intros i.
  - by rewrite convolution_sum_nil, coef_nil.
  - rewrite coef_fftconvolve_cons, convolution_sum_cons by done.
    f_equal. destruct i as [|i]; [done | exact (IH i)].
Qed.

Lemma coef_resize (n : nat) (l : list R) (i : nat) :
  coef (resize n 0%R l) i = if decide (i < n)%nat then coef l i else 0%R.
Proof.
  unfold coef. destruct (decide (i < n)%nat) as [Hi|Hi].
  - destruct (decide (i < length l)%nat).
    + by rewrite lookup_resize.
    + rewrite lookup_resize_new by lia. by rewrite lookup_ge_None_2 by lia.
  - by rewrite lookup_resize_old by lia.
Qed.

Lemma coef_take (n : nat) (l : list R) (i : nat) :
  coef (take n l) i = if decide (i < n)%nat then coef l i else 0%R.
Proof.
  unfold coef. destruct (decide (i < n)%nat).
  - by rewrite lookup_take_lt.
  - by rewrite lookup_take_ge by lia.
Qed.

Lemma coef_drop (n : nat) (l : list R) (i : nat) :
  coef (drop n l) i = coef l (n + i).
Proof. unfold coef. by rewrite lookup_drop. Qed.

Lemma convolution_sum_ext (a a' b b' : list R) (i : nat) :
  (∀ j, coef a j = coef a' j) → (∀ j, coef b j = coef b' j) →
  convolution_sum a b i = convolution_sum a' b' i.
Proof.
  intros Ha Hb. unfold convolution_sum. f_equal.
  apply list_fmap_ext. intros _ j _. by rewrite Ha, Hb.
Qed.

Lemma coef_resize_id (n : nat) (l : list R) (i : nat) :
  (length l ≤ n)%nat → coef (resize n 0%R l) i = coef l i.
Proof.
  intros Hn. rewrite coef_resize. destruct (decide (i < n)%nat); [done|].
  by rewrite coef_ge by lia.
Qed.

(** A period that holds the whole linear convolution: nothing wraps. *)
Lemma cyclic_convolve_padded (n : nat) (x y : list R) :
  x ≠ [] → y ≠ [] → (length x + length y - 1 ≤ n)%nat →
  cyclic_convolve n (resize n 0%R x) (resize n 0%R y)
  = resize n 0%R (fftconvolve x y).
Proof.
  intros Hx Hy Hn.
  assert (0 < length x)%nat by (destruct x; [done | cbn; lia]).
  assert (0 < length y)%nat by (destruct y; [done | cbn; lia]).
  assert (resize n 0%R y ≠ []) as Hy'.
  { intros Hnil. apply (f_equal length) in Hnil.
    rewrite length_resize in Hnil. cbn in Hnil. lia. }
  assert (∀ k, coef (fftconvolve (resize n 0%R x) (resize n 0%R y)) k
               = coef (fftconvolve x y) k) as Hcoef.
  { intros k. rewrite !coef_fftconvolve by done.
    apply convolution_sum_ext; intros j; apply coef_resize_id; lia. }
  apply coef_ext.
  - unfold cyclic_convolve. by rewrite !length_resize.
  - intros i. unfold cyclic_convolve. rewrite !coef_resize.
    destruct (decide (i < n)%nat) as [Hi|Hi]; [|done].
    rewrite coef_padd, coef_take, coef_drop, !Hcoef.
    rewrite decide_True by done.
    rewrite (coef_ge _ (n + i)); [lra|].
    rewrite length_fftconvolve by done. lia.
Qed.

Lemma self_convolution_length (l : list R) (k : nat) :
  l ≠ [] →
  self_convolution l (S k) ≠ []
  ∧ length (self_convolution l (S k)) = (S k * (length l - 1) + 1)%nat.
Proof.
  intros Hl.
  assert (0 < length l)%nat by (destruct l; [done | cbn; lia]).
  induction k as [|k [IHne IHlen]].
  - split; [done|]. cbn [self_convolution]. lia.
  - change (self_convolution l (S (S k)))
      with (fftconvolve l (self_convolution l (S k))).
    assert (length (fftconvolve l (self_convolution l (S k)))
            = (S (S k) * (length l - 1) + 1)%nat) as Hlen.
    { rewrite length_fftconvolve, IHlen by done. lia. }
    split; [|done]. intros Hnil. rewrite Hnil in Hlen. cbn in Hlen. lia.
Qed.

Lemma cyclic_power_padded (n : nat) (l : list R) (k : nat) :
  l ≠ [] → (S k * (length l - 1) + 1 ≤ n)%nat →
  cyclic_power n (resize n 0%R l) (S k)
  = resize n 0%R (self_convolution l (S k)).
Proof.
  intros Hl. induction k as [|k IH]; intros Hn; [done|].
  change (cyclic_power n (resize n 0%R l) (S (S k)))
    with (cyclic_convolve n (resize n 0%R l)
            (cyclic_power n (resize n 0%R l) (S k))).
  destruct (self_convolution_length l k Hl) as [Hne Hlen].
  rewrite IH by lia.
  assert (0 < length l)%nat by (destruct l; [done | cbn; lia]).
  apply cyclic_convolve_padded; [done | done |]. rewrite Hlen. lia.
Qed.

Lemma next_smooth_ge (fuel : nat) (m : Z) : m ≤ next_smooth fuel m.
Proof.
  revert m. induction fuel as [|fuel IH]; intros m; cbn [next_smooth]; [lia|].
  destruct (smooth11 m); [lia|]. specialize (IH (m + 1)). lia.
Qed.

Lemma next_fast_len_ge (target : Z) : target ≤ next_fast_len target.
Proof. apply next_smooth_ge. Qed.

(** For two or more factors [self_convolve] returns the self-convolution
    followed by [num_times - 2] zeros. *)
Lemma self_convolve_padded (l : list R) (num_times : Z) :
  l ≠ [] → 2 ≤ num_times →
  self_convolve l num_times
  = Ok (self_convolution l (Z.to_nat num_times)
        ++ replicate (Z.to_nat (num_times - 2)) 0%R).
Proof.
  intros Hl Hn. unfold self_convolve, ifft_fft_power.
  assert (0 < length l)%nat by (destruct l; [done | cbn; lia]).
  set (output_len := num_times * Z.of_nat (length l) - 1).
  assert (1 ≤ output_len) by (subst output_len; nia).
  rewrite decide_False by lia. f_equal.
  pose proof (next_fast_len_ge output_len) as Hfast.
  destruct (Z.to_nat num_times) as [|k] eqn:Hk; [lia|].
  destruct (self_convolution_length l k Hl) as [Hne Hlen].
  assert (Z.of_nat (S k * (length l - 1) + 1) = num_times * (Z.of_nat (length l) - 1) + 1)
    as Hexact by nia.
  rewrite cyclic_power_padded by (done || nia).
  rewrite take_resize_le by lia.
  rewrite resize_ge by nia. f_equal. f_equal. nia.
Qed.

(** For a single factor the last entry is cut off. *)
Lemma self_convolve_once (l : list R) :
  (2 ≤ length l)%nat →
  self_convolve l 1 = Ok (take (length l - 1) l).
Proof.
  intros Hl. unfold self_convolve, ifft_fft_power.
  rewrite decide_False by lia. f_equal.
  pose proof (next_fast_len_ge (1 * Z.of_nat (length l) - 1)).
  cbn [cyclic_power Z.to_nat Pos.to_nat Pos.iter_op Nat.add].
  change (Z.to_nat 1) with 1%nat. cbn [cyclic_power].
  rewrite take_resize_le by lia. rewrite resize_le by lia.
  f_equal. lia.
Qed.

(** ** The repository's tests of the codec and of [convolve_dictionary] *)

Lemma list_to_dictionary_unfold (l : list R) (offset : Z) (t : R) (lo hi : Z) :
  lower_truncation_loop (t / 2) l 0 0 = lo →
  upper_truncation_loop (t / 2) (reverse l) (Z.of_nat (length l) - 1) 0 = hi →
  list_to_dictionary l offset t
  = foldl (retain l offset) ∅ (seqZ lo (hi + 1 - lo)).
Proof. by intros <- <-. Qed.

(** One iteration of the third loop, at an index that is in the list. *)
Lemma retain_at (l : list R) (offset : Z) (d : gmap Z R) (i : Z) (x : R) :
  l !! Z.to_nat i = Some x →
  retain l offset d i = if decide (x > 0)%R then <[i + offset := x]> d else d.
Proof. intros Hx. unfold retain, item. by rewrite Hx. Qed.

Example test_truncate_lower_only :
  list_to_dictionary [0.2; 0.5; 0.3]%R 1 0.4%R = {[2 := 0.5%R; 3 := 0.3%R]}.
Proof.
  rewrite (list_to_dictionary_unfold _ _ _ 1 2);
    [| cbn [lower_truncation_loop]; float_cases
     | cbn [reverse rev_append length upper_truncation_loop]; float_cases].
  change (seqZ 1 (2 + 1 - 1)) with [1; 2]. cbn [foldl].
  rewrite (retain_at _ _ _ 1 0.5%R), (retain_at _ _ _ 2 0.3%R) by reflexivity.
  rewrite !decide_True by lra.
  apply map_eq. intros k. rewrite !lookup_insert, lookup_singleton, lookup_empty.
  repeat case_decide; try lia; done.
Qed.

Example test_truncate_upper_only :
  list_to_dictionary [0.4; 0.5; 0.1]%R 1 0.3%R = {[1 := 0.4%R; 2 := 0.5%R]}.
Proof.
  rewrite (list_to_dictionary_unfold _ _ _ 0 1);
    [| cbn [lower_truncation_loop]; float_cases
     | cbn [reverse rev_append length upper_truncation_loop]; float_cases].
  change (seqZ 0 (1 + 1 - 0)) with [0; 1]. cbn [foldl].
  rewrite (retain_at _ _ _ 0 0.4%R), (retain_at _ _ _ 1 0.5%R) by reflexivity.
  rewrite !decide_True by lra.
  apply map_eq. intros k. rewrite !lookup_insert, lookup_singleton, lookup_empty.
  repeat case_decide; try lia; done.
Qed.

Example test_truncate_all :
  list_to_dictionary [0.4; 0.5; 0.1]%R 1 3%R = ∅.
Proof.
  rewrite (list_to_dictionary_unfold _ _ _ 3 (-1));
    [| cbn [lower_truncation_loop]; float_cases
     | cbn [reverse rev_append length upper_truncation_loop]; float_cases].
  done.
Qed.

Lemma dictionary_to_list_between (d : gmap Z R) (lo hi : Z) :
  is_Some (d !! lo) → is_Some (d !! hi) →
  (∀ k, is_Some (d !! k) → lo ≤ k ≤ hi) →
  dictionary_to_list d = Ok (lo, get0 d <$> seqZ lo (hi + 1 - lo)).
Proof.
  intros Hlo Hhi Hdom.
  assert (d ≠ ∅) as Hne.
  { intros ->. rewrite lookup_empty in Hlo. by destruct Hlo. }
  destruct (dictionary_to_list_spec d Hne)
    as (lo' & hi' & _ & _ & _ & Hlo' & Hhi' & Hdom' & ->).
  pose proof (Hdom _ Hlo'). pose proof (Hdom _ Hhi').
  pose proof (Hdom' _ Hlo). pose proof (Hdom' _ Hhi).
  by replace lo' with lo by lia; replace hi' with hi by lia.
Qed.

(** Evaluation of the dense list of a concrete dictionary. *)
Ltac pack_dictionary d lo hi :=
  rewrite (dictionary_to_list_between d lo hi);
  [ | rewrite ?lookup_insert, ?lookup_singleton; repeat case_decide;
      solve [eauto | lia]
    | rewrite ?lookup_insert, ?lookup_singleton; repeat case_decide;
      solve [eauto | lia]
    | let k := fresh "k" in
      intros k; rewrite ?lookup_insert, ?lookup_singleton;
      repeat case_decide; intros [? ?]; solve [lia | done] ].

Example test_convolve_dictionary :
  convolve_dictionary {[1 := 2%R; 3 := 4%R]} {[2 := 3%R; 4 := 6%R]} 0
  = Ok {[3 := 6%R; 5 := 24%R; 7 := 24%R]}.
Proof.
  unfold convolve_dictionary.
  pack_dictionary ({[1 := 2%R; 3 := 4%R]} : gmap Z R) 1 3.
  pack_dictionary ({[2 := 3%R; 4 := 6%R]} : gmap Z R) 2 4.
  cbn [mbind result_bind].
  f_equal.
  change (seqZ 1 (3 + 1 - 1)) with [1; 2; 3].
  change (seqZ 2 (4 + 1 - 2)) with [2; 3; 4].
  cbn [fmap list_fmap]. unfold get0.
  rewrite !lookup_insert, !lookup_singleton.
  repeat (case_decide; try lia). cbn [default from_option].
  cbv [Datatypes.id].
  replace (fftconvolve [2; 0; 4] [3; 0; 6])%R with [6; 0; 24; 0; 24]%R
    by (cbn; repeat f_equal; lra).
  rewrite (list_to_dictionary_unfold _ _ _ 0 4);
    [| cbn [lower_truncation_loop]; float_cases
     | cbn [reverse rev_append length upper_truncation_loop]; float_cases].
  change (seqZ 0 (4 + 1 - 0)) with [0; 1; 2; 3; 4]. cbn [foldl].
  rewrite (retain_at _ _ _ 0 6%R), (retain_at _ _ _ 1 0%R),
    (retain_at _ _ _ 2 24%R), (retain_at _ _ _ 3 0%R),
    (retain_at _ _ _ 4 24%R) by reflexivity.
  float_cases.
  apply map_eq. intros k.
  rewrite !lookup_insert, lookup_singleton, lookup_empty.
  repeat case_decide; try lia; done.
Qed.

Example test_convolve_dictionary_with_truncation :
  convolve_dictionary {[1 := 0.4%R; 2 := 0.6%R]} {[1 := 0.7%R; 3 := 0.3%R]}
    0.57
  = Ok {[3 := 0.42%R; 4 := 0.12%R]}.
Proof.
  unfold convolve_dictionary.
  pack_dictionary ({[1 := 0.4%R; 2 := 0.6%R]} : gmap Z R) 1 2.
  pack_dictionary ({[1 := 0.7%R; 3 := 0.3%R]} : gmap Z R) 1 3.
  cbn [mbind result_bind].
  f_equal.
  change (seqZ 1 (2 + 1 - 1)) with [1; 2].
  change (seqZ 1 (3 + 1 - 1)) with [1; 2; 3].
  cbn [fmap list_fmap]. unfold get0.
  rewrite !lookup_insert, !lookup_singleton.
  repeat (case_decide; try lia). cbn [default from_option].
  cbv [Datatypes.id].
  replace (fftconvolve [0.4; 0.6] [0.7; 0; 0.3])%R
    with [0.28; 0.42; 0.12; 0.18]%R by (cbn; repeat f_equal; lra).
  rewrite (list_to_dictionary_unfold _ _ _ 1 2);
    [| cbn [lower_truncation_loop]; float_cases
     | cbn [reverse rev_append length upper_truncation_loop]; float_cases].
  change (seqZ 1 (2 + 1 - 1)) with [1; 2]. cbn [foldl].
  rewrite (retain_at _ _ _ 1 0.42%R), (retain_at _ _ _ 2 0.12%R)
    by reflexivity.
  float_cases.
  apply map_eq. intros k.
  rewrite !lookup_insert, lookup_singleton, lookup_empty.
  repeat case_decide; try lia; done.
Qed.

(** ** [self_convolve] *)

(** The test of the repository: two-fold self-convolution. *)
Lemma self_convolve_twice :
  self_convolve [3; 5; 7]%R 2 = Ok [9; 30; 67; 70; 49]%R.
Proof.
  assert (∃ l, self_convolve [3; 5; 7]%R 2 = Ok l
               ∧ l = [9; 30; 67; 70; 49]%R) as (l & -> & ->); [|done].
  eexists. split; [vm_compute; reflexivity|]. repeat f_equal; lra.
Qed.

(** C4 at its failing inputs.  With [num_times = 1] the output length
    [num_times * len - 1] is [len - 1], and the last entry of the list is
    lost: the one-fold self-convolution of [[3; 5; 7]] is the list itself.
    With [num_times = 3] the result has [3 * 3 - 1 = 8] entries, while the
    three-fold self-convolution has [3 * (3 - 1) + 1 = 7].  The lemmas
    [self_convolve_once] and [self_convolve_padded] give the result for
    every list. *)
Theorem self_convolve_output_length :
  (self_convolve [3; 5; 7]%R 1 = Ok [3; 5]%R
   ∧ self_convolution [3; 5; 7]%R 1 = [3; 5; 7]%R)
  ∧ ∃ r, self_convolve [3; 5; 7]%R 3 = Ok r
         ∧ length r = 8%nat
         ∧ length (self_convolution [3; 5; 7]%R 3) = 7%nat.
Proof.
  split; [split; [vm_compute; reflexivity | reflexivity]|].
  eexists. split; [vm_compute; reflexivity|]. split; reflexivity.
Qed.

(** ** The monotone function inverter *)

(** The repository's tests, on doubles: within a hundred iterations each
    search returns what the test expects. *)
Example test_inverse_no_initial_guess :
  ∃ x, inverse_monotone_function 100 PrimFloat.opp (-4.5)%float
         (test_parameters 0 10 None false) false = Some (Some x)
       ∧ almost_equal 4.5 x = true.
Proof. eexists. split; vm_compute; reflexivity. Qed.

Example test_inverse_with_initial_guess :
  ∃ x, inverse_monotone_function 100 PrimFloat.opp (-5)%float
         (test_parameters 0 10 (Some 2%float) false) false = Some (Some x)
       ∧ almost_equal 5 x = true.
Proof. eexists. split; vm_compute; reflexivity. Qed.

Example test_inverse_out_of_range :
  inverse_monotone_function 100 PrimFloat.opp (-5)%float
    (test_parameters 0 4 None false) false = Some None.
Proof. vm_compute. reflexivity. Qed.

Example test_inverse_infinite_upper_bound :
  ∃ x, inverse_monotone_function 100
         (λ x, PrimFloat.div (-1)%float (PrimFloat.div 1%float x))
         (-5)%float
         (test_parameters 0 PrimFloat.infinity (Some 2%float) false) false
       = Some (Some x)
       ∧ almost_equal 5 x = true.
Proof. eexists. split; vm_compute; reflexivity. Qed.

Example test_inverse_increasing_no_initial_guess :
  ∃ x, inverse_monotone_function 100 (λ x, PrimFloat.mul x x) 25%float
         (test_parameters 0 10 None false) true = Some (Some x)
       ∧ almost_equal 5 x = true.
Proof. eexists. split; vm_compute; reflexivity. Qed.

Example test_inverse_increasing_with_initial_guess :
  ∃ x, inverse_monotone_function 100 (λ x, PrimFloat.mul x x) 25%float
         (test_parameters 0 10 (Some 2%float) false) true = Some (Some x)
       ∧ almost_equal 5 x = true.
Proof. eexists. split; vm_compute; reflexivity. Qed.

Example test_inverse_increasing_out_of_range :
  inverse_monotone_function 100 (λ x, PrimFloat.mul x x) 5%float
    (test_parameters 6 10 None false) true = Some None.
Proof. vm_compute. reflexivity. Qed.

Example test_inverse_discrete :
  inverse_monotone_function 100 PrimFloat.opp (-4.5)%float
    (test_parameters 0 10 None true) false = Some (Some 5%float).
Proof. vm_compute. reflexivity. Qed.

(** On the bracket [[stalled_lower, stalled_upper]] the bisection of [-x]
    for the value [-3e9] makes no progress: the bracket is wider than the
    tolerance, and an iteration leaves it as it is. *)
Lemma bisect_loop_stalled (fuel : nat) :
  bisect_loop fuel PrimFloat.opp (-3000000000)%float false false
    default_tolerance stalled_lower stalled_upper = None.
Proof. induction fuel as [|fuel IH]; [reflexivity | exact IH]. Qed.

(** The bisection from [[0, 1e10]] reaches that bracket. *)
Lemma bisect_loop_stalls (fuel : nat) :
  bisect_loop fuel PrimFloat.opp (-3000000000)%float false false
    default_tolerance 0%float 10000000000%float = None.
Proof.
  do 64 (destruct fuel as [|fuel]; [vm_compute; reflexivity|]).
  exact (bisect_loop_stalled fuel).
Qed.

(** C3 fails on doubles: for [func x = - x], which is decreasing, the
    value [-3e9], the bounds [0] and [1e10] and the default tolerance
    [1e-7], [x = 3e9] lies within the bounds and has [func x <= value], yet
    no number of iterations makes [inverse_monotone_function] return: its
    bisection stalls on two adjacent doubles that are further apart than
    the tolerance. *)
Theorem inverse_monotone_function_stalls :
  PrimFloat.leb 0%float 3000000000%float = true
  ∧ PrimFloat.leb 3000000000%float 10000000000%float = true
  ∧ PrimFloat.leb (PrimFloat.opp 3000000000%float) (-3000000000)%float = true
  ∧ PrimFloat.ltb default_tolerance
      (PrimFloat.sub stalled_upper stalled_lower) = true
  ∧ ∀ fuel,
      inverse_monotone_function fuel PrimFloat.opp (-3000000000)%float
        (test_parameters 0 10000000000 None false) false = None.
Proof.
  split; [reflexivity|]. split; [reflexivity|]. split; [reflexivity|].
  split; [reflexivity|]. intros fuel.
  unfold inverse_monotone_function.
  change (bound_test PrimFloat.opp (-3000000000)%float
            (test_parameters 0 10000000000 None false) false) with false.
  cbn [test_parameters initial_guess discrete tolerance lower_bound
       upper_bound mbind option_bind].
  by rewrite bisect_loop_stalls.
Qed.

(** ** Sums over lists and the total mass of a dictionary *)

Lemma Rsum_Permutation (l1 l2 : list R) : l1 ≡ₚ l2 → Rsum l1 = Rsum l2.
Proof. induction 1; simpl; lra. Qed.

Lemma Rsum_fmap_ext {A} (f g : A → R) (l : list A) :
  (∀ x, x ∈ l → f x = g x) → Rsum (f <$> l) = Rsum (g <$> l).
Proof.
  induction l as [|x l IH]; intros Hfg; [done|]. cbn [fmap list_fmap Rsum].
  rewrite Hfg by (by left). rewrite IH; [done|]. intros y Hy. apply Hfg. by right.
Qed.

Lemma Rsum_fmap_plus {A} (f g : A → R) (l : list A) :
  Rsum ((λ x, f x + g x)%R <$> l) = (Rsum (f <$> l) + Rsum (g <$> l))%R.
Proof.
  induction l as [|x l IH]; cbn [fmap list_fmap Rsum]; [lra|].
  rewrite IH. lra.
Qed.


Lemma Rsum_fmap_le {A} (f g : A → R) (l : list A) :
  (∀ x, x ∈ l → (f x <= g x)%R) → (Rsum (f <$> l) <= Rsum (g <$> l))%R.
Proof.
  induction l as [|x l IH]; intros Hfg; cbn [fmap list_fmap Rsum]; [lra|].
  pose proof (Hfg x ltac:(by left)).
  assert (Rsum (f <$> l) <= Rsum (g <$> l))%R; [|lra].
  apply IH. intros y Hy. apply Hfg. by right.
Qed.

Lemma total_mass_empty : total_mass ∅ = 0%R.
Proof. unfold total_mass. by rewrite map_to_list_empty. Qed.

Lemma total_mass_insert_fresh (d : gmap Z R) (k : Z) (v : R) :
  d !! k = None → total_mass (<[k := v]> d) = (v + total_mass d)%R.
Proof.
  intros Hk. unfold total_mass.
  rewrite (Rsum_Permutation _ (((k, v) :: map_to_list d).*2)); [done|].
  apply fmap_Permutation. by apply map_to_list_insert.
Qed.

Lemma total_mass_delete (d : gmap Z R) (k : Z) :
  total_mass (delete k d) = (total_mass d - get0 d k)%R.
Proof.
  unfold get0. destruct (d !! k) as [v|] eqn:Hk; simpl.
  - unfold total_mass.
    assert (Rsum (map_to_list d).*2
            = Rsum ((k, v) :: map_to_list (delete k d)).*2) as ->.
    { apply Rsum_Permutation, fmap_Permutation. symmetry.
      by apply map_to_list_delete. }
    cbn [fmap list_fmap Rsum snd]. lra.
  - rewrite delete_id by done. lra.
Qed.

Lemma total_mass_insert (d : gmap Z R) (k : Z) (v : R) :
  total_mass (<[k := v]> d) = (total_mass d - get0 d k + v)%R.
Proof.
  rewrite <- insert_delete_eq.
  rewrite total_mass_insert_fresh by apply lookup_delete_eq.
  rewrite total_mass_delete. lra.
Qed.

Lemma total_mass_add_mass (d : gmap Z R) (k : Z) (v : R) :
  total_mass (add_mass k v d) = (total_mass d + v)%R.
Proof. unfold add_mass. rewrite total_mass_insert. lra. Qed.

Lemma total_mass_singleton (k : Z) (v : R) : total_mass {[k := v]} = v.
Proof. unfold total_mass. rewrite map_to_list_singleton. simpl. lra. Qed.

Lemma total_mass_nonneg (d : gmap Z R) :
  nonnegative_masses d → (0 <= total_mass d)%R.
Proof.
  intros Hd. unfold total_mass. apply Rsum_nonneg, Forall_fmap, Forall_forall.
  intros [k v] Hin. apply elem_of_map_to_list in Hin. simpl. by eapply Hd.
Qed.

(** *** Unpacking: what is kept *)

Lemma item_lookup (l : list R) (i : Z) (x : R) :
  0 ≤ i → l !! Z.to_nat i = Some x → item l i = x.
Proof. intros _ Hx. unfold item. by rewrite Hx. Qed.

Lemma item_coef (l : list R) (i : Z) : item l i = coef l (Z.to_nat i).
Proof. done. Qed.

Lemma Rsum_take_ge (l : list R) (n i : nat) (x : R) :
  Forall (λ y, 0 <= y)%R l → l !! i = Some x → (i < n)%nat →
  (x <= Rsum (take n l))%R.
Proof.
  intros Hl. revert n i. induction Hl as [|y l Hy Hl IH]; intros n i Hi Hn;
    [done|].
  destruct n as [|n]; [lia|]. cbn [take Rsum].
  pose proof (Rsum_nonneg (take n l) ltac:(by apply Forall_take)).
  destruct i as [|i]; simpl in Hi.
  - injection Hi as ->. lra.
  - specialize (IH n i Hi ltac:(lia)). lra.
Qed.

Lemma Rsum_drop_ge (l : list R) (n i : nat) (x : R) :
  Forall (λ y, 0 <= y)%R l → l !! i = Some x → (n ≤ i)%nat →
  (x <= Rsum (drop n l))%R.
Proof.
  intros Hl Hi Hn.
  assert (drop n l !! (i - n)%nat = Some x) as Hd.
  { rewrite lookup_drop. by replace (n + (i - n))%nat with i by lia. }
  rewrite <- (take_ge (drop n l) (S (i - n) `max` length (drop n l))) by lia.
  eapply Rsum_take_ge; [by apply Forall_drop | done | lia].
Qed.

(** With a zero budget and nonnegative entries the two truncation indices
    enclose every positive entry. *)
Lemma truncation_indices_zero (l : list R) (i : nat) (x : R) :
  Forall (λ y, 0 <= y)%R l → l !! i = Some x → (0 < x)%R →
  lower_truncation_index l 0 ≤ Z.of_nat i ≤ upper_truncation_index l 0.
Proof.
  intros Hl Hi Hx.
  destruct (lower_truncation_index_spec l 0 ltac:(lra)) as ([Hlo0 _] & Hlo & _).
  destruct (upper_truncation_index_spec l 0 ltac:(lra)) as ([Hhi0 _] & Hhi & _).
  split.
  - destruct (decide (lower_truncation_index l 0 ≤ Z.of_nat i)); [done|].
    pose proof (Rsum_take_ge l (Z.to_nat (lower_truncation_index l 0)) i x
                  Hl Hi ltac:(lia)). lra.
  - destruct (decide (Z.of_nat i ≤ upper_truncation_index l 0)); [done|].
    pose proof (Rsum_drop_ge l (Z.to_nat (upper_truncation_index l 0 + 1)) i x
                  Hl Hi ltac:(lia)). lra.
Qed.

Lemma unpack_no_truncation (l : list R) (offset k : Z) :
  Forall (λ y, 0 <= y)%R l →
  list_to_dictionary l offset 0 !! k =
    if decide (0 ≤ k - offset < Z.of_nat (length l)
               ∧ (item l (k - offset) > 0)%R)
    then Some (item l (k - offset)) else None.
Proof.
  intros Hl. rewrite list_to_dictionary_lookup.
  destruct (lower_truncation_index_spec l 0 ltac:(lra)) as ([Hlo0 _] & _).
  destruct (upper_truncation_index_spec l 0 ltac:(lra)) as ([_ Hhi0] & _).
  apply decide_ext. split.
  - intros [Hk Hpos]. split; [lia | done].
  - intros [Hk Hpos]. split; [|done].
    destruct (lookup_lt_is_Some_2 l (Z.to_nat (k - offset)) ltac:(lia))
      as [x Hx].
    pose proof (truncation_indices_zero l _ x Hl Hx) as Hidx.
    unfold item in Hpos. rewrite Hx in Hpos. simpl in Hpos.
    specialize (Hidx ltac:(lra)). lia.
Qed.

Lemma get0_unpack_no_truncation (l : list R) (offset : Z) (i : nat) :
  Forall (λ y, 0 <= y)%R l →
  get0 (list_to_dictionary l offset 0) (offset + Z.of_nat i) = coef l i.
Proof.
  intros Hl. unfold get0. rewrite unpack_no_truncation by done.
  replace (offset + Z.of_nat i - offset) with (Z.of_nat i) by lia.
  rewrite item_coef, Nat2Z.id.
  destruct (decide (i < length l)%nat) as [Hi|Hi].
  - destruct (lookup_lt_is_Some_2 l i Hi) as [x Hx].
    pose proof (proj1 (Forall_forall _ _) Hl x
                  (list_elem_of_lookup_2 _ _ _ Hx)) as Hx0.
    unfold coef. rewrite Hx. simpl.
    destruct (decide _) as [?|Hn]; [done|]. simpl.
    assert (¬ (x > 0)%R) by (intros ?; apply Hn; split; [lia | done]). lra.
  - rewrite coef_ge by lia. rewrite decide_False; [done|]. lia.
Qed.

(** *** Unpacking: how much mass is kept *)

Lemma total_mass_foldl_retain (l : list R) (offset : Z) (indices : list Z)
    (d : gmap Z R) :
  NoDup indices →
  (∀ i, i ∈ indices → d !! (i + offset) = None) →
  total_mass (foldl (retain l offset) d indices)
  = (total_mass d + Rsum ((λ i, Rmax 0 (item l i)) <$> indices))%R.
Proof.
  intros Hnd. revert d.
  induction Hnd as [|i indices Hi Hnd IH]; intros d Hfresh;
    cbn [foldl fmap list_fmap Rsum]; [lra|].
  rewrite IH.
  - unfold retain. destruct (decide (item l i > 0)%R).
    + rewrite total_mass_insert_fresh by (apply Hfresh; by left).
      rewrite Rmax_right by lra. lra.
    + rewrite Rmax_left by lra. lra.
  - intros j Hj. unfold retain. destruct (decide _).
    + rewrite lookup_insert_ne.
      * apply Hfresh. by right.
      * intros Heq. assert (i = j) as -> by lia. done.
    + apply Hfresh. by right.
Qed.

Lemma fmap_item_seqZ (l : list R) (lo : Z) (n : nat) :
  0 ≤ lo → (Z.to_nat lo + n ≤ length l)%nat →
  item l <$> seqZ lo (Z.of_nat n) = take n (drop (Z.to_nat lo) l).
Proof.
  intros Hlo Hn. apply list_eq. intros i.
  rewrite list_lookup_fmap.
  destruct (decide (i < n)%nat) as [Hi|Hi].
  - rewrite lookup_seqZ_lt by lia. rewrite lookup_take_lt, lookup_drop by lia.
    simpl. unfold item.
    replace (Z.to_nat (lo + Z.of_nat i)) with (Z.to_nat lo + i)%nat by lia.
    destruct (lookup_lt_is_Some_2 l (Z.to_nat lo + i) ltac:(lia)) as [x ->].
    done.
  - rewrite lookup_seqZ_ge by lia. by rewrite lookup_take_ge by lia.
Qed.

Lemma Rsum_take_drop (l : list R) (n : nat) :
  Rsum l = (Rsum (take n l) + Rsum (drop n l))%R.
Proof. by rewrite <- Rsum_app, take_drop. Qed.

Lemma Rmax_nonneg (l : list R) (indices : list Z) :
  Forall (λ y, 0 <= y)%R l →
  Rsum ((λ i, Rmax 0 (item l i)) <$> indices) = Rsum (item l <$> indices).
Proof.
  intros Hl. apply Rsum_fmap_ext. intros i _. apply Rmax_right.
  unfold item. destruct (l !! Z.to_nat i) as [x|] eqn:Hx; simpl; [|lra].
  exact (proj1 (Forall_forall _ _) Hl x (list_elem_of_lookup_2 _ _ _ Hx)).
Qed.

(** The mass kept by [list_to_dictionary] on nonnegative entries. *)
Lemma list_to_dictionary_total (l : list R) (offset : Z) (t : R) :
  Forall (λ y, 0 <= y)%R l → (0 <= t)%R →
  (Rsum l - t <= total_mass (list_to_dictionary l offset t) <= Rsum l)%R.
Proof.
  intros Hl Ht. unfold list_to_dictionary.
  destruct (lower_truncation_index_spec l t Ht) as ([Hlo0 Hlo1] & Hlo & _).
  destruct (upper_truncation_index_spec l t Ht) as ([Hhi0 Hhi1] & Hhi & _).
  set (lo := lower_truncation_index l t) in *.
  set (hi := upper_truncation_index l t) in *.
  rewrite total_mass_foldl_retain, total_mass_empty, Rmax_nonneg;
    [|done|apply NoDup_seqZ|intros; apply lookup_empty].
  pose proof (Rsum_take_drop l (Z.to_nat lo)) as Hsplit.
  assert (0 <= Rsum (take (Z.to_nat lo) l))%R
    by (by apply Rsum_nonneg, Forall_take).
  destruct (decide (lo ≤ hi + 1)) as [Hle|Hgt].
  - replace (hi + 1 - lo) with (Z.of_nat (Z.to_nat (hi + 1 - lo))) by lia.
    rewrite fmap_item_seqZ by lia.
    pose proof (Rsum_take_drop (drop (Z.to_nat lo) l)
                  (Z.to_nat (hi + 1 - lo))) as Hsplit2.
    rewrite drop_drop in Hsplit2.
    replace (Z.to_nat lo + Z.to_nat (hi + 1 - lo))%nat
      with (Z.to_nat (hi + 1)) in Hsplit2 by lia.
    assert (0 <= Rsum (drop (Z.to_nat (hi + 1)) l))%R
      by (by apply Rsum_nonneg, Forall_drop).
    lra.
  - rewrite seqZ_nil by lia. cbn [fmap list_fmap Rsum].
    pose proof (Rsum_nonneg l Hl).
    pose proof (Rsum_take_drop (drop (Z.to_nat (hi + 1)) l)
                  (Z.to_nat (lo - (hi + 1)))) as Hsplit2.
    rewrite drop_drop in Hsplit2.
    replace (Z.to_nat (hi + 1) + Z.to_nat (lo - (hi + 1)))%nat
      with (Z.to_nat lo) in Hsplit2 by lia.
    assert (0 <= Rsum (take (Z.to_nat (lo - (hi + 1)))
                         (drop (Z.to_nat (hi + 1)) l)))%R
      by (by apply Rsum_nonneg, Forall_take, Forall_drop).
    lra.
Qed.

Lemma nonneg_example (a b c : R) :
  (0 <= a)%R → (0 <= b)%R → (0 <= c)%R → Forall (λ y, 0 <= y)%R [a; b; c].
Proof. intros. by repeat apply Forall_cons_2. Qed.

(** X2: on a list of nonnegative entries and with a budget [t >= 0],
    [list_to_dictionary] stores at most the mass of the list and loses at
    most [t] of it; with the default budget [0] it stores all of it. *)
Theorem list_to_dictionary_mass (input_list : list R) (offset : Z)
    (tail_mass_truncation : R) :
  Forall (λ y, 0 <= y)%R input_list → (0 <= tail_mass_truncation)%R →
  (Rsum input_list - tail_mass_truncation
   <= total_mass (list_to_dictionary input_list offset tail_mass_truncation)
   <= Rsum input_list)%R
  ∧ total_mass (list_to_dictionary input_list offset 0) = Rsum input_list.
Proof.
  intros Hl Ht. split; [by apply list_to_dictionary_total|].
  pose proof (list_to_dictionary_total input_list offset 0 Hl ltac:(lra)).
  lra.
Qed.

Lemma list_to_dictionary_mass_witness :
  Forall (λ y, 0 <= y)%R [0.2; 0.5; 0.3]%R
  ∧ (0 <= 0.6)%R
  ∧ (Rsum [0.2; 0.5; 0.3]%R - 0.6
     <= total_mass (list_to_dictionary [0.2; 0.5; 0.3]%R 1 0.6)
     <= Rsum [0.2; 0.5; 0.3]%R)%R
  ∧ total_mass (list_to_dictionary [0.2; 0.5; 0.3]%R 1 0)
    = Rsum [0.2; 0.5; 0.3]%R.
Proof.
  assert (Forall (λ y, 0 <= y)%R [0.2; 0.5; 0.3]%R) as Hl
    by (apply nonneg_example; lra).
  assert (0 <= 0.6)%R as Ht by lra.
  split; [exact Hl|]. split; [exact Ht|].
  exact (list_to_dictionary_mass [0.2; 0.5; 0.3]%R 1 0.6 Hl Ht).
Defined.

(** X3: on a list of nonnegative entries whose sum is at most half the
    budget, [list_to_dictionary] returns the empty dictionary: both tails
    meet and every entry is truncated. *)
Theorem list_to_dictionary_all_truncated (input_list : list R) (offset : Z)
    (tail_mass_truncation : R) :
  Forall (λ y, 0 <= y)%R input_list →
  (Rsum input_list <= tail_mass_truncation / 2)%R →
  list_to_dictionary input_list offset tail_mass_truncation = ∅.
Proof.
  revert input_list tail_mass_truncation. intros l t.
  intros Hl Hsum. pose proof (Rsum_nonneg l Hl).
  unfold list_to_dictionary.
  destruct (lower_truncation_index_spec l t ltac:(lra)) as ([Hlo0 Hlo1] & _ & Hlo).
  destruct (upper_truncation_index_spec l t ltac:(lra)) as ([Hhi0 Hhi1] & _).
  assert (lower_truncation_index l t = Z.of_nat (length l)) as ->.
  { destruct (decide (lower_truncation_index l t < Z.of_nat (length l)))
      as [Hlt|]; [|lia].
    specialize (Hlo Hlt).
    pose proof (Rsum_take_drop l (Z.to_nat (lower_truncation_index l t) + 1))
      as Hsplit.
    assert (0 <= Rsum (drop (Z.to_nat (lower_truncation_index l t) + 1) l))%R
      by (by apply Rsum_nonneg, Forall_drop).
    lra. }
  by rewrite seqZ_nil by lia.
Qed.

Lemma list_to_dictionary_all_truncated_witness :
  Forall (λ y, 0 <= y)%R [0.4; 0.5; 0.1]%R
  ∧ (Rsum [0.4; 0.5; 0.1]%R <= 3 / 2)%R
  ∧ list_to_dictionary [0.4; 0.5; 0.1]%R 1 3 = ∅.
Proof.
  assert (Forall (λ y, 0 <= y)%R [0.4; 0.5; 0.1]%R) as Hl
    by (apply nonneg_example; lra).
  assert (Rsum [0.4; 0.5; 0.1]%R <= 3 / 2)%R as Hsum by (simpl; lra).
  split; [exact Hl|]. split; [exact Hsum|].
  exact (list_to_dictionary_all_truncated [0.4; 0.5; 0.1]%R 1 3 Hl Hsum).
Defined.

(** *** Sums over the keys of a dictionary and over its dense list *)

Lemma Rsum_indicator (l : list Z) (i : Z) (c : R) :
  NoDup l → i ∈ l →
  Rsum ((λ z, if decide (z = i) then c else 0%R) <$> l) = c.
Proof.
  induction 1 as [|z l Hz Hnd IH]; intros Hi; [by apply elem_of_nil in Hi|].
  cbn [fmap list_fmap Rsum]. destruct (decide (z = i)) as [->|Hne].
  - rewrite (Rsum_zero ((λ z, if decide (z = i) then c else 0%R) <$> l)); [lra|].
    apply Forall_fmap, Forall_forall. intros y Hy. simpl.
    rewrite decide_False; [done|]. by intros ->.
  - apply elem_of_cons in Hi as [->|Hi]; [done|]. rewrite IH by done. lra.
Qed.

(** A weighted sum over a range that contains every key is the weighted
    sum over the entries. *)
Lemma Rsum_dense (g : Z → R) (lo n : Z) (d : gmap Z R) :
  (∀ k, is_Some (d !! k) → lo ≤ k < lo + n) →
  Rsum ((λ z, get0 d z * g z)%R <$> seqZ lo n)
  = Rsum ((λ p : Z * R, p.2 * g p.1)%R <$> map_to_list d).
Proof.
  induction d as [|i x m Hi IH] using map_ind; intros Hdom.
  - rewrite map_to_list_empty. cbn [fmap list_fmap Rsum].
    apply Rsum_zero, Forall_fmap, Forall_forall. intros z _. simpl.
    unfold get0. rewrite lookup_empty. simpl. lra.
  - assert (Rsum ((λ p : Z * R, p.2 * g p.1)%R <$> map_to_list (<[i:=x]> m))
            = Rsum ((λ p : Z * R, p.2 * g p.1)%R <$> (i, x) :: map_to_list m))
      as -> by (apply Rsum_Permutation, fmap_Permutation;
                by apply map_to_list_insert).
    cbn [fmap list_fmap Rsum fst snd]. rewrite <- IH.
    2:{ intros k Hk. apply Hdom. rewrite lookup_insert.
        destruct (decide (i = k)); [by eexists | done]. }
    rewrite <- (Rsum_indicator (seqZ lo n) i (x * g i)%R).
    2:{ apply NoDup_seqZ. }
    2:{ apply elem_of_seqZ, Hdom. rewrite lookup_insert_eq. by eexists. }
    rewrite <- Rsum_fmap_plus. apply Rsum_fmap_ext. intros z _.
    unfold get0. rewrite lookup_insert.
    destruct (decide (i = z)) as [->|Hne].
    + rewrite decide_True by done. rewrite Hi. simpl. lra.
    + rewrite decide_False by (by intros ->). lra.
Qed.

Lemma Rsum_dense_total (lo n : Z) (d : gmap Z R) :
  (∀ k, is_Some (d !! k) → lo ≤ k < lo + n) →
  Rsum (get0 d <$> seqZ lo n) = total_mass d.
Proof.
  intros Hdom. unfold total_mass.
  rewrite (Rsum_fmap_ext (get0 d) (λ z, get0 d z * 1)%R)
    by (intros; lra).
  rewrite (Rsum_dense (λ _, 1%R)) by done.
  apply Rsum_fmap_ext. intros [k v] _. simpl. lra.
Qed.

Lemma Rsum_padd (a b : list R) : Rsum (padd a b) = (Rsum a + Rsum b)%R.
Proof.
  revert b. induction a as [|x a IH]; intros [|y b]; cbn [padd Rsum];
    try lra. rewrite IH. lra.
Qed.

Lemma Rsum_scale (x : R) (b : list R) :
  Rsum (Rmult x <$> b) = (x * Rsum b)%R.
Proof.
  induction b as [|y b IH]; cbn [fmap list_fmap Rsum]; [lra|].
  rewrite IH. lra.
Qed.

Lemma Rsum_fftconvolve (a b : list R) :
  Rsum (fftconvolve a b) = (Rsum a * Rsum b)%R.
Proof.
  induction a as [|x a IH]; [simpl; lra|].
  destruct b as [|y b]; [simpl; lra|].
  cbn [fftconvolve]. rewrite Rsum_padd. cbn [Rsum].
  rewrite IH, Rsum_scale. cbn [Rsum]. lra.
Qed.

Lemma fftconvolve_nonneg (a b : list R) :
  Forall (λ y, 0 <= y)%R a → Forall (λ y, 0 <= y)%R b →
  Forall (λ y, 0 <= y)%R (fftconvolve a b).
Proof.
  intros Ha Hb. apply Forall_lookup. intros i x Hx.
  destruct b as [|y b]; [by destruct a|].
  assert (coef (fftconvolve a (y :: b)) i = x) as <-
    by (unfold coef; by rewrite Hx).
  rewrite coef_fftconvolve by done. unfold convolution_sum.
  apply Rsum_nonneg, Forall_fmap, Forall_forall. intros j _. simpl.
  assert (∀ l k, Forall (λ y, 0 <= y)%R l → (0 <= coef l k)%R) as Hcoef.
  { intros l k Hl. unfold coef. destruct (l !! k) as [z|] eqn:Hz; simpl; [|lra].
    exact (proj1 (Forall_forall _ _) Hl z (list_elem_of_lookup_2 _ _ _ Hz)). }
  apply Rmult_le_pos; by apply Hcoef.
Qed.

Lemma dense_nonneg (d : gmap Z R) (lo n : Z) :
  nonnegative_masses d → Forall (λ y, 0 <= y)%R (get0 d <$> seqZ lo n).
Proof.
  intros Hd. apply Forall_fmap, Forall_forall. intros z _. simpl.
  by apply get0_nonneg.
Qed.

(** *** The convolution as a sum over keys *)

Lemma Rsum_seq_reverse (f : nat → R) (n : nat) :
  Rsum (f <$> seq 0 n) = Rsum ((λ j, f (n - 1 - j)%nat) <$> seq 0 n).
Proof.
  induction n as [|n IH]; [done|].
  rewrite seq_S at 1. rewrite fmap_app, Rsum_app. cbn [fmap list_fmap Rsum seq].
  rewrite <- fmap_S_seq, <- list_fmap_compose, IH.
  replace (S n - 1 - 0)%nat with n by lia.
  rewrite (Rsum_fmap_ext ((λ j, f (S n - 1 - j)%nat) ∘ S)
             (λ j, f (n - 1 - j)%nat)); [simpl; lra|].
  intros j _. simpl. f_equal. lia.
Qed.

Lemma convolution_sum_comm (a b : list R) (i : nat) :
  convolution_sum a b i = convolution_sum b a i.
Proof.
  unfold convolution_sum.
  rewrite (Rsum_seq_reverse (λ j, coef a j * coef b (i - j))%R (S i)).
  apply Rsum_fmap_ext. intros j Hj. apply elem_of_seq in Hj.
  replace (S i - 1 - j)%nat with (i - j)%nat by lia.
  replace (i - (i - j))%nat with j by lia. lra.
Qed.

Lemma fftconvolve_comm (a b : list R) : fftconvolve a b = fftconvolve b a.
Proof.
  destruct a as [|x a]; [by destruct b|]. destruct b as [|y b]; [done|].
  apply coef_ext.
  - rewrite !length_fftconvolve by done. lia.
  - intros i. rewrite !coef_fftconvolve by done. apply convolution_sum_comm.
Qed.

Lemma Rsum_seq_extend (f : nat → R) (n m : nat) :
  (∀ j, (n `min` m ≤ j < n `max` m)%nat → f j = 0%R) →
  Rsum (f <$> seq 0 n) = Rsum (f <$> seq 0 m).
Proof.
  assert (∀ n k, (∀ j, (n ≤ j < n + k)%nat → f j = 0%R) →
                 Rsum (f <$> seq 0 (n + k)) = Rsum (f <$> seq 0 n)) as Hext.
  { clear. intros n k Hz. rewrite seq_app, fmap_app, Rsum_app.
    rewrite (Rsum_zero (f <$> seq (0 + n) k)); [lra|].
    apply Forall_fmap, Forall_forall. intros j Hj. apply elem_of_seq in Hj.
    simpl. apply Hz. lia. }
  intros Hz. destruct (decide (n ≤ m)%nat).
  - replace m with (n + (m - n))%nat by lia. symmetry. apply Hext.
    intros j Hj. apply Hz. lia.
  - replace n with (m + (n - m))%nat at 1 by lia. apply Hext.
    intros j Hj. apply Hz. lia.
Qed.

Lemma coef_dense (d : gmap Z R) (lo n : Z) (j : nat) :
  (∀ k, is_Some (d !! k) → lo ≤ k < lo + n) →
  coef (get0 d <$> seqZ lo n) j = get0 d (lo + Z.of_nat j).
Proof.
  intros Hdom. unfold coef. rewrite list_lookup_fmap.
  destruct (decide (Z.of_nat j < n)) as [Hj|Hj].
  - by rewrite lookup_seqZ_lt by lia.
  - rewrite lookup_seqZ_ge by lia. simpl. unfold get0.
    destruct (d !! (lo + Z.of_nat j)) as [v|] eqn:Hv; [|done].
    specialize (Hdom _ ltac:(by eexists)). lia.
Qed.

Lemma get0_outside (d : gmap Z R) (lo n k : Z) :
  (∀ k, is_Some (d !! k) → lo ≤ k < lo + n) → ¬ (lo ≤ k < lo + n) →
  get0 d k = 0%R.
Proof.
  intros Hdom Hk. unfold get0. destruct (d !! k) as [v|] eqn:Hv; [|done].
  specialize (Hdom _ ltac:(by eexists)). lia.
Qed.

(** Entry [i] of the convolution of two dense lists, as a sum over the
    entries of the first dictionary. *)
Lemma convolution_sum_dense (d1 d2 : gmap Z R) (lo1 n1 lo2 n2 : Z) (i : nat) :
  (∀ k, is_Some (d1 !! k) → lo1 ≤ k < lo1 + n1) →
  (∀ k, is_Some (d2 !! k) → lo2 ≤ k < lo2 + n2) →
  convolution_sum (get0 d1 <$> seqZ lo1 n1) (get0 d2 <$> seqZ lo2 n2) i
  = Rsum ((λ p : Z * R, p.2 * get0 d2 (lo1 + lo2 + Z.of_nat i - p.1))%R
          <$> map_to_list d1).
Proof.
  intros Hd1 Hd2. unfold convolution_sum.
  set (F := λ j : nat,
         (get0 d1 (lo1 + Z.of_nat j)
          * get0 d2 (lo1 + lo2 + Z.of_nat i - (lo1 + Z.of_nat j)))%R).
  rewrite (Rsum_fmap_ext _ F).
  2:{ intros j Hj. apply elem_of_seq in Hj. unfold F.
      rewrite !coef_dense by done. do 2 f_equal. lia. }
  rewrite (Rsum_seq_extend F (S i) (Z.to_nat n1)).
  2:{ intros j Hj. unfold F.
      destruct (decide (Z.of_nat j < n1)).
      - rewrite (get0_outside d2 lo2 n2) by (done || lia). lra.
      - rewrite (get0_outside d1 lo1 n1) by (done || lia). lra. }
  rewrite <- (Rsum_dense (λ z, get0 d2 (lo1 + lo2 + Z.of_nat i - z)) lo1 n1)
    by done.
  unfold seqZ. rewrite <- list_fmap_compose.
  apply Rsum_fmap_ext. intros j _. unfold F. simpl.
  by replace (Z.of_nat j + lo1) with (lo1 + Z.of_nat j) by lia.
Qed.

(** ** The codec and the convolution of dictionaries *)

(** X1: [dictionary_to_list] raises [ValueError] on the empty dictionary and
    on no other; otherwise the offset is the smallest key, the list runs up
    to the largest key, both end entries are stored keys, and entry [i] is
    [d.get(offset + i, 0)]. *)
Theorem dictionary_to_list_contract (d : gmap Z R) :
  (d = ∅ ∧ dictionary_to_list d = Raise ValueError)
  ∨ ∃ offset result_list,
      dictionary_to_list d = Ok (offset, result_list)
      ∧ (0 < length result_list)%nat
      ∧ is_Some (d !! offset)
      ∧ is_Some (d !! (offset + Z.of_nat (length result_list) - 1))
      ∧ (∀ k, is_Some (d !! k) →
              offset ≤ k < offset + Z.of_nat (length result_list))
      ∧ ∀ i, (i < length result_list)%nat →
             result_list !! i = Some (get0 d (offset + Z.of_nat i)).
Proof.
  destruct (decide (d = ∅)) as [->|Hne].
  - left. split; [done | apply dictionary_to_list_empty].
  - right.
    destruct (dictionary_to_list_spec d Hne)
      as (lo & hi & _ & _ & Hle & Hlo & Hhi & Hdom & ->).
    exists lo, (get0 d <$> seqZ lo (hi + 1 - lo)).
    rewrite length_fmap, length_seqZ.
    split; [done|]. split; [lia|]. split; [done|].
    split; [by replace (lo + Z.of_nat (Z.to_nat (hi + 1 - lo)) - 1) with hi by lia|].
    split.
    + intros k Hk. specialize (Hdom k Hk). lia.
    + intros i Hi. rewrite list_lookup_fmap, lookup_seqZ_lt by lia. done.
Qed.

(** A list with positive ends, unpacked at budget [0] and packed again,
    comes back with its offset. *)
Lemma pack_unpack_ends (l : list R) (offset : Z) :
  positive_ends l →
  dictionary_to_list (list_to_dictionary l offset 0) = Ok (offset, l).
Proof.
  intros (Hnn & Hfirst & Hlast).
  set (d := list_to_dictionary l offset 0).
  assert (0 < length l)%nat as Hlen.
  { destruct l; [|cbn; lia]. rewrite coef_nil in Hfirst. lra. }
  assert (∀ i, get0 d (offset + Z.of_nat i) = coef l i) as Hget
    by (intros; by apply get0_unpack_no_truncation).
  assert (∀ i, (0 < coef l i)%R → (i < length l)%nat
               → is_Some (d !! (offset + Z.of_nat i))) as Hstored.
  { intros i Hi Hlt. subst d. rewrite unpack_no_truncation by done.
    replace (offset + Z.of_nat i - offset) with (Z.of_nat i) by lia.
    rewrite item_coef, Nat2Z.id.
    rewrite decide_True; [by eexists|]. split; [lia | lra]. }
  assert (∀ k, is_Some (d !! k)
               → offset ≤ k ≤ offset + Z.of_nat (length l) - 1) as Hdom.
  { intros k [v Hk]. subst d. rewrite unpack_no_truncation in Hk by done.
    destruct (decide _) as [[Hr _]|]; [|done]. lia. }
  rewrite (dictionary_to_list_between d offset
             (offset + Z.of_nat (length l) - 1)).
  - f_equal. f_equal. apply coef_ext.
    + rewrite length_fmap, length_seqZ. lia.
    + intros i. rewrite coef_dense; [done|].
      intros k Hk. specialize (Hdom k Hk). lia.
  - replace offset with (offset + Z.of_nat 0) at 1 by lia.
    apply Hstored; [done | lia].
  - replace (offset + Z.of_nat (length l) - 1)
      with (offset + Z.of_nat (length l - 1)) by lia.
    apply Hstored; [done | lia].
  - done.
Qed.

(** X4: a list of nonnegative entries whose first and last entries are
    positive, unpacked with [list_to_dictionary] at budget [0] and packed
    again with [dictionary_to_list], comes back with its offset: the zeros
    inside the list are restored. *)
Theorem list_round_trip (x : R) (l : list R) (offset : Z) :
  Forall (λ y, 0 <= y)%R (x :: l) → (0 < x)%R →
  (0 < default x (last l))%R →
  dictionary_to_list (list_to_dictionary (x :: l) offset 0)
  = Ok (offset, x :: l).
Proof.
  intros Hnn Hx Hlast. apply pack_unpack_ends.
  split; [done|]. split; [done|].
  unfold coef. cbn [length].
  replace (S (length l) - 1)%nat with (length l) by lia.
  destruct l as [|y l']; [done|].
  rewrite last_lookup in Hlast. cbn [length Nat.pred] in Hlast.
  change ((x :: y :: l') !! length (y :: l'))
    with ((y :: l') !! length l').
  destruct (lookup_lt_is_Some_2 (y :: l') (length l') ltac:(cbn; lia))
    as [z Hz].
  rewrite Hz in Hlast |- *. exact Hlast.
Qed.

Lemma list_round_trip_witness :
  Forall (λ y, 0 <= y)%R [3; 0; 7]%R
  ∧ (0 < 3)%R
  ∧ (0 < default 3 (last [0; 7]))%R
  ∧ dictionary_to_list (list_to_dictionary [3; 0; 7]%R 5 0)
    = Ok (5, [3; 0; 7]%R).
Proof.
  assert (Forall (λ y, 0 <= y)%R [3; 0; 7]%R) as Hl
    by (apply nonneg_example; lra).
  assert (0 < 3)%R as Hx by lra.
  assert (0 < default 3 (last [0; 7]))%R as Hlast by (simpl; lra).
  split; [exact Hl|]. split; [exact Hx|]. split; [exact Hlast|].
  exact (list_round_trip 3 [0; 7]%R 5 Hl Hx Hlast).
Defined.

(** The result of [convolve_dictionary] on two nonempty dictionaries. *)
Lemma convolve_dictionary_dense (d1 d2 : gmap Z R) (t : R) :
  d1 ≠ ∅ → d2 ≠ ∅ →
  ∃ lo1 n1 lo2 n2,
    0 < n1 ∧ 0 < n2
    ∧ (∀ k, is_Some (d1 !! k) → lo1 ≤ k < lo1 + n1)
    ∧ (∀ k, is_Some (d2 !! k) → lo2 ≤ k < lo2 + n2)
    ∧ convolve_dictionary d1 d2 t
      = Ok (list_to_dictionary
              (fftconvolve (get0 d1 <$> seqZ lo1 n1) (get0 d2 <$> seqZ lo2 n2))
              (lo1 + lo2) t).
Proof.
  intros H1 H2. unfold convolve_dictionary.
  destruct (dictionary_to_list_spec d1 H1)
    as (lo1 & hi1 & _ & _ & Hle1 & _ & _ & Hd1 & ->).
  destruct (dictionary_to_list_spec d2 H2)
    as (lo2 & hi2 & _ & _ & Hle2 & _ & _ & Hd2 & ->).
  exists lo1, (hi1 + 1 - lo1), lo2, (hi2 + 1 - lo2). cbn.
  split; [lia|]. split; [lia|].
  split; [|split; [|done]]; intros k Hk.
  - specialize (Hd1 k Hk). lia.
  - specialize (Hd2 k Hk). lia.
Qed.

Lemma two_keys_non_empty (k1 k2 : Z) (v1 v2 : R) :
  ({[k1 := v1; k2 := v2]} : gmap Z R) ≠ ∅.
Proof. apply insert_non_empty. Qed.

Lemma two_keys_nonneg (k1 k2 : Z) (v1 v2 : R) :
  (0 <= v1)%R → (0 <= v2)%R →
  nonnegative_masses ({[k1 := v1; k2 := v2]} : gmap Z R).
Proof.
  intros H1 H2 k v Hk. apply lookup_insert_Some in Hk as [[_ <-]|[_ Hk]];
    [done|].
  by apply lookup_singleton_Some in Hk as [_ <-].
Qed.

(** Entry [key] of the dictionary unpacked from the convolution of two
    dense lists. *)
Lemma unpacked_convolution_entry (d1 d2 : gmap Z R) (lo1 n1 lo2 n2 key : Z) :
  0 < n2 →
  (∀ k, is_Some (d1 !! k) → lo1 ≤ k < lo1 + n1) →
  (∀ k, is_Some (d2 !! k) → lo2 ≤ k < lo2 + n2) →
  nonnegative_masses d1 → nonnegative_masses d2 →
  get0 (list_to_dictionary
          (fftconvolve (get0 d1 <$> seqZ lo1 n1) (get0 d2 <$> seqZ lo2 n2))
          (lo1 + lo2) 0) key
  = convolution_entry d1 d2 key.
Proof.
  intros Hn2 Hd1 Hd2 Hn1' Hn2'.
  set (c := fftconvolve _ _).
  assert (Forall (λ y, 0 <= y)%R c) as Hc
    by (apply fftconvolve_nonneg; by apply dense_nonneg).
  assert (get0 d2 <$> seqZ lo2 n2 ≠ []) as Hne2.
  { intros Hnil. apply (f_equal length) in Hnil.
    rewrite length_fmap, length_seqZ in Hnil. cbn in Hnil. lia. }
  unfold convolution_entry.
  destruct (decide (lo1 + lo2 ≤ key)) as [Hkey|Hkey].
  - replace key with (lo1 + lo2 + Z.of_nat (Z.to_nat (key - (lo1 + lo2))))
      by lia.
    rewrite get0_unpack_no_truncation by done. subst c.
    rewrite coef_fftconvolve by done.
    by apply convolution_sum_dense.
  - unfold get0 at 1. rewrite unpack_no_truncation by done.
    rewrite decide_False by lia. cbn. symmetry.
    apply Rsum_zero, Forall_fmap, Forall_forall. intros [k1 v1] Hin. simpl.
    apply elem_of_map_to_list in Hin.
    pose proof (Hd1 k1 ltac:(by eexists)).
    rewrite (get0_outside d2 lo2 n2) by (done || lia). lra.
Qed.

(** X5: without truncation, [convolve_dictionary] of two nonempty
    dictionaries of nonnegative masses holds at every key the sum, over
    [key1 + key2 = key], of [dictionary1[key1] * dictionary2[key2]]. *)
Theorem convolve_dictionary_entries (d1 d2 : gmap Z R) :
  d1 ≠ ∅ → d2 ≠ ∅ → nonnegative_masses d1 → nonnegative_masses d2 →
  ∃ d, convolve_dictionary d1 d2 0 = Ok d
       ∧ ∀ key, get0 d key = convolution_entry d1 d2 key.
Proof.
  intros H1 H2 Hn1 Hn2.
  destruct (convolve_dictionary_dense d1 d2 0 H1 H2)
    as (lo1 & n1 & lo2 & n2 & Hn1' & Hn2' & Hd1 & Hd2 & ->).
  eexists. split; [done|]. intros key.
  by apply unpacked_convolution_entry.
Qed.

Lemma convolve_dictionary_entries_witness :
  ({[1 := 2%R; 3 := 4%R]} : gmap Z R) ≠ ∅
  ∧ ({[2 := 3%R; 4 := 6%R]} : gmap Z R) ≠ ∅
  ∧ nonnegative_masses ({[1 := 2%R; 3 := 4%R]} : gmap Z R)
  ∧ nonnegative_masses ({[2 := 3%R; 4 := 6%R]} : gmap Z R)
  ∧ ∃ d, convolve_dictionary {[1 := 2%R; 3 := 4%R]}
           {[2 := 3%R; 4 := 6%R]} 0 = Ok d
         ∧ ∀ key, get0 d key
                  = convolution_entry {[1 := 2%R; 3 := 4%R]}
                      {[2 := 3%R; 4 := 6%R]} key.
Proof.
  assert (nonnegative_masses ({[1 := 2%R; 3 := 4%R]} : gmap Z R)) as H1
    by (apply two_keys_nonneg; lra).
  assert (nonnegative_masses ({[2 := 3%R; 4 := 6%R]} : gmap Z R)) as H2
    by (apply two_keys_nonneg; lra).
  split; [apply two_keys_non_empty|]. split; [apply two_keys_non_empty|].
  split; [exact H1|]. split; [exact H2|].
  exact (convolve_dictionary_entries _ _ (two_keys_non_empty 1 3 2 4)
           (two_keys_non_empty 2 4 3 6) H1 H2).
Defined.

Lemma convolve_dictionary_comm_lemma (d1 d2 : gmap Z R) (t : R) :
  convolve_dictionary d1 d2 t = convolve_dictionary d2 d1 t.
Proof.
  unfold convolve_dictionary.
  destruct (dictionary_to_list d1) as [[min1 list1]|e1] eqn:E1;
    destruct (dictionary_to_list d2) as [[min2 list2]|e2] eqn:E2; cbn.
  - by rewrite fftconvolve_comm, Z.add_comm.
  - done.
  - done.
  - assert (∀ d e, dictionary_to_list d = Raise e → e = ValueError) as Herr.
    { intros d e. destruct (decide (d = ∅)) as [->|Hne].
      - rewrite dictionary_to_list_empty. congruence.
      - destruct (dictionary_to_list_spec d Hne)
          as (? & ? & _ & _ & _ & _ & _ & _ & ->). done. }
    by rewrite (Herr _ _ E1), (Herr _ _ E2).
Qed.

(** The mass kept by [convolve_dictionary]. *)
Lemma convolve_dictionary_total (d1 d2 : gmap Z R) (t : R) :
  d1 ≠ ∅ → d2 ≠ ∅ → nonnegative_masses d1 → nonnegative_masses d2 →
  (0 <= t)%R →
  ∃ d, convolve_dictionary d1 d2 t = Ok d
       ∧ (total_mass d1 * total_mass d2 - t <= total_mass d
          <= total_mass d1 * total_mass d2)%R.
Proof.
  intros H1 H2 Hn1 Hn2 Ht.
  destruct (convolve_dictionary_dense d1 d2 t H1 H2)
    as (lo1 & n1 & lo2 & n2 & _ & _ & Hd1 & Hd2 & ->).
  eexists. split; [done|].
  pose proof (list_to_dictionary_total
                (fftconvolve (get0 d1 <$> seqZ lo1 n1)
                   (get0 d2 <$> seqZ lo2 n2)) (lo1 + lo2) t
                ltac:(apply fftconvolve_nonneg; by apply dense_nonneg) Ht)
    as Htotal.
  by rewrite Rsum_fftconvolve, !Rsum_dense_total in Htotal.
Qed.

(** X6: on two nonempty dictionaries of nonnegative masses and with a
    budget [t >= 0], [convolve_dictionary] stores at most the product of the
    two total masses and loses at most [t] of it; nothing is lost at
    [t = 0]. *)
Theorem convolve_dictionary_mass (dictionary1 dictionary2 : gmap Z R)
    (tail_mass_truncation : R) :
  dictionary1 ≠ ∅ → dictionary2 ≠ ∅ →
  nonnegative_masses dictionary1 → nonnegative_masses dictionary2 →
  (0 <= tail_mass_truncation)%R →
  ∃ d, convolve_dictionary dictionary1 dictionary2 tail_mass_truncation
       = Ok d
       ∧ (total_mass dictionary1 * total_mass dictionary2
          - tail_mass_truncation
          <= total_mass d
          <= total_mass dictionary1 * total_mass dictionary2)%R
       ∧ (tail_mass_truncation = 0%R →
          total_mass d
          = (total_mass dictionary1 * total_mass dictionary2)%R).
Proof.
  intros H1 H2 Hn1 Hn2 Ht.
  destruct (convolve_dictionary_total dictionary1 dictionary2
              tail_mass_truncation H1 H2 Hn1 Hn2 Ht) as (d & Hd & Hmass).
  exists d. split; [done|]. split; [done|]. intros Hz. lra.
Qed.

Lemma convolve_dictionary_mass_witness :
  ({[1%Z := 0.4%R; 2%Z := 0.6%R]} : gmap Z R) ≠ ∅
  ∧ ({[1%Z := 0.7%R; 3%Z := 0.3%R]} : gmap Z R) ≠ ∅
  ∧ nonnegative_masses ({[1%Z := 0.4%R; 2%Z := 0.6%R]} : gmap Z R)
  ∧ nonnegative_masses ({[1%Z := 0.7%R; 3%Z := 0.3%R]} : gmap Z R)
  ∧ (0 <= 0.57)%R
  ∧ ∃ d, convolve_dictionary {[1%Z := 0.4%R; 2%Z := 0.6%R]}
           {[1%Z := 0.7%R; 3%Z := 0.3%R]} 0.57 = Ok d
         ∧ (total_mass {[1%Z := 0.4%R; 2%Z := 0.6%R]}
            * total_mass {[1%Z := 0.7%R; 3%Z := 0.3%R]} - 0.57
            <= total_mass d
            <= total_mass {[1%Z := 0.4%R; 2%Z := 0.6%R]}
               * total_mass {[1%Z := 0.7%R; 3%Z := 0.3%R]})%R
         ∧ (0.57%R = 0%R →
            total_mass d
            = (total_mass {[1%Z := 0.4%R; 2%Z := 0.6%R]}
               * total_mass {[1%Z := 0.7%R; 3%Z := 0.3%R]})%R).
Proof.
  assert (nonnegative_masses ({[1%Z := 0.4%R; 2%Z := 0.6%R]} : gmap Z R)) as H1
    by (apply two_keys_nonneg; lra).
  assert (nonnegative_masses ({[1%Z := 0.7%R; 3%Z := 0.3%R]} : gmap Z R)) as H2
    by (apply two_keys_nonneg; lra).
  assert (0 <= 0.57)%R as Ht by lra.
  split; [apply two_keys_non_empty|]. split; [apply two_keys_non_empty|].
  split; [exact H1|]. split; [exact H2|]. split; [exact Ht|].
  exact (convolve_dictionary_mass _ _ 0.57 (two_keys_non_empty 1 2 0.4 0.6)
           (two_keys_non_empty 1 3 0.7 0.3) H1 H2 Ht).
Defined.

(** X7: [compose] is symmetric in its two distributions, in its result and
    in its errors. *)
Theorem compose_comm (p q : PrivacyLossDistribution) (t : R) :
  compose p q t = compose q p t.
Proof.
  unfold compose.
  destruct (decide (value_discretization_interval p
                    = value_discretization_interval q)) as [Hint|Hint].
  2:{ rewrite !decide_True by congruence. done. }
  rewrite (decide_False (P := value_discretization_interval p ≠ _))
    by (intros ?; done).
  rewrite (decide_False (P := value_discretization_interval q ≠ _))
    by (intros ?; done).
  destruct (decide (pessimistic_estimate p = pessimistic_estimate q))
    as [Hpess|Hpess].
  2:{ rewrite !decide_True by congruence. done. }
  rewrite (decide_False (P := pessimistic_estimate p ≠ _)) by (intros ?; done).
  rewrite (decide_False (P := pessimistic_estimate q ≠ _)) by (intros ?; done).
  rewrite (convolve_dictionary_comm_lemma
             (rounded_probability_mass_function p)).
  destruct (convolve_dictionary _ _ _) as [d|e]; [|done]. cbn.
  rewrite Hint, Hpess. do 2 f_equal.
  destruct (pessimistic_estimate q); lra.
Qed.

(** X8: composing two distributions of nonnegative masses that each account
    for mass one gives a distribution that accounts for at least one and at
    most [1 + t] when pessimistic, and for at most one and at least [1 - t]
    when optimistic: the pessimistic estimate never loses mass. *)
Theorem compose_accounted_mass (p q : PrivacyLossDistribution) (t : R) :
  rounded_probability_mass_function p ≠ ∅ →
  rounded_probability_mass_function q ≠ ∅ →
  nonnegative_masses (rounded_probability_mass_function p) →
  nonnegative_masses (rounded_probability_mass_function q) →
  value_discretization_interval p = value_discretization_interval q →
  pessimistic_estimate p = pessimistic_estimate q →
  accounted_mass p = 1%R → accounted_mass q = 1%R → (0 <= t)%R →
  ∃ r, compose p q t = Ok r
       ∧ if pessimistic_estimate p
         then (1 <= accounted_mass r <= 1 + t)%R
         else (1 - t <= accounted_mass r <= 1)%R.
Proof.
  intros Hp Hq Hnp Hnq Hint Hpess Hmp Hmq Ht.
  destruct (compose_ok p q t Hp Hq Hint Hpess) as (d & Hd & ->).
  destruct (convolve_dictionary_total _ _ t Hp Hq Hnp Hnq Ht)
    as (d' & Hd' & Htotal).
  rewrite Hd in Hd'. injection Hd' as <-.
  eexists. split; [done|].
  unfold accounted_mass in *. cbn. unfold composed_infinity_mass.
  set (Tp := total_mass (rounded_probability_mass_function p)) in *.
  set (Tq := total_mass (rounded_probability_mass_function q)) in *.
  assert (Tp * Tq = 1 - (infinity_mass p + infinity_mass q
                         - infinity_mass p * infinity_mass q))%R as Hprod
    by (replace Tp with (1 - infinity_mass p)%R by lra;
        replace Tq with (1 - infinity_mass q)%R by lra; lra).
  destruct (pessimistic_estimate p); lra.
Qed.

Lemma accounted_mass_identity (interval : R) :
  accounted_mass (identity interval) = 1%R.
Proof.
  unfold accounted_mass. cbn. rewrite total_mass_singleton. lra.
Qed.

Lemma compose_accounted_mass_witness :
  rounded_probability_mass_function (identity 1) ≠ ∅
  ∧ nonnegative_masses (rounded_probability_mass_function (identity 1))
  ∧ value_discretization_interval (identity 1)
    = value_discretization_interval (identity 1)
  ∧ pessimistic_estimate (identity 1) = pessimistic_estimate (identity 1)
  ∧ accounted_mass (identity 1) = 1%R
  ∧ (0 <= 0.5)%R
  ∧ ∃ r, compose (identity 1) (identity 1) 0.5 = Ok r
         ∧ if pessimistic_estimate (identity 1)
           then (1 <= accounted_mass r <= 1 + 0.5)%R
           else (1 - 0.5 <= accounted_mass r <= 1)%R.
Proof.
  assert (0 <= 0.5)%R as Ht by lra.
  split; [exact (identity_non_empty 1)|].
  split; [exact (identity_masses_nonneg 1)|].
  split; [reflexivity|]. split; [reflexivity|].
  split; [exact (accounted_mass_identity 1)|]. split; [exact Ht|].
  exact (compose_accounted_mass (identity 1) (identity 1) 0.5
           (identity_non_empty 1) (identity_non_empty 1)
           (identity_masses_nonneg 1) (identity_masses_nonneg 1)
           eq_refl eq_refl (accounted_mass_identity 1)
           (accounted_mass_identity 1) Ht).
Defined.

(** ** The constructors *)

(** X9: take a nonzero interval, a number of buckets that has a finite
    double, and a privacy loss whose quotient by the interval has one.
    Then [from_randomized_response] raises [ValueError] unless
    [0 < noise_parameter < 1] and [num_buckets > 1]; it raises
    [ZeroDivisionError] when [noise_parameter / num_buckets] underflows to
    zero, and [OverflowError] when the quotient of its two probabilities
    has no finite double; otherwise it returns a distribution with no mass
    at infinity whose stored masses add up to one. *)
Theorem from_randomized_response_contract (noise_parameter : R)
    (num_buckets : Z) (pessimistic : bool) (interval : R) :
  let pn := (noise_parameter / IZR num_buckets)%R in
  let pe := (1 - noise_parameter + pn)%R in
  interval ≠ 0%R →
  (IZR num_buckets < float_max)%R →
  (Rabs (ln (pe / pn) / interval) < float_max)%R →
  if decide ((0 < noise_parameter < 1)%R ∧ 1 < num_buckets)
  then
    if decide (pn <= float_tiny)%R
    then from_randomized_response noise_parameter num_buckets pessimistic
           interval = Raise ZeroDivisionError
    else if decide (float_max <= pe / pn)%R
    then from_randomized_response noise_parameter num_buckets pessimistic
           interval = Raise OverflowError
    else ∃ pld,
           from_randomized_response noise_parameter num_buckets pessimistic
             interval = Ok pld
           ∧ total_mass (rounded_probability_mass_function pld) = 1%R
           ∧ infinity_mass pld = 0%R
           ∧ value_discretization_interval pld = interval
           ∧ pessimistic_estimate pld = pessimistic
  else from_randomized_response noise_parameter num_buckets pessimistic
         interval = Raise ValueError.
Proof.
  intros pn pe Hint _ _.
  destruct (decide ((0 < noise_parameter < 1)%R ∧ 1 < num_buckets))
    as [[Hp Hk]|Hbad].
  - assert (2 <= IZR num_buckets)%R as Hk2 by (apply IZR_le; lia).
    assert (0 < pn)%R as Hpn by (apply Rdiv_lt_0_compat; lra).
    destruct (decide (pn <= float_tiny)%R) as [Hunder|Htiny].
    { unfold from_randomized_response.
      rewrite decide_False by lra. rewrite decide_False by lia.
      fold pn. unfold underflow.
      rewrite decide_True by (rewrite Rabs_right; lra).
      by rewrite log_quotient_zero. }
    apply Rnot_le_lt in Htiny.
    destruct (decide (float_max <= pe / pn)%R) as [Hover|Hmax].
    { unfold from_randomized_response.
      rewrite decide_False by lra. rewrite decide_False by lia.
      fold pn. rewrite (underflow_id pn) by done. fold pe.
      assert (pn ≠ 0%R) as Hne by lra.
      rewrite (log_quotient_overflow pe pn Hne Hover). cbn.
      by rewrite decide_False. }
    apply Rnot_le_lt in Hmax.
    rewrite from_randomized_response_returns by done.
    eexists. split; [done|]. cbn. split; [|done].
    rewrite !total_mass_add_mass, total_mass_empty.
    field. lra.
  - unfold from_randomized_response.
    destruct (decide (noise_parameter <= 0 ∨ noise_parameter >= 1)%R);
      [done|].
    destruct (decide (num_buckets ≤ 1)); [done|].
    destruct Hbad. split; [lra | lia].
Qed.

Lemma ln_lt_self (x : R) : (0 < x)%R → (0 < ln x → ln x < x)%R.
Proof.
  intros Hx Hln. pose proof (exp_ineq1 (ln x) ltac:(lra)) as Hexp.
  rewrite exp_ln in Hexp by done. lra.
Qed.

Lemma from_randomized_response_contract_witness :
  let pn := (0.5 / IZR 3)%R in
  let pe := (1 - 0.5 + pn)%R in
  (1 ≠ 0)%R
  ∧ (IZR 3 < float_max)%R
  ∧ (Rabs (ln (pe / pn) / 1) < float_max)%R
  ∧ if decide ((0 < 0.5 < 1)%R ∧ 1 < 3)
    then
      if decide (pn <= float_tiny)%R
      then from_randomized_response 0.5 3 true 1 = Raise ZeroDivisionError
      else if decide (float_max <= pe / pn)%R
      then from_randomized_response 0.5 3 true 1 = Raise OverflowError
      else ∃ pld,
             from_randomized_response 0.5 3 true 1 = Ok pld
             ∧ total_mass (rounded_probability_mass_function pld) = 1%R
             ∧ infinity_mass pld = 0%R
             ∧ value_discretization_interval pld = 1%R
             ∧ pessimistic_estimate pld = true
    else from_randomized_response 0.5 3 true 1 = Raise ValueError.
Proof.
  intros pn pe.
  assert (1 ≠ 0)%R as Hint by lra.
  assert (IZR 3 < float_max)%R as Hk by (unfold float_max; lra).
  assert (Rabs (ln (pe / pn) / 1) < float_max)%R as Hq.
  { replace (pe / pn)%R with 4%R by (unfold pe, pn; lra).
    assert (0 < ln 4)%R as Hpos
      by (rewrite <- ln_1; apply ln_increasing; lra).
    pose proof (ln_lt_self 4 ltac:(lra) Hpos).
    rewrite Rabs_right by lra. unfold float_max. lra. }
  split; [exact Hint|]. split; [exact Hk|]. split; [exact Hq|].
  exact (from_randomized_response_contract 0.5 3 true 1 Hint Hk Hq).
Defined.

Lemma Zceil_opp_ne (x : R) : x ≠ 0%R → Zceil x ≠ Zceil (- x).
Proof.
  intros Hx Heq.
  pose proof (Zceil_bound x) as [H1 H2].
  pose proof (Zceil_bound (- x)) as [H3 H4]. rewrite <- Heq in H3, H4.
  assert (0 < Zceil x) as Hpos by (apply lt_IZR; lra).
  assert (1 ≤ Zceil x) as Hone by lia. apply IZR_le in Hone. lra.
Qed.

(** The two masses of [from_privacy_parameters] when the smaller one does
    not underflow. *)
Lemma privacy_parameters_masses (eps dlt : R) :
  (0 <= eps)%R → (0 <= dlt <= 1)%R →
  (dlt = 1%R ∨ (float_tiny < (1 - dlt) / (1 + exp eps))%R) →
  underflow ((1 - dlt) / (1 + exp eps)) = ((1 - dlt) / (1 + exp eps))%R
  ∧ underflow ((1 - dlt) / (1 + exp (- eps)))
    = ((1 - dlt) / (1 + exp (- eps)))%R.
Proof.
  intros Heps Hdlt [->|Htiny].
  { replace (1 - 1)%R with 0%R by lra. unfold Rdiv. rewrite !Rmult_0_l.
    pose proof (underflow_bounds 0 ltac:(lra)).
    assert (underflow 0 = 0%R) as -> by lra. done. }
  pose proof (exp_pos eps). pose proof (exp_pos (- eps)).
  split; [by apply underflow_id|]. apply underflow_id.
  apply Rlt_le_trans with ((1 - dlt) / (1 + exp eps))%R; [done|].
  unfold Rdiv. apply Rmult_le_compat_l; [lra|].
  apply Rinv_le_contravar; [lra|].
  assert (exp (- eps) <= exp eps)%R; [|lra].
  destruct Heps as [Hlt| <-]; [|rewrite Ropp_0; lra].
  left. apply exp_increasing. lra.
Qed.

(** X10: for [epsilon >= 0] with [e^epsilon] below [float_max],
    [0 <= delta <= 1], a nonzero interval by which the quotient of
    [epsilon] neither overflows nor underflows, and a mass
    [(1 - delta) / (1 + e^epsilon)] that does not underflow,
    [from_privacy_parameters] returns a pessimistic distribution with
    [delta] at infinity.  For [epsilon > 0] it accounts for mass one.  For
    [epsilon = 0] the two buckets share key [0], the second entry of the
    dictionary replaces the first, and the only stored mass is
    [(1 - delta) / 2]. *)
Theorem from_privacy_parameters_mass (eps dlt interval : R) :
  (0 <= eps)%R → (exp eps < float_max)%R → (0 <= dlt <= 1)%R →
  interval ≠ 0%R →
  (eps = 0%R ∨ (float_tiny < Rabs (eps / interval) < float_max)%R) →
  (dlt = 1%R ∨ (float_tiny < (1 - dlt) / (1 + exp eps))%R) →
  ∃ pld,
    from_privacy_parameters {| epsilon := eps; delta := dlt |} interval
    = Ok pld
    ∧ infinity_mass pld = dlt
    ∧ pessimistic_estimate pld = true
    ∧ ((0 < eps)%R → accounted_mass pld = 1%R)
    ∧ (eps = 0%R →
       rounded_probability_mass_function pld = {[0 := ((1 - dlt) / 2)%R]}).
Proof.
  intros Heps Hmax Hdlt Hint _ Htiny.
  rewrite from_privacy_parameters_returns by done.
  destruct (privacy_parameters_masses eps dlt Heps Hdlt Htiny) as [-> ->].
  pose proof (exp_pos eps) as HE. pose proof (exp_pos (- eps)) as HE'.
  eexists. split; [done|]. cbn. split; [done|]. split; [done|]. split.
  - intros Hpos. unfold accounted_mass. cbn.
    assert (Zceil (eps / interval) ≠ Zceil (- eps / interval)) as Hne.
    { replace (- eps / interval)%R with (- (eps / interval))%R
        by (field; done).
      apply Zceil_opp_ne. intros Hz.
      apply (f_equal (λ x, x * interval)%R) in Hz.
      unfold Rdiv in Hz. rewrite Rmult_assoc, Rinv_l, Rmult_0_l in Hz by done.
      lra. }
    rewrite total_mass_insert_fresh.
    2:{ rewrite lookup_insert_ne by done. apply lookup_empty. }
    rewrite total_mass_insert_fresh, total_mass_empty by apply lookup_empty.
    rewrite exp_Ropp. field. lra.
  - intros ->.
    replace (- 0 / interval)%R with 0%R by (field; done).
    replace (0 / interval)%R with 0%R by (field; done).
    change 0%R with (IZR 0) at 1 2. rewrite <- (Ropp_0) at 1.
    change (- 0)%R with (- IZR 0)%R.
    unfold Zceil. rewrite Ropp_involutive, ZfloorNZ, ZfloorZ. cbn.
    rewrite insert_insert_eq, insert_empty. f_equal.
    rewrite exp_0. lra.
Qed.

Lemma exp_1_range : (exp 1 < float_max)%R.
Proof.
  apply Rle_lt_trans with 3%R; [apply exp_le_3 | unfold float_max; lra].
Qed.

Lemma from_privacy_parameters_mass_witness :
  (0 <= 1)%R ∧ (exp 1 < float_max)%R ∧ (0 <= 0.5 <= 1)%R ∧ (1 ≠ 0)%R
  ∧ (1%R = 0%R ∨ (float_tiny < Rabs (1 / 1) < float_max)%R)
  ∧ (0.5%R = 1%R ∨ (float_tiny < (1 - 0.5) / (1 + exp 1))%R)
  ∧ ∃ pld,
      from_privacy_parameters {| epsilon := 1; delta := 0.5 |} 1 = Ok pld
      ∧ infinity_mass pld = 0.5%R
      ∧ pessimistic_estimate pld = true
      ∧ ((0 < 1)%R → accounted_mass pld = 1%R)
      ∧ (1%R = 0%R →
         rounded_probability_mass_function pld
         = {[0%Z := ((1 - 0.5) / 2)%R]}).
Proof.
  assert (0 <= 1)%R as Heps by lra.
  assert (0 <= 0.5 <= 1)%R as Hdlt by lra.
  assert (1 ≠ 0)%R as Hint by lra.
  assert (0.5%R = 1%R ∨ (float_tiny < (1 - 0.5) / (1 + exp 1))%R) as Htiny.
  { right. pose proof exp_le_3. pose proof (exp_pos 1).
    apply Rlt_le_trans with (/ 8)%R; [unfold float_tiny; lra|].
    apply (Rmult_le_reg_r (1 + exp 1)); [lra|].
    unfold Rdiv. rewrite Rmult_assoc, Rinv_l by lra. lra. }
  assert (1%R = 0%R ∨ (float_tiny < Rabs (1 / 1) < float_max)%R) as Hq.
  { right. rewrite Rabs_right by lra. unfold float_tiny, float_max. lra. }
  split; [exact Heps|]. split; [exact exp_1_range|].
  split; [exact Hdlt|]. split; [exact Hint|]. split; [exact Hq|].
  split; [exact Htiny|].
  exact (from_privacy_parameters_mass 1 0.5 1 Heps exp_1_range Hdlt Hint Hq
           Htiny).
Defined.

(** ** The hockey-stick divergence and its inverse *)

Section queries.
Variable p : PrivacyLossDistribution.
Hypothesis masses_nonneg :
  nonnegative_masses (rounded_probability_mass_function p).

Lemma mass_nonneg (i : Z) :
  (0 <= get0 (rounded_probability_mass_function p) i)%R.
Proof. by apply get0_nonneg. Qed.

Lemma hockey_term_bounds (eps : R) (i : Z) :
  (0 <= hockey_term p eps i <= get0 (rounded_probability_mass_function p) i)%R.
Proof.
  unfold hockey_term. pose proof (mass_nonneg i).
  destruct (decide (bucket_value p i > eps)%R) as [Hgt|]; [|lra].
  pose proof (exp_pos (eps - bucket_value p i)).
  assert (exp (eps - bucket_value p i) < 1)%R.
  { rewrite <- exp_0. apply exp_increasing. lra. }
  split; [apply Rmult_le_pos; lra|]. nra.
Qed.

Lemma hockey_term_mono (eps1 eps2 : R) (i : Z) :
  (eps1 <= eps2)%R → (hockey_term p eps2 i <= hockey_term p eps1 i)%R.
Proof.
  intros Heps. pose proof (hockey_term_bounds eps1 i) as [H1 _].
  unfold hockey_term in *. pose proof (mass_nonneg i).
  destruct (decide (bucket_value p i > eps2)%R) as [H2|H2]; [|done].
  rewrite decide_True by lra.
  assert (exp (eps1 - bucket_value p i) <= exp (eps2 - bucket_value p i))%R.
  { destruct Heps as [Hlt| ->]; [|lra]. left. apply exp_increasing. lra. }
  nra.
Qed.

(** The loop of [get_delta_for_epsilon], over any list of keys. *)
Lemma foldl_delta_step_hockey (eps : R) (ks : list Z) (acc : R) :
  foldl (delta_step p eps) acc ks
  = (acc + Rsum (hockey_term p eps <$> ks))%R.
Proof.
  revert acc. induction ks as [|i ks IH]; intros acc;
    cbn [foldl fmap list_fmap Rsum]; [lra|].
  rewrite IH. unfold delta_step, hockey_term, bucket_value.
  pose proof (mass_nonneg i).
  destruct (decide (IZR i * value_discretization_interval p > eps)%R)
    as [Hgt|Hle].
  - rewrite (bool_decide_eq_true_2 _ Hgt). cbn [andb].
    destruct (bool_decide_reflect
                (get0 (rounded_probability_mass_function p) i > 0)%R); [lra|].
    assert (get0 (rounded_probability_mass_function p) i = 0%R) as -> by lra.
    lra.
  - rewrite (bool_decide_eq_false_2 _ Hle). cbn [andb]. lra.
Qed.

Lemma get_delta_hockey_sum (eps : R) (ks : list Z) :
  ks ≡ₚ keys (rounded_probability_mass_function p) →
  get_delta_for_epsilon p eps
  = (infinity_mass p + Rsum (hockey_term p eps <$> ks))%R.
Proof.
  intros Hperm. unfold get_delta_for_epsilon.
  rewrite foldl_delta_step_hockey. f_equal.
  apply Rsum_Permutation, fmap_Permutation. by symmetry.
Qed.

End queries.





Lemma Rsum_nonneg_zero (l : list R) :
  Forall (λ x, 0 <= x)%R l → Rsum l = 0%R → Forall (λ x, x = 0%R) l.
Proof.
  induction 1 as [|x l Hx Hl IH]; intros Hsum; [constructor|].
  cbn [Rsum] in Hsum. pose proof (Rsum_nonneg l Hl).
  constructor; [lra | apply IH; lra].
Qed.

Lemma py_exp_Ok (x e : R) : py_exp x = Ok e → e = underflow (exp x).
Proof. unfold py_exp. destruct (decide _); [done|]. by intros [= <-]. Qed.

Section sweep.
Variables (p : PrivacyLossDistribution) (dlt : R).
Hypothesis masses_nonneg :
  nonnegative_masses (rounded_probability_mass_function p).
Hypothesis interval_nonneg : (0 <= value_discretization_interval p)%R.

Lemma bucket_value_mono (a b : Z) :
  a ≤ b → (bucket_value p a <= bucket_value p b)%R.
Proof.
  intros Hab. unfold bucket_value. apply IZR_le in Hab.
  by apply Rmult_le_compat_r.
Qed.

(** What a bucket adds to [mass_lower] is at most its exact share, and is
    that share when nothing underflows. *)
Lemma lower_term_bounds (i : Z) :
  (0 <= lower_term p i
   <= exp (- bucket_value p i)
      * get0 (rounded_probability_mass_function p) i)%R.
Proof.
  pose proof (get0_nonneg _ i masses_nonneg) as Hm.
  pose proof (exp_pos (- bucket_value p i)) as Hexp.
  pose proof (underflow_bounds (exp (- bucket_value p i)) ltac:(lra))
    as [He1 He2].
  unfold lower_term.
  set (e := underflow (exp (- bucket_value p i))) in *.
  pose proof (underflow_bounds
                (e * get0 (rounded_probability_mass_function p) i)
                (Rmult_le_pos _ _ He1 Hm)) as [Ht1 Ht2].
  split; [done|]. nra.
Qed.

Lemma lower_term_exact (i : Z) :
  (float_tiny < exp (- bucket_value p i))%R →
  (float_tiny < exp (- bucket_value p i)
                * get0 (rounded_probability_mass_function p) i)%R →
  lower_term p i
  = (exp (- bucket_value p i)
     * get0 (rounded_probability_mass_function p) i)%R.
Proof.
  intros He Ht. unfold lower_term. rewrite (underflow_id _ He).
  by apply underflow_id.
Qed.

Lemma lower_sum_nonneg (ks : list Z) : (0 <= lower_sum p ks)%R.
Proof.
  apply Rsum_nonneg, Forall_fmap, Forall_forall. intros i _. simpl.
  apply lower_term_bounds.
Qed.

Lemma upper_sum_nonneg (ks : list Z) : (0 <= upper_sum p ks)%R.
Proof.
  apply Rsum_nonneg, Forall_fmap, Forall_forall. intros i _. simpl.
  by apply get0_nonneg.
Qed.

Lemma sums_app (ks1 ks2 : list Z) :
  upper_sum p (ks1 ++ ks2) = (upper_sum p ks1 + upper_sum p ks2)%R
  ∧ lower_sum p (ks1 ++ ks2) = (lower_sum p ks1 + lower_sum p ks2)%R.
Proof. unfold upper_sum, lower_sum. by rewrite !fmap_app, !Rsum_app. Qed.

(** At an [eps] that no bucket is below, the hockey-stick sum is at most
    the signed sum [mass_upper - e^eps * mass_lower]; when nothing
    underflows, the signed sum never exceeds the hockey-stick sum. *)
Lemma signed_term_ge (eps : R) (i : Z) :
  (eps <= bucket_value p i)%R →
  (hockey_term p eps i
   <= get0 (rounded_probability_mass_function p) i
      - exp eps * lower_term p i)%R.
Proof.
  intros Heps.
  pose proof (get0_nonneg _ i masses_nonneg) as Hm.
  pose proof (lower_term_bounds i) as [Ht1 Ht2].
  pose proof (exp_pos eps) as Hexp.
  assert (exp eps * (exp (- bucket_value p i)
                     * get0 (rounded_probability_mass_function p) i)
          = exp (eps - bucket_value p i)
            * get0 (rounded_probability_mass_function p) i)%R as Heq.
  { rewrite <- Rmult_assoc, <- exp_plus. f_equal. }
  assert (exp eps * lower_term p i
          <= exp (eps - bucket_value p i)
             * get0 (rounded_probability_mass_function p) i)%R as Hle.
  { rewrite <- Heq. apply Rmult_le_compat_l; lra. }
  unfold hockey_term.
  destruct (decide (bucket_value p i > eps)%R) as [Hgt|Hngt]; [lra|].
  assert (eps = bucket_value p i) as Heq' by lra.
  rewrite <- Heq', Rminus_diag, exp_0 in Hle. lra.
Qed.

Lemma signed_ge (eps : R) (ks : list Z) :
  (∀ a, a ∈ ks → (eps <= bucket_value p a)%R) →
  (Rsum (hockey_term p eps <$> ks)
   <= upper_sum p ks - exp eps * lower_sum p ks)%R.
Proof.
  unfold upper_sum, lower_sum.
  induction ks as [|i ks IH]; intros Hall; cbn [fmap list_fmap Rsum]; [lra|].
  pose proof (signed_term_ge eps i (Hall i ltac:(by left))).
  specialize (IH (λ a Ha, Hall a ltac:(by right))). lra.
Qed.

Lemma signed_term_le (eps : R) (i : Z) :
  lower_term p i
  = (exp (- bucket_value p i)
     * get0 (rounded_probability_mass_function p) i)%R →
  (get0 (rounded_probability_mass_function p) i - exp eps * lower_term p i
   <= hockey_term p eps i)%R.
Proof.
  intros ->.
  pose proof (get0_nonneg _ i masses_nonneg) as Hm.
  assert (exp eps * (exp (- bucket_value p i)
                     * get0 (rounded_probability_mass_function p) i)
          = exp (eps - bucket_value p i)
            * get0 (rounded_probability_mass_function p) i)%R as ->.
  { rewrite <- Rmult_assoc, <- exp_plus. f_equal. }
  unfold hockey_term.
  destruct (decide (bucket_value p i > eps)%R) as [Hgt|Hle]; [lra|].
  assert (1 <= exp (eps - bucket_value p i))%R as Hge.
  { rewrite <- exp_0.
    destruct (Req_dec eps (bucket_value p i)) as [->|Hne].
    - rewrite Rminus_diag. lra.
    - left. apply exp_increasing. lra. }
  nra.
Qed.

Lemma signed_le (eps : R) (ks : list Z) :
  (∀ a, a ∈ ks →
        lower_term p a
        = (exp (- bucket_value p a)
           * get0 (rounded_probability_mass_function p) a)%R) →
  (upper_sum p ks - exp eps * lower_sum p ks
   <= Rsum (hockey_term p eps <$> ks))%R.
Proof.
  unfold upper_sum, lower_sum.
  induction ks as [|i ks IH]; intros Hall; cbn [fmap list_fmap Rsum]; [lra|].
  pose proof (signed_term_le eps i (Hall i ltac:(by left))).
  specialize (IH (λ a Ha, Hall a ltac:(by right))). lra.
Qed.

Lemma hockey_term_below (eps : R) (i : Z) :
  (bucket_value p i <= eps)%R → hockey_term p eps i = 0%R.
Proof. intros Hle. unfold hockey_term. rewrite decide_False; [done | lra]. Qed.

(** What the test of the [break] gives when it fails: the signed sum at the
    value of the next bucket is within [dlt]. *)
Lemma break_test_false (pre : list Z) (mu ml : R) (i : Z) :
  swept p dlt pre mu ml →
  break_test dlt mu ml (bucket_value p i) = Ok false →
  (mu - exp (bucket_value p i) * ml <= dlt)%R.
Proof.
  intros (Hmu & Hml & _ & Hzero) Htest.
  pose proof (lower_sum_nonneg pre) as Hnn. rewrite <- Hml in Hnn.
  pose proof (exp_pos (bucket_value p i)) as Hexp.
  unfold break_test in Htest.
  destruct (bool_decide_reflect (mu > dlt)%R) as [Hgt|Hle]; cbn in Htest.
  2:{ assert (0 <= exp (bucket_value p i) * ml)%R
        by (apply Rmult_le_pos; lra). lra. }
  destruct (bool_decide_reflect (ml > 0)%R) as [Hpos|Hz]; cbn in Htest.
  2:{ assert (ml = 0%R) as Hml0 by lra. specialize (Hzero Hml0). lra. }
  assert (0 < (mu - dlt) / ml)%R as Hratio by (apply Rdiv_lt_0_compat; lra).
  unfold log_quotient, py_div in Htest.
  rewrite decide_False in Htest by lra. cbn in Htest.
  destruct (decide (float_max <= (mu - dlt) / ml)%R); [done|].
  unfold py_log, underflow in Htest.
  destruct (decide (Rabs ((mu - dlt) / ml) <= float_tiny)%R).
  { rewrite decide_False in Htest by lra. done. }
  rewrite decide_True in Htest by done. cbn in Htest.
  injection Htest as Htest. apply bool_decide_eq_false_1 in Htest.
  assert ((mu - dlt) / ml < exp (bucket_value p i))%R as Hlt.
  { rewrite <- (exp_ln _ Hratio). apply exp_increasing. lra. }
  apply (Rmult_lt_compat_r ml) in Hlt; [|done].
  unfold Rdiv in Hlt. rewrite Rmult_assoc, Rinv_l, Rmult_1_r in Hlt by lra.
  lra.
Qed.

(** What it gives when it succeeds: the quotient has overflowed, or its
    logarithm is at least the value of the next bucket. *)
Lemma break_test_true (mu ml val : R) :
  break_test dlt mu ml val = Ok true →
  (mu > dlt)%R ∧ (ml > 0)%R
  ∧ ((float_max <= (mu - dlt) / ml)%R
     ∨ (val <= ln ((mu - dlt) / ml))%R).
Proof.
  unfold break_test. intros Htest.
  destruct (bool_decide_reflect (mu > dlt)%R) as [Hgt|]; cbn in Htest;
    [|done].
  destruct (bool_decide_reflect (ml > 0)%R) as [Hpos|]; cbn in Htest;
    [|done].
  split; [done|]. split; [done|].
  unfold log_quotient, py_div in Htest.
  rewrite decide_False in Htest by lra. cbn in Htest.
  destruct (decide (float_max <= (mu - dlt) / ml)%R); [by left|]. right.
  unfold py_log, underflow in Htest.
  destruct (decide (Rabs ((mu - dlt) / ml) <= float_tiny)%R).
  { rewrite decide_False in Htest by lra. done. }
  destruct (decide (0 < (mu - dlt) / ml)%R); [|done]. cbn in Htest.
  injection Htest as Htest. apply bool_decide_eq_true_1 in Htest. lra.
Qed.

(** One more bucket swept. *)
Lemma swept_snoc (pre : list Z) (mu ml : R) (i : Z) :
  let m := get0 (rounded_probability_mass_function p) i in
  swept p dlt pre mu ml →
  (∀ a, a ∈ pre → i ≤ a) →
  (mu - exp (bucket_value p i) * ml <= dlt)%R →
  ((ml + lower_term p i)%R = 0%R → (mu + m < dlt)%R) →
  swept p dlt (pre ++ [i]) (mu + m) (ml + lower_term p i).
Proof.
  intros m (Hmu & Hml & Hat & Hzero) Hsorted Hsigned Hzero'.
  destruct (sums_app pre [i]) as [Hup Hlo].
  assert (upper_sum p [i] = m) as Hup1
    by (unfold upper_sum, m; cbn [fmap list_fmap Rsum]; lra).
  assert (lower_sum p [i] = lower_term p i) as Hlo1
    by (unfold lower_sum; cbn [fmap list_fmap Rsum]; lra).
  split; [rewrite Hup, Hup1; lra|]. split; [rewrite Hlo, Hlo1; lra|].
  split; [|intros Hz; specialize (Hzero' Hz); lra].
  intros a Ha. rewrite fmap_app, Rsum_app. cbn [fmap list_fmap Rsum].
  apply elem_of_app in Ha as [Ha|Ha].
  - rewrite (hockey_term_below _ i)
      by (apply bucket_value_mono; by apply Hsorted).
    specialize (Hat a Ha). lra.
  - apply list_elem_of_singleton in Ha as ->.
    rewrite (hockey_term_below _ i) by lra.
    pose proof (signed_ge (bucket_value p i) pre) as Hge.
    rewrite Hmu, Hml in Hsigned.
    specialize (Hge (λ a Ha, bucket_value_mono i a (Hsorted a Ha))). lra.
Qed.

(** The sweep of [get_epsilon_for_delta], started after the keys [pre] on
    the keys [rest], in descending order. *)
Lemma epsilon_sweep_swept (rest pre : list Z) (mu ml : R) :
  StronglySorted (flip Z.le) rest →
  (∀ a b, a ∈ pre → b ∈ rest → b ≤ a) →
  swept p dlt pre mu ml →
  match epsilon_sweep p dlt rest mu ml with
  | Returned val =>
      (0 <= val)%R
      ∧ (infinity_mass p + Rsum (hockey_term p val <$> pre ++ rest)
         <= dlt)%R
      ∧ ∃ i, i ∈ rest ∧ lower_term p i = 0%R
  | Exited mu' ml' =>
      ∃ pre' rest',
        pre ++ rest = pre' ++ rest'
        ∧ swept p dlt pre' mu' ml'
        ∧ (rest' = []
           ∨ ((mu' > dlt)%R ∧ (ml' > 0)%R
              ∧ ((float_max <= (mu' - dlt) / ml')%R
                 ∨ ∀ b, b ∈ rest' →
                        (bucket_value p b <= ln ((mu' - dlt) / ml'))%R)))
  | Raised _ => True
  end.
Proof.
  intros Hsorted. revert pre mu ml.
  induction Hsorted as [|i rest Hsorted IH Hi]; intros pre mu ml Hpre Hsw;
    cbn [epsilon_sweep].
  - exists pre, []. split; [done|]. split; [done | by left].
  - fold (bucket_value p i).
    assert (∀ b, b ∈ rest → b ≤ i) as Hi'
      by (intros b Hb; exact (proj1 (Forall_forall _ _) Hi b Hb)).
    destruct (break_test dlt mu ml (bucket_value p i)) as [[|]|e] eqn:Htest;
      [| |done].
    + exists pre, (i :: rest). split; [done|]. split; [done|]. right.
      apply break_test_true in Htest as (Hmu & Hml & [Hinf|Hln]).
      * split; [done|]. split; [done|]. by left.
      * split; [done|]. split; [done|]. right. intros b Hb.
        apply elem_of_cons in Hb as [->|Hb]; [lra|].
        pose proof (bucket_value_mono b i (Hi' b Hb)). lra.
    + pose proof (break_test_false pre mu ml i Hsw Htest) as Hsigned.
      destruct (py_exp (- bucket_value p i)) as [exp_val|e] eqn:Hexp;
        [|done].
      apply py_exp_Ok in Hexp as ->.
      change (underflow (underflow (exp (- bucket_value p i))
                         * get0 (rounded_probability_mass_function p) i))
        with (lower_term p i).
      set (m := get0 (rounded_probability_mass_function p) i).
      pose proof (get0_nonneg _ i masses_nonneg) as Hm. fold m in Hm.
      pose proof (lower_term_bounds i) as [Hterm _].
      pose proof Hsw as (Hmu & Hml & Hat & Hzero).
      pose proof (lower_sum_nonneg pre) as Hnn. rewrite <- Hml in Hnn.
      assert (swept p dlt (pre ++ [i]) (mu + m) (ml + lower_term p i) →
              match epsilon_sweep p dlt rest (mu + m)
                      (ml + lower_term p i) with
              | Returned val =>
                  (0 <= val)%R
                  ∧ (infinity_mass p
                     + Rsum (hockey_term p val <$> pre ++ i :: rest)
                     <= dlt)%R
                  ∧ ∃ j, j ∈ i :: rest ∧ lower_term p j = 0%R
              | Exited mu' ml' =>
                  ∃ pre' rest',
                    pre ++ i :: rest = pre' ++ rest'
                    ∧ swept p dlt pre' mu' ml'
                    ∧ (rest' = []
                       ∨ ((mu' > dlt)%R ∧ (ml' > 0)%R
                          ∧ ((float_max <= (mu' - dlt) / ml')%R
                             ∨ ∀ b, b ∈ rest' →
                                    (bucket_value p b
                                     <= ln ((mu' - dlt) / ml'))%R)))
              | Raised _ => True
              end) as Hcont.
      { intros Hsw'.
        specialize (IH (pre ++ [i]) (mu + m)%R (ml + lower_term p i)%R).
        rewrite <- app_assoc in IH. cbn [app] in IH.
        assert (∀ a b, a ∈ pre ++ [i] → b ∈ rest → b ≤ a) as Hpre'.
        { intros a b Ha Hb. apply elem_of_app in Ha as [Ha|Ha].
          - apply Hpre; [done | by right].
          - apply list_elem_of_singleton in Ha as ->. by apply Hi'. }
        specialize (IH Hpre' Hsw').
        destruct (epsilon_sweep p dlt rest _ _) as [val|mu' ml'|e];
          [|done|done].
        destruct IH as (Hval & Hall & j & Hj & Hjm).
        split; [done|]. split; [done|]. exists j. split; [by right | done]. }
      destruct (bool_decide_reflect (mu + m >= dlt)%R) as [Hge|Hlt];
        cbn [andb].
      * destruct (bool_decide_reflect (ml + lower_term p i = 0)%R)
          as [Hz|Hnz].
        -- split; [apply Rmax_l|]. split.
           ++ assert (ml = 0%R) as Hml0 by lra. specialize (Hzero Hml0).
              rewrite fmap_app, Rsum_app.
              rewrite (Rsum_zero (hockey_term p _ <$> i :: rest)).
              ** assert (Rsum (hockey_term p (Rmax 0 (bucket_value p i))
                               <$> pre)
                         <= upper_sum p pre)%R; [|lra].
                 apply Rsum_fmap_le. intros a _.
                 apply (hockey_term_bounds p masses_nonneg).
              ** apply Forall_fmap, Forall_forall. intros a Ha. simpl.
                 apply hockey_term_below.
                 assert (a ≤ i) as Hai.
                 { apply elem_of_cons in Ha as [->|Ha]; [lia | by apply Hi']. }
                 pose proof (bucket_value_mono a i Hai).
                 pose proof (Rmax_r 0 (bucket_value p i)). lra.
           ++ exists i. split; [by left | lra].
        -- apply Hcont. apply swept_snoc; try done.
           intros a Ha. apply Hpre; [done | by left].
      * apply Hcont. apply swept_snoc; try done.
        -- intros a Ha. apply Hpre; [done | by left].
        -- intros _. apply Rnot_ge_lt in Hlt. exact Hlt.
Qed.
End sweep.

Section sweep_result.
Variables (p : PrivacyLossDistribution) (dlt : R).
Hypothesis masses_nonneg :
  nonnegative_masses (rounded_probability_mass_function p).
Hypothesis interval_nonneg : (0 <= value_discretization_interval p)%R.

(** Once the swept buckets are summed up, the hockey-stick sum over them is
    within [dlt] at every [eps] at which the signed sum is. *)
Lemma swept_hockey (pre : list Z) (mu ml eps : R) :
  swept p dlt pre mu ml →
  (mu - exp eps * ml <= dlt)%R →
  (infinity_mass p + Rsum (hockey_term p eps <$> pre) <= dlt)%R.
Proof.
  intros (Hmu & Hml & Hat & _) Hsigned.
  destruct (decide (Forall (λ a, (eps <= bucket_value p a)%R) pre))
    as [Hall|Hex].
  - pose proof (signed_ge p masses_nonneg eps pre
                  (λ a Ha, proj1 (Forall_forall _ _) Hall a Ha)).
    rewrite Hmu, Hml in Hsigned. lra.
  - apply not_Forall_Exists in Hex; [|intros a; apply _].
    apply Exists_exists in Hex as (a & Ha & Hlt).
    specialize (Hat a Ha).
    assert (Rsum (hockey_term p eps <$> pre)
            <= Rsum (hockey_term p (bucket_value p a) <$> pre))%R; [|lra].
    apply Rsum_fmap_le. intros i _.
    apply (hockey_term_mono p masses_nonneg). simpl in Hlt. lra.
Qed.

Lemma sorted_reverse_sorted (d : gmap Z R) :
  StronglySorted (flip Z.le) (sorted_reverse d) ∧ sorted_reverse d ≡ₚ keys d.
Proof.
  unfold sorted_reverse. split.
  - apply Sorted_StronglySorted; [intros x y z; unfold flip; lia|].
    apply Sorted_reverse, Sorted_merge_sort. intros x y. lia.
  - by rewrite reverse_Permutation, merge_sort_Permutation.
Qed.

(** The sweep of [get_epsilon_for_delta] from its initial state. *)
Lemma epsilon_sweep_initial :
  ¬ (infinity_mass p > dlt)%R →
  match epsilon_sweep p dlt
          (sorted_reverse (rounded_probability_mass_function p))
          (infinity_mass p) 0 with
  | Returned val =>
      (0 <= val)%R
      ∧ (infinity_mass p
         + Rsum (hockey_term p val
                 <$> sorted_reverse (rounded_probability_mass_function p))
         <= dlt)%R
      ∧ ∃ i, i ∈ sorted_reverse (rounded_probability_mass_function p)
             ∧ lower_term p i = 0%R
  | Exited mu' ml' =>
      ∃ pre' rest',
        sorted_reverse (rounded_probability_mass_function p) = pre' ++ rest'
        ∧ swept p dlt pre' mu' ml'
        ∧ (rest' = []
           ∨ ((mu' > dlt)%R ∧ (ml' > 0)%R
              ∧ ((float_max <= (mu' - dlt) / ml')%R
                 ∨ ∀ b, b ∈ rest' →
                        (bucket_value p b <= ln ((mu' - dlt) / ml'))%R)))
  | Raised _ => True
  end.
Proof.
  intros Hinf.
  destruct (sorted_reverse_sorted (rounded_probability_mass_function p))
    as [Hsorted _].
  apply (epsilon_sweep_swept p dlt masses_nonneg interval_nonneg _ []
           (infinity_mass p) 0%R Hsorted).
  - intros a b Ha. by apply elem_of_nil in Ha.
  - split; [unfold upper_sum; cbn [fmap list_fmap Rsum]; lra|].
    split; [done|]. split; [intros a Ha; by apply elem_of_nil in Ha|].
    intros _. lra.
Qed.

(** The value after the loop: the hockey-stick sum over all keys is within
    [dlt] at [eps] when the signed sum of the swept keys is and [eps] is at
    least the value of every key left. *)
Lemma exited_sound (pre rest : list Z) (mu ml eps : R) :
  sorted_reverse (rounded_probability_mass_function p) = pre ++ rest →
  swept p dlt pre mu ml →
  (mu - exp eps * ml <= dlt)%R →
  (∀ b, b ∈ rest → (bucket_value p b <= eps)%R) →
  (get_delta_for_epsilon p eps <= dlt)%R.
Proof.
  intros Hsplit Hsw Hsigned Hrest.
  destruct (sorted_reverse_sorted (rounded_probability_mass_function p))
    as [_ Hperm].
  rewrite (get_delta_hockey_sum p masses_nonneg eps _ Hperm), Hsplit.
  rewrite fmap_app, Rsum_app.
  rewrite (Rsum_zero (hockey_term p eps <$> rest)).
  - pose proof (swept_hockey pre mu ml eps Hsw Hsigned). lra.
  - apply Forall_fmap, Forall_forall. intros b Hb. simpl.
    apply hockey_term_below. by apply Hrest.
Qed.

(** The quotient whose logarithm is returned after the loop. *)
Lemma exited_log (pre : list Z) (mu ml : R) :
  swept p dlt pre mu ml →
  ¬ (mu <= ml + dlt)%R →
  (0 < ml)%R ∧ (ml < mu - dlt)%R
  ∧ (mu - exp (ln ((mu - dlt) / ml)) * ml)%R = dlt.
Proof.
  intros (Hmu & Hml & _ & Hzero) Hgt.
  pose proof (lower_sum_nonneg p masses_nonneg pre) as Hnn.
  rewrite <- Hml in Hnn.
  assert (0 < ml)%R as Hpos.
  { destruct (Req_dec ml 0) as [Hz|Hnz]; [|lra].
    specialize (Hzero Hz). lra. }
  split; [done|]. split; [lra|].
  assert (0 < (mu - dlt) / ml)%R by (apply Rdiv_lt_0_compat; lra).
  rewrite exp_ln by lra. field. lra.
Qed.

(** What [get_epsilon_for_delta] returns when its result is finite. *)
Lemma get_epsilon_for_delta_finite (eps : R) :
  get_epsilon_for_delta p dlt = Ok (Finite eps) →
  (0 <= eps)%R
  ∧ ((∃ i, i ∈ sorted_reverse (rounded_probability_mass_function p)
           ∧ lower_term p i = 0%R)
     ∨ ∃ pre rest mu ml,
         sorted_reverse (rounded_probability_mass_function p) = pre ++ rest
         ∧ swept p dlt pre mu ml
         ∧ (eps = 0%R
            ∨ (0 < ml)%R ∧ eps = ln ((mu - dlt) / ml)
              ∧ (mu - exp eps * ml)%R = dlt))
  ∧ (get_delta_for_epsilon p eps <= dlt)%R.
Proof.
  intros Hrun. unfold get_epsilon_for_delta in Hrun.
  destruct (decide (infinity_mass p > dlt)%R) as [Hgt|Hle]; [done|].
  pose proof (epsilon_sweep_initial Hle) as Hsweep.
  destruct (sorted_reverse_sorted (rounded_probability_mass_function p))
    as [_ Hperm].
  destruct (epsilon_sweep p dlt _ _ _) as [val|mu ml|e]; [| |done].
  - injection Hrun as <-. destruct Hsweep as (Hval & Hall & Hzero).
    split; [done|]. split; [by left|].
    by rewrite (get_delta_hockey_sum p masses_nonneg val _ Hperm).
  - destruct Hsweep as (pre & rest & Hsplit & Hsw & Hrest).
    pose proof float_max_gt_1 as Hmax.
    destruct (decide (mu <= ml + dlt)%R) as [Hzero|Hlog].
    + injection Hrun as <-. split; [lra|].
      split.
      { right. exists pre, rest, mu, ml. split; [done|]. split; [done|].
        by left. }
      apply (exited_sound pre rest mu ml 0 Hsplit Hsw).
      * rewrite exp_0. lra.
      * destruct Hrest as [->|(Hmu & Hml & Hrest)];
          [intros b Hb; by apply elem_of_nil in Hb|].
        assert (0 < (mu - dlt) / ml)%R by (apply Rdiv_lt_0_compat; lra).
        assert ((mu - dlt) / ml <= 1)%R.
        { apply (Rmult_le_reg_r ml); [lra|].
          unfold Rdiv. rewrite Rmult_assoc, Rinv_l by lra. lra. }
        destruct Hrest as [Hinf|Hrest]; [lra|].
        intros b Hb. specialize (Hrest b Hb).
        assert (ln ((mu - dlt) / ml) <= 0)%R; [|lra].
        rewrite <- ln_1.
        destruct (Req_dec ((mu - dlt) / ml) 1) as [->|Hne]; [lra|].
        left. apply ln_increasing; lra.
    + destruct (exited_log pre mu ml Hsw Hlog) as (Hml & Hratio & Heq).
      destruct (log_quotient_above_1 (mu - dlt) ml Hml Hratio)
        as (Hone & [[Hq _]|[Hq Hln]]); rewrite Hq in Hrun; [done|].
      injection Hrun as <-. split; [lra|].
      split.
      { right. exists pre, rest, mu, ml. split; [done|]. split; [done|].
        right. done. }
      apply (exited_sound pre rest mu ml _ Hsplit Hsw); [lra|].
      destruct Hrest as [->|(_ & _ & [Hinf|Hrest])];
        [intros b Hb; by apply elem_of_nil in Hb | | done].
      unfold log_quotient, py_div in Hq.
      rewrite decide_False in Hq by lra. cbn in Hq.
      by rewrite decide_True in Hq.
Qed.
End sweep_result.


(** The two queries on the identity distribution. *)
Lemma identity_masses_positive (interval : R) :
  positive_masses (rounded_probability_mass_function (identity interval)).
Proof.
  intros i m Hi. simpl in Hi. apply lookup_singleton_Some in Hi as [_ <-]. lra.
Qed.

Lemma keys_identity (interval : R) :
  keys (rounded_probability_mass_function (identity interval)) = [0].
Proof. unfold keys. simpl. by rewrite map_to_list_singleton. Qed.

Lemma get_delta_for_epsilon_identity (interval eps : R) :
  (0 <= eps)%R → get_delta_for_epsilon (identity interval) eps = 0%R.
Proof.
  intros Heps. unfold get_delta_for_epsilon. rewrite keys_identity.
  cbn [foldl]. unfold delta_step. rewrite Rmult_0_l.
  rewrite (bool_decide_eq_false_2 (0 > eps)%R) by lra. done.
Qed.

Lemma get_epsilon_for_delta_identity (interval dlt : R) :
  (0 <= dlt)%R →
  get_epsilon_for_delta (identity interval) dlt = Ok (Finite 0).
Proof.
  intros Hdlt. unfold get_epsilon_for_delta.
  rewrite decide_False by (simpl; lra).
  unfold sorted_reverse. rewrite keys_identity.
  change (reverse (merge_sort Z.le [0])) with [0].
  cbn [epsilon_sweep]. unfold break_test.
  rewrite (bool_decide_eq_false_2 (infinity_mass (identity interval) > dlt)%R)
    by (simpl; lra).
  cbn [andb]. change (get0 _ 0) with 1%R.
  pose proof float_tiny_lt_1. pose proof float_max_gt_1.
  rewrite Rmult_0_l, Ropp_0.
  rewrite py_exp_ok by (rewrite exp_0; lra). rewrite exp_0.
  rewrite underflow_id by lra.
  rewrite (bool_decide_eq_false_2 (0 + 1 * 1 = 0)%R) by lra.
  rewrite andb_false_r. rewrite decide_True by (simpl; lra). done.
Qed.



(** X14: for strictly positive stored masses and a nonnegative interval,
    when for every bucket [math.exp(-val)] and its product with the mass
    are normal doubles, a finite result of [get_epsilon_for_delta] is the
    smallest nonnegative epsilon at which [get_delta_for_epsilon] is at
    most [delta]. *)
Theorem get_epsilon_for_delta_smallest (p : PrivacyLossDistribution)
    (dlt eps eps' : R) :
  positive_masses (rounded_probability_mass_function p) →
  (0 <= value_discretization_interval p)%R →
  (∀ i m, rounded_probability_mass_function p !! i = Some m →
          (float_normal <= exp (- bucket_value p i))%R
          ∧ (float_normal <= exp (- bucket_value p i) * m)%R) →
  get_epsilon_for_delta p dlt = Ok (Finite eps) →
  (0 <= eps')%R →
  (get_delta_for_epsilon p eps' <= dlt)%R →
  (eps <= eps')%R.
Proof.
  intros Hpos Hiv Hrange Hrun Heps' Hdelta.
  pose proof (positive_nonnegative _ Hpos) as Hp.
  destruct (sorted_reverse_sorted (rounded_probability_mass_function p))
    as [_ Hperm].
  assert (∀ i, i ∈ sorted_reverse (rounded_probability_mass_function p) →
               lower_term p i
               = (exp (- bucket_value p i)
                  * get0 (rounded_probability_mass_function p) i)%R
               ∧ (0 < lower_term p i)%R) as Hexact.
  { intros i Hi. rewrite Hperm in Hi. apply elem_of_keys in Hi as [m Hm].
    destruct (Hrange i m Hm) as [He Ht]. pose proof float_tiny_pos.
    pose proof float_tiny_normal.
    assert (get0 (rounded_probability_mass_function p) i = m) as Hget
      by (unfold get0; by rewrite Hm).
    rewrite (lower_term_exact p i) by (rewrite ?Hget; lra).
    rewrite Hget. split; [done | lra]. }
  destruct (get_epsilon_for_delta_finite p dlt Hp Hiv eps Hrun)
    as (_ & [(i & Hi & Hzero)|(pre & rest & mu & ml & Hsplit & Hsw & Heps)]
        & _).
  { destruct (Hexact i Hi) as [_ Hlt]. lra. }
  destruct Heps as [->|(Hml & Heq & Hsigned)]; [done|].
  destruct (Rle_lt_dec eps eps') as [|Hlt]; [done|]. exfalso.
  rewrite (get_delta_hockey_sum p Hp eps' _ Hperm), Hsplit in Hdelta.
  rewrite fmap_app, Rsum_app in Hdelta.
  assert (0 <= Rsum (hockey_term p eps' <$> rest))%R as Hrest.
  { apply Rsum_nonneg, Forall_fmap, Forall_forall. intros i _.
    apply (hockey_term_bounds p Hp). }
  pose proof (signed_le p Hp eps' pre) as Hle.
  assert (∀ a, a ∈ pre →
               lower_term p a
               = (exp (- bucket_value p a)
                  * get0 (rounded_probability_mass_function p) a)%R)
    as Hpre.
  { intros a Ha. apply Hexact. rewrite Hsplit. apply elem_of_app. by left. }
  specialize (Hle Hpre).
  destruct Hsw as (Hmu & Hmleq & _). rewrite <- Hmleq in Hle.
  assert (exp eps' < exp eps)%R as Hexp by (by apply exp_increasing).
  assert (exp eps' * ml < exp eps * ml)%R
    by (apply Rmult_lt_compat_r; lra).
  lra.
Qed.

Lemma get_epsilon_for_delta_smallest_witness :
  positive_masses (rounded_probability_mass_function (identity 1))
  ∧ (0 <= value_discretization_interval (identity 1))%R
  ∧ (∀ i m, rounded_probability_mass_function (identity 1) !! i = Some m →
            (float_normal <= exp (- bucket_value (identity 1) i))%R
            ∧ (float_normal <= exp (- bucket_value (identity 1) i) * m)%R)
  ∧ get_epsilon_for_delta (identity 1) 0.5 = Ok (Finite 0)
  ∧ (0 <= 1)%R
  ∧ (get_delta_for_epsilon (identity 1) 1 <= 0.5)%R
  ∧ (0 <= 1)%R.
Proof.
  assert (0 <= value_discretization_interval (identity 1))%R as Hiv
    by (simpl; lra).
  assert (∀ i m, rounded_probability_mass_function (identity 1) !! i
                 = Some m →
                 (float_normal <= exp (- bucket_value (identity 1) i))%R
                 ∧ (float_normal
                    <= exp (- bucket_value (identity 1) i) * m)%R)
    as Hrange.
  { intros i m Hi. simpl in Hi.
    apply lookup_singleton_Some in Hi as [<- <-].
    unfold bucket_value. simpl value_discretization_interval.
    rewrite Rmult_0_l, Ropp_0, exp_0. unfold float_normal. lra. }
  assert (get_epsilon_for_delta (identity 1) 0.5 = Ok (Finite 0)) as Hrun
    by (apply get_epsilon_for_delta_identity; lra).
  assert (0 <= 1)%R as Heps by lra.
  assert (get_delta_for_epsilon (identity 1) 1 <= 0.5)%R as Hdelta
    by (rewrite get_delta_for_epsilon_identity by lra; lra).
  split; [exact (identity_masses_positive 1)|]. split; [exact Hiv|].
  split; [exact Hrange|].
  split; [exact Hrun|]. split; [exact Heps|]. split; [exact Hdelta|].
  exact (get_epsilon_for_delta_smallest (identity 1) 0.5 0 1
           (identity_masses_positive 1) Hiv Hrange Hrun Heps Hdelta).
Defined.

(** ** [self_convolve] and [self_convolve_dictionary] *)

Lemma length_self_convolve_padded (l : list R) (k : nat) :
  l ≠ [] →
  length (self_convolution l (S (S k)) ++ replicate k 0%R)
  = (S (S k) * length l - 1)%nat.
Proof.
  intros Hl. destruct (self_convolution_length l (S k) Hl) as [_ Hlen].
  rewrite length_app, Hlen, length_replicate.
  assert (0 < length l)%nat by (destruct l; [done | cbn; lia]). nia.
Qed.

Lemma coef_app_zeros (l : list R) (k i : nat) :
  coef (l ++ replicate k 0%R) i = coef l i.
Proof.
  unfold coef. destruct (decide (i < length l)%nat) as [Hi|Hi].
  - by rewrite lookup_app_l.
  - rewrite lookup_app_r by lia. rewrite (lookup_ge_None_2 l) by lia.
    destruct (replicate k 0%R !! (i - length l)%nat) as [x|] eqn:Hx; [|done].
    by apply lookup_replicate in Hx as [-> _].
Qed.

(** X15: [self_convolve] raises [ValueError] when
    [num_times * len(input_list) < 2]; otherwise it returns a list of
    [num_times * len(input_list) - 1] entries.  For [num_times >= 2] these
    are the entries of the [num_times]-fold self-convolution, followed by
    zeros; for [num_times = 1] the list is the input without its last
    entry. *)
Theorem self_convolve_contract (input_list : list R) (num_times : Z) :
  if decide (num_times * Z.of_nat (length input_list) < 2)
  then self_convolve input_list num_times = Raise ValueError
  else ∃ r,
         self_convolve input_list num_times = Ok r
         ∧ Z.of_nat (length r)
           = num_times * Z.of_nat (length input_list) - 1
         ∧ (2 ≤ num_times →
            ∀ i, coef r i
                 = coef (self_convolution input_list (Z.to_nat num_times)) i)
         ∧ (num_times = 1 →
            r = take (length input_list - 1) input_list).
Proof.
  destruct (decide (num_times * Z.of_nat (length input_list) < 2))
    as [Hsmall|Hbig].
  - unfold self_convolve. rewrite decide_True; [done | lia].
  - assert (1 ≤ length input_list)%nat as Hlen.
    { destruct input_list; [|cbn; lia]. cbn in Hbig. lia. }
    assert (1 ≤ num_times) as Hn.
    { destruct (decide (1 ≤ num_times)); [done|]. nia. }
    assert (input_list ≠ []) as Hl by (intros ->; cbn in Hlen; lia).
    destruct (decide (num_times = 1)) as [->|Hne].
    + rewrite self_convolve_once by lia. eexists. split; [done|].
      split; [rewrite length_take; lia|]. split; [lia | done].
    + rewrite self_convolve_padded by (done || lia). eexists. split; [done|].
      destruct (Z.to_nat num_times) as [|[|k]] eqn:Hk; [lia | lia |].
      replace (Z.to_nat (num_times - 2)) with k by lia.
      split; [rewrite length_self_convolve_padded by done; nia|].
      split; [|lia]. intros _ i. apply coef_app_zeros.
Qed.

(** *** The self-convolution as a sum over keys *)

Lemma convolution_power_one (d : gmap Z R) (key : Z) :
  convolution_power d 1 key = get0 d key.
Proof.
  cbn [convolution_power]. unfold get0.
  induction d as [|i x m Hi IH] using map_ind.
  - by rewrite map_to_list_empty, lookup_empty.
  - assert (Rsum ((λ p : Z * R,
                     p.2 * (if decide (key - p.1 = 0)%Z then 1 else 0))%R
                  <$> map_to_list (<[i:=x]> m))
            = Rsum ((λ p : Z * R,
                       p.2 * (if decide (key - p.1 = 0)%Z then 1 else 0))%R
                    <$> (i, x) :: map_to_list m)) as ->
      by (apply Rsum_Permutation, fmap_Permutation;
          by apply map_to_list_insert).
    cbn [fmap list_fmap Rsum fst snd]. rewrite IH, lookup_insert.
    destruct (decide (i = key)) as [->|Hne].
    + rewrite decide_True by lia. rewrite Hi. simpl. lra.
    + rewrite decide_False by lia. lra.
Qed.

Lemma convolution_power_below (d : gmap Z R) (lo : Z) (k : nat) (key : Z) :
  (∀ j, is_Some (d !! j) → lo ≤ j) →
  key < lo * Z.of_nat (S k) →
  convolution_power d (S k) key = 0%R.
Proof.
  intros Hdom. revert key. induction k as [|k IH]; intros key Hkey.
  - rewrite convolution_power_one. unfold get0.
    destruct (d !! key) as [v|] eqn:Hv; [|done].
    specialize (Hdom key ltac:(by eexists)). lia.
  - change (convolution_power d (S (S k)) key)
      with (Rsum ((λ p : Z * R,
                     p.2 * convolution_power d (S k) (key - p.1))%R
                  <$> map_to_list d)).
    apply Rsum_zero, Forall_fmap, Forall_forall. intros [j v] Hin.
    change (v * convolution_power d (S k) (key - j) = 0)%R.
    apply elem_of_map_to_list in Hin.
    specialize (Hdom j ltac:(by eexists)).
    rewrite IH by lia. lra.
Qed.

(** Entry [i] of the self-convolution of a dense list, as a sum over the
    keys of the dictionary. *)
Lemma coef_self_convolution_dense (d : gmap Z R) (lo n : Z) (k i : nat) :
  0 < n →
  (∀ j, is_Some (d !! j) → lo ≤ j < lo + n) →
  coef (self_convolution (get0 d <$> seqZ lo n) (S k)) i
  = convolution_power d (S k) (lo * Z.of_nat (S k) + Z.of_nat i).
Proof.
  intros Hn Hdom.
  assert (get0 d <$> seqZ lo n ≠ []) as Hne.
  { intros Hnil. apply (f_equal length) in Hnil.
    rewrite length_fmap, length_seqZ in Hnil. cbn in Hnil. lia. }
  revert i. induction k as [|k IH]; intros i.
  - rewrite convolution_power_one. cbn [self_convolution].
    rewrite coef_dense by done. f_equal. lia.
  - change (self_convolution (get0 d <$> seqZ lo n) (S (S k)))
      with (fftconvolve (get0 d <$> seqZ lo n)
              (self_convolution (get0 d <$> seqZ lo n) (S k))).
    destruct (self_convolution_length (get0 d <$> seqZ lo n) k Hne)
      as [Hsc _].
    rewrite coef_fftconvolve by done. unfold convolution_sum.
    set (key := lo * Z.of_nat (S (S k)) + Z.of_nat i).
    set (F := λ j : nat,
           (get0 d (lo + Z.of_nat j)
            * convolution_power d (S k) (key - (lo + Z.of_nat j)))%R).
    rewrite (Rsum_fmap_ext _ F).
    2:{ intros j Hj. apply elem_of_seq in Hj. unfold F.
        rewrite coef_dense by done. rewrite IH. do 2 f_equal.
        unfold key. lia. }
    rewrite (Rsum_seq_extend F (S i) (Z.to_nat n)).
    2:{ intros j Hj. unfold F.
        destruct (decide (Z.of_nat j < n)).
        - rewrite (convolution_power_below d lo k).
          + lra.
          + intros z Hz. specialize (Hdom z Hz). lia.
          + unfold key. lia.
        - rewrite (get0_outside d lo n) by (done || lia). lra. }
    change (convolution_power d (S (S k)) key)
      with (Rsum ((λ p : Z * R,
                     p.2 * convolution_power d (S k) (key - p.1))%R
                  <$> map_to_list d)).
    rewrite <- (Rsum_dense (λ z, convolution_power d (S k) (key - z)) lo n)
      by done.
    unfold seqZ. rewrite <- list_fmap_compose.
    apply Rsum_fmap_ext. intros j _. unfold F. simpl.
    by replace (Z.of_nat j + lo) with (lo + Z.of_nat j) by lia.
Qed.

Lemma self_convolution_nonneg (l : list R) (k : nat) :
  Forall (λ y, 0 <= y)%R l → Forall (λ y, 0 <= y)%R (self_convolution l (S k)).
Proof.
  intros Hl. induction k as [|k IH]; [done|].
  change (self_convolution l (S (S k)))
    with (fftconvolve l (self_convolution l (S k))).
  by apply fftconvolve_nonneg.
Qed.

Lemma Rsum_self_convolution (l : list R) (k : nat) :
  Rsum (self_convolution l (S k)) = (Rsum l ^ S k)%R.
Proof.
  induction k as [|k IH]; [cbn [self_convolution pow]; lra|].
  change (self_convolution l (S (S k)))
    with (fftconvolve l (self_convolution l (S k))).
  rewrite Rsum_fftconvolve, IH. cbn [pow]. lra.
Qed.

Lemma Rsum_replicate_zero (k : nat) : Rsum (replicate k 0%R) = 0%R.
Proof. induction k as [|k IH]; cbn [replicate Rsum]; lra. Qed.

(** The result of [self_convolve_dictionary] for two or more factors. *)
Lemma self_convolve_dictionary_dense (d : gmap Z R) (num_times : Z) :
  d ≠ ∅ → 2 ≤ num_times →
  ∃ lo n k,
    0 < n ∧ Z.to_nat num_times = S (S k)
    ∧ (∀ j, is_Some (d !! j) → lo ≤ j < lo + n)
    ∧ self_convolve_dictionary d num_times
      = Ok (list_to_dictionary
              (self_convolution (get0 d <$> seqZ lo n) (S (S k))
               ++ replicate k 0%R)
              (lo * num_times) 0).
Proof.
  intros Hne Hn. unfold self_convolve_dictionary.
  destruct (dictionary_to_list_spec d Hne)
    as (lo & hi & _ & _ & Hle & _ & _ & Hdom & ->).
  cbn.
  assert (get0 d <$> seqZ lo (hi + 1 - lo) ≠ []) as Hl.
  { intros Hnil. apply (f_equal length) in Hnil.
    rewrite length_fmap, length_seqZ in Hnil. cbn in Hnil. lia. }
  rewrite self_convolve_padded by done. cbn.
  destruct (Z.to_nat num_times) as [|[|k]] eqn:Hk; [lia | lia |].
  exists lo, (hi + 1 - lo), k. split; [lia|]. split; [done|].
  split; [intros j Hj; specialize (Hdom j Hj); lia|].
  by replace (Z.to_nat (num_times - 2)) with k by lia.
Qed.

(** The mass stored by [self_convolve_dictionary]. *)
Lemma self_convolve_dictionary_total (d : gmap Z R) (num_times : Z) :
  d ≠ ∅ → nonnegative_masses d → 2 ≤ num_times →
  ∃ r, self_convolve_dictionary d num_times = Ok r
       ∧ total_mass r = (total_mass d ^ Z.to_nat num_times)%R.
Proof.
  intros Hne Hnn Hn.
  destruct (self_convolve_dictionary_dense d num_times Hne Hn)
    as (lo & n & k & Hpos & Hk & Hdom & ->).
  rewrite Hk. eexists. split; [done|].
  assert (Forall (λ y, 0 <= y)%R
            (self_convolution (get0 d <$> seqZ lo n) (S (S k))
             ++ replicate k 0%R)) as Hall.
  { apply Forall_app. split.
    - apply self_convolution_nonneg. by apply dense_nonneg.
    - apply Forall_replicate. lra. }
  pose proof (list_to_dictionary_total _ (lo * num_times) 0 Hall
                ltac:(lra)) as Htotal.
  rewrite Rsum_app, Rsum_replicate_zero, Rsum_self_convolution in Htotal.
  rewrite Rsum_dense_total in Htotal by done. lra.
Qed.

(** X16: for two or more factors and a nonempty dictionary of nonnegative
    masses, [self_convolve_dictionary] returns the dictionary whose value
    at every key (0 for an absent key) is the sum, over the keys adding up
    to it, of the products of their values; its total mass is the
    [num_times]-th power of the total mass of the input. *)
Theorem self_convolve_dictionary_entries (input_dictionary : gmap Z R)
    (num_times : Z) :
  input_dictionary ≠ ∅ → nonnegative_masses input_dictionary →
  2 ≤ num_times →
  ∃ d, self_convolve_dictionary input_dictionary num_times = Ok d
       ∧ (∀ key,
            get0 d key
            = convolution_power input_dictionary (Z.to_nat num_times) key)
       ∧ total_mass d
         = (total_mass input_dictionary ^ Z.to_nat num_times)%R.
Proof.
  intros Hne Hnn Hn.
  destruct (self_convolve_dictionary_total input_dictionary num_times
              Hne Hnn Hn) as (d & Hd & Htotal).
  exists d. split; [done|]. split; [|done].
  destruct (self_convolve_dictionary_dense input_dictionary num_times Hne Hn)
    as (lo & n & k & Hpos & Hk & Hdom & Hdense).
  rewrite Hd in Hdense.
  match type of Hdense with
  | _ = Ok ?t => assert (d = t) as -> by congruence
  end.
  rewrite Hk.
  assert (Forall (λ y, 0 <= y)%R
            (self_convolution (get0 input_dictionary <$> seqZ lo n)
               (S (S k)) ++ replicate k 0%R)) as Hall.
  { apply Forall_app. split.
    - apply self_convolution_nonneg. by apply dense_nonneg.
    - apply Forall_replicate. lra. }
  intros key.
  destruct (decide (lo * num_times ≤ key)) as [Hkey|Hkey].
  - replace key
      with (lo * num_times + Z.of_nat (Z.to_nat (key - lo * num_times)))
      at 1 by lia.
    rewrite get0_unpack_no_truncation by done.
    rewrite coef_app_zeros.
    rewrite coef_self_convolution_dense by done. f_equal. lia.
  - rewrite (convolution_power_below _ lo (S k) key);
      [|intros j Hj; specialize (Hdom j Hj); lia | lia].
    unfold get0. rewrite unpack_no_truncation by done.
    by rewrite decide_False by lia.
Qed.

Lemma self_convolve_dictionary_entries_witness :
  ({[1 := 2%R; 3 := 4%R]} : gmap Z R) ≠ ∅
  ∧ nonnegative_masses ({[1 := 2%R; 3 := 4%R]} : gmap Z R)
  ∧ 2 ≤ 3
  ∧ ∃ d, self_convolve_dictionary {[1 := 2%R; 3 := 4%R]} 3 = Ok d
         ∧ (∀ key,
              get0 d key
              = convolution_power {[1 := 2%R; 3 := 4%R]} (Z.to_nat 3) key)
         ∧ total_mass d
           = (total_mass {[1%Z := 2%R; 3%Z := 4%R]} ^ Z.to_nat 3)%R.
Proof.
  assert (nonnegative_masses ({[1 := 2%R; 3 := 4%R]} : gmap Z R)) as Hnn
    by (apply two_keys_nonneg; lra).
  assert (2 ≤ 3) as Hn by lia.
  split; [apply two_keys_non_empty|]. split; [exact Hnn|].
  split; [exact Hn|].
  exact (self_convolve_dictionary_entries _ 3 (two_keys_non_empty 1 3 2 4)
           Hnn Hn).
Defined.

(** ** [self_compose] *)

(** X17: composing a distribution with itself twice is composing it with
    itself without truncation: [self_compose 2] and [compose] at
    [tail_mass_truncation = 0] return the same distribution, or raise the
    same error. *)
Theorem self_compose_twice (p : PrivacyLossDistribution) :
  self_compose p 2 = compose p p 0.
Proof.
  unfold self_compose, compose.
  rewrite (decide_False (P := value_discretization_interval p ≠ _))
    by (intros ?; done).
  rewrite (decide_False (P := pessimistic_estimate p ≠ _))
    by (intros ?; done).
  unfold self_convolve_dictionary, convolve_dictionary.
  destruct (decide (rounded_probability_mass_function p = ∅)) as [->|Hne].
  { by rewrite dictionary_to_list_empty. }
  destruct (dictionary_to_list_spec _ Hne)
    as (lo & hi & _ & _ & Hle & _ & _ & _ & ->).
  cbn.
  assert (get0 (rounded_probability_mass_function p)
          <$> seqZ lo (hi + 1 - lo) ≠ []) as Hl.
  { intros Hnil. apply (f_equal length) in Hnil.
    rewrite length_fmap, length_seqZ in Hnil. cbn in Hnil. lia. }
  rewrite self_convolve_padded by (done || lia). cbn.
  rewrite app_nil_r. replace (lo * 2) with (lo + lo) by lia.
  change (Z.to_nat 2) with 2%nat. cbn [self_convolution pow].
  do 2 f_equal. destruct (pessimistic_estimate p); lra.
Qed.

(** X18: for two or more factors, [self_compose] of a distribution with a
    nonempty mass function of nonnegative masses that accounts for mass one
    returns a distribution that accounts for mass one, with the same
    interval and estimate type and with
    [1 - (1 - infinity_mass) ^ num_times] at infinity. *)
Theorem self_compose_accounted_mass (p : PrivacyLossDistribution)
    (num_times : Z) :
  rounded_probability_mass_function p ≠ ∅ →
  nonnegative_masses (rounded_probability_mass_function p) →
  accounted_mass p = 1%R → 2 ≤ num_times →
  ∃ r, self_compose p num_times = Ok r
       ∧ accounted_mass r = 1%R
       ∧ infinity_mass r
         = (1 - (1 - infinity_mass p) ^ Z.to_nat num_times)%R
       ∧ value_discretization_interval r = value_discretization_interval p
       ∧ pessimistic_estimate r = pessimistic_estimate p.
Proof.
  intros Hne Hnn Hmass Hn. unfold self_compose.
  destruct (self_convolve_dictionary_total _ num_times Hne Hnn Hn)
    as (d & -> & Htotal).
  cbn. eexists. split; [done|]. cbn. split; [|done].
  unfold accounted_mass in *. cbn. rewrite Htotal.
  replace (total_mass (rounded_probability_mass_function p))
    with (1 - infinity_mass p)%R by lra.
  lra.
Qed.

Lemma self_compose_accounted_mass_witness :
  rounded_probability_mass_function (identity 1) ≠ ∅
  ∧ nonnegative_masses (rounded_probability_mass_function (identity 1))
  ∧ accounted_mass (identity 1) = 1%R
  ∧ 2 ≤ 3
  ∧ ∃ r, self_compose (identity 1) 3 = Ok r
         ∧ accounted_mass r = 1%R
         ∧ infinity_mass r
           = (1 - (1 - infinity_mass (identity 1)) ^ Z.to_nat 3)%R
         ∧ value_discretization_interval r
           = value_discretization_interval (identity 1)
         ∧ pessimistic_estimate r = pessimistic_estimate (identity 1).
Proof.
  assert (2 ≤ 3) as Hn by lia.
  split; [exact (identity_non_empty 1)|].
  split; [exact (identity_masses_nonneg 1)|].
  split; [exact (accounted_mass_identity 1)|]. split; [exact Hn|].
  exact (self_compose_accounted_mass (identity 1) 3 (identity_non_empty 1)
           (identity_masses_nonneg 1) (accounted_mass_identity 1) Hn).
Defined.

(** X19: [self_compose] with [num_times = 1] is not the identity.  For a
    distribution of strictly positive masses whose smallest and largest
    keys are [lo] and [hi], it raises [ValueError] when there is a single
    key, and otherwise returns the distribution without its largest
    bucket, whose mass is lost. *)
Theorem self_compose_once (p : PrivacyLossDistribution) (lo hi : Z) :
  positive_masses (rounded_probability_mass_function p) →
  is_Some (rounded_probability_mass_function p !! lo) →
  is_Some (rounded_probability_mass_function p !! hi) →
  (∀ k, is_Some (rounded_probability_mass_function p !! k) → lo ≤ k ≤ hi) →
  if decide (lo = hi)
  then self_compose p 1 = Raise ValueError
  else ∃ r, self_compose p 1 = Ok r
            ∧ rounded_probability_mass_function r
              = delete hi (rounded_probability_mass_function p)
            ∧ infinity_mass r = infinity_mass p
            ∧ accounted_mass r
              = (accounted_mass p
                 - get0 (rounded_probability_mass_function p) hi)%R.
Proof.
  intros Hpos Hlo Hhi Hdom.
  set (d := rounded_probability_mass_function p) in *.
  pose proof (Hdom lo Hlo) as Hle.
  unfold self_compose, self_convolve_dictionary. fold d.
  change (Z.to_nat 1) with 1%nat.
  rewrite (dictionary_to_list_between d lo hi Hlo Hhi Hdom). cbn.
  set (l := get0 d <$> seqZ lo (hi + 1 - lo)).
  assert (length l = Z.to_nat (hi + 1 - lo)) as Hlen
    by (unfold l; by rewrite length_fmap, length_seqZ).
  destruct (decide (lo = hi)) as [->|Hne].
  - unfold self_convolve. rewrite decide_True by lia. done.
  - rewrite self_convolve_once by lia. cbn.
    assert (list_to_dictionary (take (length l - 1) l) (lo * 1) 0
            = delete hi d) as ->.
    { assert (Forall (λ y, 0 <= y)%R l) as Hl
        by (apply dense_nonneg; by apply positive_nonnegative).
      apply map_eq. intros k.
      rewrite unpack_no_truncation by (by apply Forall_take).
      rewrite length_take, item_coef, coef_take, !Hlen.
      destruct (decide (lo ≤ k < hi)) as [Hk|Hk].
      - rewrite lookup_delete_ne by lia.
        rewrite (decide_True (P := (_ < _)%nat)) by lia.
        subst l.
        rewrite coef_dense by (intros j Hj; specialize (Hdom j Hj); lia).
        replace (lo + Z.of_nat (Z.to_nat (k - lo * 1))) with k by lia.
        unfold get0. destruct (d !! k) as [v|] eqn:Hv; simpl.
        + rewrite decide_True; [done|]. split; [lia|].
          specialize (Hpos k v Hv). lra.
        + rewrite decide_False; [done|]. intros [_ ?]. lra.
      - rewrite decide_False.
        + destruct (decide (k = hi)) as [->|Hkhi];
            [by rewrite lookup_delete_eq|].
          rewrite lookup_delete_ne by done.
          destruct (d !! k) as [v|] eqn:Hv; [|done].
          specialize (Hdom k ltac:(by eexists)). lia.
        + intros [Hr _]. lia. }
    eexists. split; [done|]. cbn. split; [done|].
    split; [lra|]. unfold accounted_mass. cbn. fold d.
    rewrite total_mass_delete. lra.
Qed.

Lemma self_compose_once_witness :
  positive_masses (rounded_probability_mass_function (identity 1))
  ∧ is_Some (rounded_probability_mass_function (identity 1) !! 0)
  ∧ (∀ k, is_Some (rounded_probability_mass_function (identity 1) !! k) →
          0 ≤ k ≤ 0)
  ∧ if decide (0 = 0)
    then self_compose (identity 1) 1 = Raise ValueError
    else ∃ r, self_compose (identity 1) 1 = Ok r
              ∧ rounded_probability_mass_function r
                = delete 0 (rounded_probability_mass_function (identity 1))
              ∧ infinity_mass r = infinity_mass (identity 1)
              ∧ accounted_mass r
                = (accounted_mass (identity 1)
                   - get0 (rounded_probability_mass_function (identity 1))
                       0)%R.
Proof.
  assert (is_Some (rounded_probability_mass_function (identity 1) !! 0))
    as Hkey by (simpl; rewrite lookup_singleton_eq; by eexists).
  assert (∀ k, is_Some (rounded_probability_mass_function (identity 1) !! k)
               → 0 ≤ k ≤ 0) as Hdom.
  { intros k [v Hk]. simpl in Hk.
    apply lookup_singleton_Some in Hk as [<- _]. lia. }
  split; [exact (identity_masses_positive 1)|]. split; [exact Hkey|].
  split; [exact Hdom|].
  exact (self_compose_once (identity 1) 0 0 (identity_masses_positive 1)
           Hkey Hkey Hdom).
Defined.

(** ** The monotone function inverter on any function *)

Section inverter.
Variables (func : float → float) (value : float).
Variables (search_parameters : BinarySearchParameters) (increasing : bool).

(** The search returns [lower_x] when [increasing], else [upper_x]; the
    bisection keeps that bound tested. *)
Lemma bisect_loop_tested fuel is_discrete tol lower_x upper_x bounds :
  tested func value search_parameters increasing
    (if increasing then lower_x else upper_x) →
  bisect_loop fuel func value increasing is_discrete tol lower_x upper_x
  = Some bounds →
  tested func value search_parameters increasing
    (if increasing then bounds.1 else bounds.2).
Proof.
  revert lower_x upper_x.
  induction fuel as [|fuel IH]; intros lower_x upper_x Htested;
    cbn [bisect_loop]; [done|].
  destruct (PrimFloat.ltb tol (PrimFloat.sub upper_x lower_x));
    [|by intros [= <-]].
  destruct (check increasing
              (func (mid_point is_discrete lower_x upper_x)) value)
    eqn:Hcheck; apply IH; unfold tested, check in *;
    destruct increasing; auto.
Qed.

(** So does the doubling of the initial guess, with the upper bound
    lowered to the last guess. *)
Lemma guess_loop_tested fuel lower_x initial_guess_x bounds :
  tested func value search_parameters increasing
    (if increasing then lower_x else upper_bound search_parameters) →
  guess_loop fuel func value increasing (upper_bound search_parameters)
    lower_x initial_guess_x = Some bounds →
  tested func value search_parameters increasing
    (if increasing then bounds.1
     else float_min (upper_bound search_parameters) bounds.2).
Proof.
  revert lower_x initial_guess_x.
  induction fuel as [|fuel IH]; intros lower_x initial_guess_x Htested;
    cbn [guess_loop]; [done|].
  destruct (PrimFloat.ltb initial_guess_x (upper_bound search_parameters))
    eqn:Hlt; cbn [andb].
  - destruct (check increasing (func initial_guess_x) value) eqn:Hcheck.
    + apply IH. unfold tested, check in *. destruct increasing; auto.
    + intros [= <-]. cbn [fst snd]. unfold float_min. rewrite Hlt.
      unfold tested, check in *. destruct increasing; auto.
  - intros [= <-]. cbn [fst snd]. unfold float_min. rewrite Hlt.
    unfold tested in *. destruct increasing; auto.
Qed.

(** What [inverse_monotone_function] establishes about its result. *)
Lemma inverse_monotone_function_tested fuel x :
  inverse_monotone_function fuel func value search_parameters increasing
  = Some (Some x) →
  tested func value search_parameters increasing x.
Proof.
  unfold inverse_monotone_function.
  destruct (bound_test func value search_parameters increasing); [done|].
  assert (tested func value search_parameters increasing
            (if increasing then lower_bound search_parameters
             else upper_bound search_parameters)) as Hinit.
  { unfold tested. destruct increasing; by left. }
  destruct (initial_guess search_parameters) as [initial_guess_x|].
  - destruct (guess_loop fuel func value increasing
                (upper_bound search_parameters)
                (lower_bound search_parameters) initial_guess_x)
      as [[lower_x guess_x]|] eqn:Hguess; [|done].
    pose proof (guess_loop_tested _ _ _ _ Hinit Hguess) as Htested.
    cbn in *.
    destruct (bisect_loop fuel func value increasing _ _ lower_x _)
      as [[lower_x' upper_x']|] eqn:Hbisect; [|done].
    cbn. intros [= <-].
    exact (bisect_loop_tested _ _ _ _ _ _ Htested Hbisect).
  - cbn.
    destruct (bisect_loop fuel func value increasing _ _ _ _)
      as [[lower_x' upper_x']|] eqn:Hbisect; [|done].
    cbn. intros [= <-].
    exact (bisect_loop_tested _ _ _ _ _ _ Hinit Hbisect).
Qed.
End inverter.

(** X20: for any function on doubles, monotone or not, and any search
    parameters, [inverse_monotone_function] returns [None] exactly when
    the bound it tests first is finite and [func] exceeds [value] there;
    any other result is the bound that the parameters gave, or a point at
    which [func] was evaluated and does not exceed [value] (for an
    increasing search, is at most [value]). *)
Theorem inverse_monotone_function_any_function (fuel : nat)
    (func : float → float) (value : float)
    (search_parameters : BinarySearchParameters) (increasing : bool) :
  (inverse_monotone_function fuel func value search_parameters increasing
   = Some None
   ↔ bound_test func value search_parameters increasing = true)
  ∧ ∀ x,
      inverse_monotone_function fuel func value search_parameters increasing
      = Some (Some x) →
      tested func value search_parameters increasing x.
Proof.
  split; [|intros x; apply inverse_monotone_function_tested].
  unfold inverse_monotone_function.
  destruct (bound_test func value search_parameters increasing); [done|].
  split; [|done].
  destruct (initial_guess search_parameters) as [initial_guess_x|].
  - destruct (guess_loop _ _ _ _ _ _ _) as [[lower_x guess_x]|]; [|done].
    cbn. by destruct (bisect_loop _ _ _ _ _ _ _ _) as [[? ?]|].
  - cbn. by destruct (bisect_loop _ _ _ _ _ _ _ _) as [[? ?]|].
Qed.

(** ** The mass accounted for by [from_two_probability_mass_functions] *)



Section two_probability_mass_functions_mass.
Context {K : Type} `{Countable K}.
Implicit Types lower upper : gmap K (option R).






End two_probability_mass_functions_mass.


(** ** The identity distribution *)

(** X23: the identity distribution stands for a mechanism that leaks
    nothing: its hockey-stick divergence is zero at every nonnegative
    epsilon, and [get_epsilon_for_delta] returns zero for every nonnegative
    delta. *)
Theorem identity_queries (interval eps dlt : R) :
  (0 <= eps)%R → (0 <= dlt)%R →
  get_delta_for_epsilon (identity interval) eps = 0%R
  ∧ get_epsilon_for_delta (identity interval) dlt = Ok (Finite 0).
Proof.
  intros Heps Hdlt.
  split; [by apply get_delta_for_epsilon_identity|].
  by apply get_epsilon_for_delta_identity.
Qed.

Lemma identity_queries_witness :
  (0 <= 1)%R ∧ (0 <= 0.5)%R
  ∧ get_delta_for_epsilon (identity 1) 1 = 0%R
  ∧ get_epsilon_for_delta (identity 1) 0.5 = Ok (Finite 0).
Proof.
  assert (0 <= 1)%R as Heps by lra.
  assert (0 <= 0.5)%R as Hdlt by lra.
  split; [exact Heps|]. split; [exact Hdlt|].
  exact (identity_queries 1 1 0.5 Heps Hdlt).
Defined.

(** ** Composition in any grouping *)





















(** ** Truncation *)

(** An entry stored under a truncation budget is stored unchanged without
    truncation. *)
Lemma list_to_dictionary_truncated_lookup (l : list R) (offset : Z) (t : R)
    (k : Z) (v : R) :
  Forall (λ y, 0 <= y)%R l → (0 <= t)%R →
  list_to_dictionary l offset t !! k = Some v →
  list_to_dictionary l offset 0 !! k = Some v.
Proof.
  intros Hl Ht Hk. rewrite list_to_dictionary_lookup in Hk.
  destruct (decide _) as [[Hr Hpos]|]; [|done].
  destruct (lower_truncation_index_spec l t Ht) as ([? ?] & _).
  destruct (upper_truncation_index_spec l t Ht) as ([? ?] & _).
  rewrite unpack_no_truncation by done.
  rewrite decide_True; [done|]. split; [lia | done].
Qed.

(** [convolve_dictionary] with and without truncation. *)
Lemma convolve_truncated (d1 d2 : gmap Z R) (t : R) :
  d1 ≠ ∅ → d2 ≠ ∅ → nonnegative_masses d1 → nonnegative_masses d2 →
  (0 <= t)%R →
  ∃ d0 dt,
    convolve_dictionary d1 d2 0 = Ok d0
    ∧ convolve_dictionary d1 d2 t = Ok dt
    ∧ (∀ key v, dt !! key = Some v → d0 !! key = Some v)
    ∧ (total_mass d0 - t <= total_mass dt)%R
    ∧ ∀ key, get0 d0 key = convolution_entry d1 d2 key.
Proof.
  intros H1 H2 Hn1 Hn2 Ht. unfold convolve_dictionary.
  destruct (dictionary_to_list_spec d1 H1)
    as (lo1 & hi1 & _ & _ & Hle1 & _ & _ & Hd1 & ->).
  destruct (dictionary_to_list_spec d2 H2)
    as (lo2 & hi2 & _ & _ & Hle2 & _ & _ & Hd2 & ->).
  cbn. eexists _, _. split; [done|]. split; [done|].
  assert (Forall (λ y, 0 <= y)%R
            (fftconvolve (get0 d1 <$> seqZ lo1 (hi1 + 1 - lo1))
               (get0 d2 <$> seqZ lo2 (hi2 + 1 - lo2)))) as Hc
    by (apply fftconvolve_nonneg; by apply dense_nonneg).
  split; [|split].
  - intros key v. by apply list_to_dictionary_truncated_lookup.
  - pose proof (list_to_dictionary_total _ (lo1 + lo2) t Hc Ht).
    pose proof (list_to_dictionary_total _ (lo1 + lo2) 0 Hc ltac:(lra)).
    lra.
  - intros key. apply unpacked_convolution_entry; try done; try lia.
    + intros k Hk. specialize (Hd1 k Hk). lia.
    + intros k Hk. specialize (Hd2 k Hk). lia.
Qed.

(** X26: truncation only drops entries.  Every entry that
    [convolve_dictionary] stores under a budget [t >= 0] is stored with the
    same value under budget [0], where it is the sum over
    [key1 + key2 = key] of the products of the values. *)
Theorem convolve_dictionary_truncation (dictionary1 dictionary2 : gmap Z R)
    (tail_mass_truncation : R) :
  dictionary1 ≠ ∅ → dictionary2 ≠ ∅ →
  nonnegative_masses dictionary1 → nonnegative_masses dictionary2 →
  (0 <= tail_mass_truncation)%R →
  ∃ d0 dt,
    convolve_dictionary dictionary1 dictionary2 0 = Ok d0
    ∧ convolve_dictionary dictionary1 dictionary2 tail_mass_truncation
      = Ok dt
    ∧ ∀ key v,
        dt !! key = Some v →
        d0 !! key = Some v
        ∧ v = convolution_entry dictionary1 dictionary2 key.
Proof.
  intros H1 H2 Hn1 Hn2 Ht.
  destruct (convolve_truncated dictionary1 dictionary2 tail_mass_truncation
              H1 H2 Hn1 Hn2 Ht) as (d0 & dt & Hd0 & Hdt & Hsub & _ & Hentry).
  exists d0, dt. split; [done|]. split; [done|].
  intros key v Hv. specialize (Hsub key v Hv). split; [done|].
  rewrite <- Hentry. unfold get0. by rewrite Hsub.
Qed.

Lemma convolve_dictionary_truncation_witness :
  ({[1 := 0.4%R; 2 := 0.6%R]} : gmap Z R) ≠ ∅
  ∧ ({[1 := 0.7%R; 3 := 0.3%R]} : gmap Z R) ≠ ∅
  ∧ nonnegative_masses ({[1 := 0.4%R; 2 := 0.6%R]} : gmap Z R)
  ∧ nonnegative_masses ({[1 := 0.7%R; 3 := 0.3%R]} : gmap Z R)
  ∧ (0 <= 0.57)%R
  ∧ ∃ d0 dt,
      convolve_dictionary {[1 := 0.4%R; 2 := 0.6%R]}
        {[1 := 0.7%R; 3 := 0.3%R]} 0 = Ok d0
      ∧ convolve_dictionary {[1 := 0.4%R; 2 := 0.6%R]}
          {[1 := 0.7%R; 3 := 0.3%R]} 0.57 = Ok dt
      ∧ ∀ key v,
          dt !! key = Some v →
          d0 !! key = Some v
          ∧ v = convolution_entry {[1 := 0.4%R; 2 := 0.6%R]}
                  {[1 := 0.7%R; 3 := 0.3%R]} key.
Proof.
  assert (nonnegative_masses ({[1 := 0.4%R; 2 := 0.6%R]} : gmap Z R)) as H1
    by (apply two_keys_nonneg; lra).
  assert (nonnegative_masses ({[1 := 0.7%R; 3 := 0.3%R]} : gmap Z R)) as H2
    by (apply two_keys_nonneg; lra).
  assert (0 <= 0.57)%R as Ht by lra.
  split; [apply two_keys_non_empty|]. split; [apply two_keys_non_empty|].
  split; [exact H1|]. split; [exact H2|]. split; [exact Ht|].
  exact (convolve_dictionary_truncation _ _ 0.57
           (two_keys_non_empty 1 2 0.4 0.6) (two_keys_non_empty 1 3 0.7 0.3)
           H1 H2 Ht).
Defined.




(** ** The distribution of given privacy parameters, queried *)

(** X28: for [epsilon >= 0] with [e^epsilon] below [float_max],
    [0 <= delta <= 1] and a positive interval by which the quotient of
    [epsilon] has a finite double, the distribution built by
    [from_privacy_parameters] gives back, at [epsilon], a hockey-stick
    divergence of at least [delta] and at most
    [delta + (1 - delta) * (1 - e^(-interval))]; it gives back [delta]
    itself when [epsilon] is a multiple of the interval. *)
Theorem from_privacy_parameters_delta (eps dlt interval : R) :
  (0 <= eps)%R → (exp eps < float_max)%R → (0 <= dlt <= 1)%R →
  (0 < interval)%R → (eps / interval < float_max)%R →
  ∃ pld,
    from_privacy_parameters {| epsilon := eps; delta := dlt |} interval
    = Ok pld
    ∧ (dlt <= get_delta_for_epsilon pld eps
       <= dlt + (1 - dlt) * (1 - exp (- interval)))%R
    ∧ ∀ k : Z, eps = (IZR k * interval)%R →
               get_delta_for_epsilon pld eps = dlt.
Proof.
  intros Heps Hmax Hdlt Hint _.
  rewrite from_privacy_parameters_returns by (done || lra).
  pose proof (exp_pos eps) as HE. pose proof (exp_pos (- eps)) as HE'.
  eexists. split; [done|].
  set (k1 := Zceil (eps / interval)). set (k2 := Zceil (- eps / interval)).
  set (a := underflow ((1 - dlt) / (1 + exp (- eps)))).
  set (b := underflow ((1 - dlt) / (1 + exp eps))).
  set (pld := {| rounded_probability_mass_function :=
                   <[k2 := b]> (<[k1 := a]> ∅);
                 value_discretization_interval := interval;
                 infinity_mass := dlt;
                 pessimistic_estimate := true |}).
  assert (∀ e, (0 < e)%R →
               (0 <= underflow ((1 - dlt) / (1 + e)) <= 1 - dlt)%R) as Hmass.
  { intros e He.
    assert (0 <= (1 - dlt) / (1 + e) <= 1 - dlt)%R as [Hq1 Hq2].
    { split; [apply Rle_mult_inv_pos; lra|].
      apply (Rmult_le_reg_r (1 + e)); [lra|].
      unfold Rdiv. rewrite Rmult_assoc, Rinv_l by lra. nra. }
    pose proof (underflow_bounds _ Hq1). lra. }
  assert (0 <= a <= 1 - dlt)%R as Ha by (by apply Hmass).
  assert (0 <= b <= 1 - dlt)%R as Hb by (by apply Hmass).
  assert (nonnegative_masses (rounded_probability_mass_function pld)) as Hnn.
  { cbn. apply insert_nonneg; [lra|]. apply insert_nonneg; [lra|].
    apply positive_nonnegative, positive_masses_empty. }
  assert (∀ i, is_Some (rounded_probability_mass_function pld !! i)
               → i = k1 ∨ i = k2) as Hkeys.
  { intros i [v Hi]. cbn in Hi.
    apply lookup_insert_Some in Hi as [[<- _]|[_ Hi]]; [by right|].
    apply lookup_insert_Some in Hi as [[<- _]|[_ Hi]]; [by left|].
    by rewrite lookup_empty in Hi. }
  assert (eps / interval * interval = eps)%R as Hquot by (field; lra).
  assert (bucket_value pld k1 < eps + interval)%R as Hk1.
  { unfold bucket_value. cbn. pose proof (Zceil_bound (eps / interval)).
    fold k1 in H. nra. }
  assert (bucket_value pld k2 <= eps)%R as Hk2.
  { unfold bucket_value. cbn.
    pose proof (Zceil_bound (- eps / interval)) as [Hlow _]. fold k2 in Hlow.
    assert (- eps / interval <= 0)%R.
    { unfold Rdiv. rewrite <- Ropp_mult_distr_l.
      assert (0 <= eps * / interval)%R by (apply Rle_mult_inv_pos; lra).
      lra. }
    assert (k2 ≤ 0) as Hle.
    { assert (IZR k2 < IZR 1)%R as Hlt by lra. apply lt_IZR in Hlt. lia. }
    apply IZR_le in Hle. nra. }
  rewrite (get_delta_hockey_sum pld Hnn eps _ (reflexivity _)).
  cbn [infinity_mass pld].
  split.
  - split.
    + assert (0 <= Rsum (hockey_term pld eps
                         <$> keys (rounded_probability_mass_function pld)))%R;
        [|lra].
      apply Rsum_nonneg, Forall_fmap, Forall_forall. intros i _.
      apply (hockey_term_bounds pld Hnn).
    + set (C := ((1 - dlt) * (1 - exp (- interval)))%R).
      assert (0 <= C)%R as HC.
      { unfold C. apply Rmult_le_pos; [lra|].
        assert (exp (- interval) < 1)%R; [|lra].
        rewrite <- exp_0. apply exp_increasing. lra. }
      assert (Rsum (hockey_term pld eps
                    <$> keys (rounded_probability_mass_function pld))
              <= Rsum ((λ z, if decide (z = k1) then C else 0%R)
                       <$> keys (rounded_probability_mass_function pld)))%R
        as Hle.
      { apply Rsum_fmap_le. intros i Hi. apply elem_of_keys in Hi.
        destruct (decide (i = k1)) as [->|Hne].
        - pose proof (hockey_term_bounds pld Hnn eps k1) as [_ Hub].
          unfold hockey_term in *.
          destruct (decide (bucket_value pld k1 > eps)%R); [|done].
          assert (0 <= get0 (rounded_probability_mass_function pld) k1
                  <= 1 - dlt)%R as Hmass1.
          { unfold get0. cbn. rewrite lookup_insert.
            destruct (decide (k2 = k1)); simpl; [lra|].
            rewrite lookup_insert_eq. simpl. lra. }
          assert (exp (- interval) <= exp (eps - bucket_value pld k1))%R.
          { left. apply exp_increasing. lra. }
          assert (exp (eps - bucket_value pld k1) < 1)%R.
          { rewrite <- exp_0. apply exp_increasing. lra. }
          unfold C. apply Rmult_le_compat; lra.
        - destruct (Hkeys i Hi) as [->| ->]; [done|].
          rewrite (hockey_term_below pld eps k2) by done. lra. }
      rewrite Rsum_indicator in Hle; [lra | apply NoDup_fst_map_to_list |].
      apply elem_of_keys. cbn. rewrite lookup_insert.
      destruct (decide (k2 = k1)); [by eexists|].
      rewrite lookup_insert_eq. by eexists.
  - intros k Hk.
    rewrite Rsum_zero; [lra|]. apply Forall_fmap, Forall_forall.
    intros i Hi. apply elem_of_keys in Hi. simpl.
    apply hockey_term_below.
    destruct (Hkeys i Hi) as [->| ->]; [|done].
    unfold bucket_value. cbn. fold k1.
    assert (k1 = k) as ->; [|lra].
    unfold k1. rewrite Hk.
    replace (IZR k * interval / interval)%R with (IZR k) by (field; lra).
    apply Zceil_eq. lra.
Qed.

Lemma from_privacy_parameters_delta_witness :
  (0 <= 1)%R ∧ (exp 1 < float_max)%R ∧ (0 <= 0.5 <= 1)%R ∧ (0 < 1)%R
  ∧ (1 / 1 < float_max)%R
  ∧ ∃ pld,
      from_privacy_parameters {| epsilon := 1; delta := 0.5 |} 1 = Ok pld
      ∧ (0.5 <= get_delta_for_epsilon pld 1
         <= 0.5 + (1 - 0.5) * (1 - exp (- 1)))%R
      ∧ ∀ k : Z, 1%R = (IZR k * 1)%R → get_delta_for_epsilon pld 1 = 0.5%R.
Proof.
  assert (0 <= 1)%R as Heps by lra.
  assert (0 <= 0.5 <= 1)%R as Hdlt by lra.
  assert (0 < 1)%R as Hint by lra.
  assert (1 / 1 < float_max)%R as Hq by (unfold float_max; lra).
  split; [exact Heps|]. split; [exact exp_1_range|].
  split; [exact Hdlt|]. split; [exact Hint|]. split; [exact Hq|].
  exact (from_privacy_parameters_delta 1 0.5 1 Heps exp_1_range Hdlt Hint
           Hq).
Defined.
